(** * Tiled image convolution (SYCL Academy, Section 10: local memory tiling)

    A shallow embedding of
    [Code_Exercises/Section_10_Local_Memory_Tiling/solution.cpp]:

    - the kernel lambda of [parallel_for] (lines 83-139) as a step function
      of one work-item over its program counter, the work-group's local
      [scratchpad] and the device output buffer [outDev4];
    - the execution of an [nd_range] as the interleaving of the work-items
      of all work-groups, with [sycl::group_barrier] releasing a group only
      once every work-item of the group waits at it;
    - the host program [main] (lines 25-157) as a function of the outcomes
      of the SYCL runtime calls it makes.

    Index arithmetic: the source computes indices in [size_t] from [int]
    image and filter dimensions.  Every index the kernel forms is below the
    size of a buffer the host allocated, and the dimensions are [int]s whose
    sums the host computes without overflow, so no [size_t] operation wraps;
    indices are modelled in [nat].

    Device buffers are modelled through their [sycl::float4] views
    ([inDev4], [filterDev4], [outDev4], lines 70-72); the scalar type and
    its arithmetic are a parameter ([FloatOps]), instantiated below with
    IEEE-754 binary32 ([SpecFloat], precision 24, emax 128). *)

From Stdlib Require Import ZArith Lia SpecFloat.
From stdpp Require Import base option list gmap numbers strings.

Open Scope nat_scope.

(** ** Scalar arithmetic and [sycl::float4] *)

Class FloatOps (F : Type) := {
  fzero : F;
  fadd : F → F → F;
  fmul : F → F → F
}.

Record float4 (F : Type) := Float4 { f4x : F; f4y : F; f4z : F; f4w : F }.
Arguments Float4 {F} _ _ _ _.
Arguments f4x {F} _.
Arguments f4y {F} _.
Arguments f4z {F} _.
Arguments f4w {F} _.

(** [float] of the device: IEEE-754 binary32, round to nearest even. *)
Module Binary32.
Definition prec : Z := 24.
Definition emax : Z := 128.
Definition float : Type := spec_float.
Definition add : float → float → float := SFadd prec emax.
Definition mul : float → float → float := SFmul prec emax.
Definition pos_zero : float := S754_zero false.
Definition neg_zero : float := S754_zero true.
Definition one : float := S754_finite false 8388608 (-23).
End Binary32.


(** Exact integer arithmetic, used to run the kernel on small examples. *)
#[export] Instance Z_ops : FloatOps Z := {
  fzero := 0%Z;
  fadd := Z.add;
  fmul := Z.mul
}.

(** ** [sycl::range<2>] and [sycl::id<2>] *)

Abbreviation range2 := (nat * nat)%type (only parsing).

Definition range_add (a b : range2) : range2 := (a.1 + b.1, a.2 + b.2).
Definition range_mul (a b : range2) : range2 := (a.1 * b.1, a.2 * b.2).
Definition range_size (a : range2) : nat := a.1 * a.2.

(** ** Launch configuration (lines 43-57) *)

Record config := Config {
  inputImgHeight : nat;
  inputImgWidth : nat;
  filterWidth : nat
}.

(** Modelled from the spec: [filter.half_width()] is defined in
    [image_conv.h]; the specification gives [halfWidth = filterWidth/2],
    and line 23 of the source computes its global [halo] the same way. *)
Definition half_width (fw : nat) : nat := fw / 2.

Definition halo (c : config) : nat := half_width (filterWidth c).

Definition globalRange (c : config) : range2 := (inputImgHeight c, inputImgWidth c).
Definition localRange : range2 := (8, 8).
Definition inBufRange (c : config) : range2 :=
  (inputImgHeight c + halo c * 2, inputImgWidth c + halo c * 2).
Definition outBufRange (c : config) : range2 := (inputImgHeight c, inputImgWidth c).
Definition filterRange (c : config) : range2 := (filterWidth c, filterWidth c).
Definition scratchpadRange (c : config) : range2 :=
  range_add localRange (halo c * 2, halo c * 2).

(** The global range is a component-wise multiple of the local range. *)
Definition divisible (c : config) : Prop :=
  (globalRange c).1 mod localRange.1 = 0 ∧ (globalRange c).2 mod localRange.2 = 0.

(** ** Work-items *)

Record nd_item := NdItem {
  globalId : range2;
  groupId : range2;
  localId : range2
}.

(** The item with local id [l] in group [g] of an [nd_range] without offset. *)
Definition nd_item_of (g l : range2) : nd_item :=
  {| globalId := range_add (range_mul g localRange) l; groupId := g; localId := l |}.

(** Outcome of asking a work-item to take a step. *)
Inductive outcome (A : Type) : Type :=
| Stepped (a : A)
| Blocked
| Fault.
Arguments Stepped {A} _.
Arguments Blocked {A}.
Arguments Fault {A}.

Section Kernel.
Context {F : Type} `{FloatOps F}.

Definition float4_zero : float4 F := Float4 fzero fzero fzero fzero.

Definition float4_add (a b : float4 F) : float4 F :=
  Float4 (fadd (f4x a) (f4x b)) (fadd (f4y a) (f4y b))
         (fadd (f4z a) (f4z b)) (fadd (f4w a) (f4w b)).

Definition float4_mul (a b : float4 F) : float4 F :=
  Float4 (fmul (f4x a) (f4x b)) (fmul (f4y a) (f4y b))
         (fmul (f4z a) (f4z b)) (fmul (f4w a) (f4w b)).

#[global] Instance float4_inhabited : Inhabited (float4 F) := populate float4_zero.

(** Program counter of a work-item inside the kernel lambda.
    - [Loading i j]: at the head of the inner tile-loader loop with loop
      counters [i] and [j] (lines 116-124);
    - [AtBarrier]: waiting in [sycl::group_barrier] (line 126);
    - [Summing r c sum]: at the head of the inner convolution loop with
      counters [r], [c] and accumulator [sum] (lines 128-136);
    - [Done]: past the store to [outDev4] (line 138). *)
Inductive pc : Type :=
| Loading (i j : nat)
| AtBarrier
| Summing (r c : nat) (sum : float4 F)
| Done.

(** One step of a work-item.  Reading [inDev4] or [filterDev4] out of
    bounds, reading a [scratchpad] cell that holds no written value, and
    storing to [outDev4] out of bounds are [Fault]s. *)
Definition thread_step (cfg : config) (inDev4 filterDev4 : list (float4 F))
    (item : nd_item) (st : pc) (scratchpad : gmap (nat * nat) (float4 F))
    (outDev4 : list (float4 F))
  : outcome (pc * gmap (nat * nat) (float4 F) * list (float4 F)) :=
  let globalGroupOffset := range_mul (groupId item) localRange in
  match st with
  | Loading i j =>
      if i <? (scratchpadRange cfg).1 then
        if j <? (scratchpadRange cfg).2 then
          match inDev4 !! ((globalGroupOffset.1 + i) * (inBufRange cfg).2
                           + globalGroupOffset.2 + j) with
          | Some v =>
              Stepped (Loading i (j + localRange.2), <[(i, j) := v]> scratchpad, outDev4)
          | None => Fault
          end
        else Stepped (Loading (i + localRange.1) (localId item).2, scratchpad, outDev4)
      else Stepped (AtBarrier, scratchpad, outDev4)
  | AtBarrier => Blocked
  | Summing r c sum =>
      if r <? filterWidth cfg then
        if c <? filterWidth cfg then
          let idx : range2 := (r, c) in
          match scratchpad !! range_add (localId item) idx,
                filterDev4 !! (idx.1 * (filterRange cfg).2 + idx.2) with
          | Some s, Some f =>
              Stepped (Summing r (c + 1) (float4_add sum (float4_mul s f)),
                       scratchpad, outDev4)
          | _, _ => Fault
          end
        else Stepped (Summing (r + 1) 0 sum, scratchpad, outDev4)
      else
        let k := (globalId item).1 * (outBufRange cfg).2 + (globalId item).2 in
        if k <? length outDev4 then Stepped (Done, scratchpad, <[k := sum]> outDev4)
        else Fault
  | Done => Blocked
  end.

(** ** Work-groups and the device *)

Record work_group := WorkGroup {
  wg_scratchpad : gmap (nat * nat) (float4 F);
  wg_items : list (nd_item * pc)
}.

Record device := Device {
  dev_groups : list work_group;
  dev_out : list (float4 F)
}.

Definition at_barrier (st : pc) : bool :=
  match st with AtBarrier => true | _ => false end.

Definition is_done (st : pc) : bool :=
  match st with Done => true | _ => false end.

(** Leaving the barrier, a work-item initialises [sum] (line 128) and
    enters the convolution loops with [r = 0], [c = 0]. *)
Definition release (t : nd_item * pc) : nd_item * pc :=
  (t.1, Summing 0 0 float4_zero).

(** What the scheduler may do next: let work-item [t] of group [g] take a
    step, or release the barrier of group [g]. *)
Inductive choice : Type :=
| RunItem (g t : nat)
| ReleaseBarrier (g : nat).

Definition exec_choice (cfg : config) (inDev4 filterDev4 : list (float4 F))
    (ch : choice) (d : device) : option device :=
  match ch with
  | RunItem g t =>
      grp ← dev_groups d !! g;
      it ← wg_items grp !! t;
      match thread_step cfg inDev4 filterDev4 it.1 it.2 (wg_scratchpad grp) (dev_out d) with
      | Stepped (st', scratchpad', out') =>
          Some {| dev_groups :=
                    <[g := {| wg_scratchpad := scratchpad';
                              wg_items := <[t := (it.1, st')]> (wg_items grp) |}]>
                      (dev_groups d);
                  dev_out := out' |}
      | _ => None
      end
  | ReleaseBarrier g =>
      grp ← dev_groups d !! g;
      match wg_items grp with
      | [] => None
      | _ :: _ =>
          if forallb (λ t, at_barrier t.2) (wg_items grp) then
            Some {| dev_groups :=
                      <[g := {| wg_scratchpad := wg_scratchpad grp;
                                wg_items := release <$> wg_items grp |}]>
                        (dev_groups d);
                    dev_out := dev_out d |}
          else None
      end
  end.

(** The device moves from [d] to [d'] by one scheduling decision. *)
Definition dev_step (cfg : config) (inDev4 filterDev4 : list (float4 F))
    (d d' : device) : Prop :=
  ∃ ch, exec_choice cfg inDev4 filterDev4 ch d = Some d'.

(** Some work-item is about to access memory it must not. *)
Definition dev_fault (cfg : config) (inDev4 filterDev4 : list (float4 F))
    (d : device) : Prop :=
  ∃ g t grp it,
    dev_groups d !! g = Some grp ∧ wg_items grp !! t = Some it ∧
    thread_step cfg inDev4 filterDev4 it.1 it.2 (wg_scratchpad grp) (dev_out d) = Fault.

(** The dispatch has completed: every work-item of every group is [Done]. *)
Definition dev_finished (d : device) : bool :=
  forallb (λ grp, forallb (λ t, is_done t.2) (wg_items grp)) (dev_groups d).

(** ** Launching the [nd_range] *)

Definition ids (n m : nat) : list range2 :=
  a ← seq 0 n; b ← seq 0 m; [(a, b)].

Definition local_ids : list range2 := ids localRange.1 localRange.2.

Definition group_ids (cfg : config) : list range2 :=
  ids ((globalRange cfg).1 / localRange.1) ((globalRange cfg).2 / localRange.2).

(** A fresh group: nothing written to its local memory yet, every
    work-item at the start of the tile loader ([i = localId[0]],
    [j = localId[1]]). *)
Definition init_group (g : range2) : work_group :=
  {| wg_scratchpad := ∅;
     wg_items := (λ l, (nd_item_of g l, Loading l.1 l.2)) <$> local_ids |}.

(** All work-items of the dispatch, group by group. *)
Definition dispatch_items (cfg : config) : list nd_item :=
  g ← group_ids cfg; l ← local_ids; [nd_item_of g l].

Definition launch (cfg : config) (out0 : list (float4 F)) : device :=
  {| dev_groups := init_group <$> group_ids cfg; dev_out := out0 |}.

(** ** A scheduler, and the dispatch as a function *)

(** Upper bound on the number of steps a work-item can still take. *)
Definition pc_measure (cfg : config) (st : pc) : nat :=
  let fw := filterWidth cfg in
  let summing0 := fw * (fw + 1) + fw + 1 in
  match st with
  | Loading i j =>
      summing0 + 2 + ((scratchpadRange cfg).1 - i) * ((scratchpadRange cfg).2 + 1)
      + ((scratchpadRange cfg).2 - j)
  | AtBarrier => summing0 + 1
  | Summing r c _ => (fw - r) * (fw + 1) + (fw - c) + 1
  | Done => 0
  end.

Definition group_measure (cfg : config) (grp : work_group) : nat :=
  sum_list ((λ t, pc_measure cfg t.2) <$> wg_items grp).

Definition dev_measure (cfg : config) (d : device) : nat :=
  sum_list (group_measure cfg <$> dev_groups d).

(** All scheduling decisions that name an existing group and work-item. *)
Definition choices (d : device) : list choice :=
  mjoin (imap (λ g grp, ReleaseBarrier g :: (RunItem g <$> seq 0 (length (wg_items grp))))
              (dev_groups d)).

Fixpoint first_step (cfg : config) (inDev4 filterDev4 : list (float4 F))
    (chs : list choice) (d : device) : option device :=
  match chs with
  | [] => None
  | ch :: chs' =>
      match exec_choice cfg inDev4 filterDev4 ch d with
      | Some d' => Some d'
      | None => first_step cfg inDev4 filterDev4 chs' d
      end
  end.

(** Run the device, always taking the first enabled decision. *)
Fixpoint run (cfg : config) (inDev4 filterDev4 : list (float4 F))
    (fuel : nat) (d : device) : device :=
  match fuel with
  | 0 => d
  | S fuel' =>
      match first_step cfg inDev4 filterDev4 (choices d) d with
      | Some d' => run cfg inDev4 filterDev4 fuel' d'
      | None => d
      end
  end.

(** Run the device under an arbitrary schedule; [None] when the schedule
    names a decision that is not enabled. *)
Fixpoint run_schedule (cfg : config) (inDev4 filterDev4 : list (float4 F))
    (sched : list choice) (d : device) : option device :=
  match sched with
  | [] => Some d
  | ch :: sched' =>
      d' ← exec_choice cfg inDev4 filterDev4 ch d;
      run_schedule cfg inDev4 filterDev4 sched' d'
  end.

(** A schedule built by always taking the first enabled decision in the
    order [order] puts the decisions in. *)
Fixpoint first_enabled (cfg : config) (inDev4 filterDev4 : list (float4 F))
    (chs : list choice) (d : device) : option choice :=
  match chs with
  | [] => None
  | ch :: chs' =>
      match exec_choice cfg inDev4 filterDev4 ch d with
      | Some _ => Some ch
      | None => first_enabled cfg inDev4 filterDev4 chs' d
      end
  end.

Fixpoint greedy (cfg : config) (inDev4 filterDev4 : list (float4 F))
    (order : list choice → list choice) (fuel : nat) (d : device) : list choice :=
  match fuel with
  | 0 => []
  | S fuel' =>
      match first_enabled cfg inDev4 filterDev4 (order (choices d)) d with
      | Some ch =>
          ch :: greedy cfg inDev4 filterDev4 order fuel'
                  (default d (exec_choice cfg inDev4 filterDev4 ch d))
      | None => []
      end
  end.

(** The kernel dispatch as a function of the device buffers: the contents
    of [outDev4] once every work-item has finished. *)
Definition dispatch (cfg : config) (inDev4 filterDev4 out0 : list (float4 F))
  : option (list (float4 F)) :=
  let d0 := launch cfg out0 in
  let d := run cfg inDev4 filterDev4 (dev_measure cfg d0) d0 in
  if dev_finished d then Some (dev_out d) else None.

(** ** Reference: naive convolution from the padded input *)

(** The filter window in row-major order. *)
Definition window (fw : nat) : list range2 := ids fw fw.

Definition naive_pixel (cfg : config) (input filter : list (float4 F)) (y x : nat)
  : float4 F :=
  foldl (λ acc idx,
           float4_add acc
             (float4_mul (input !!! ((y + idx.1) * (inBufRange cfg).2 + (x + idx.2)))
                         (filter !!! (idx.1 * filterWidth cfg + idx.2))))
        float4_zero (window (filterWidth cfg)).

Definition naive_conv (cfg : config) (input filter : list (float4 F))
  : list (float4 F) :=
  (λ p, naive_pixel cfg input filter p.1 p.2)
    <$> ids (inputImgHeight cfg) (inputImgWidth cfg).

(** The Convolution Evaluator as the specification words it: starting from
    zero, over the filter in row-major order, add
    [scratch[localId + (r, c)] * filter[r][c]]. *)
Definition evaluator_sum (cfg : config) (scratchpad : gmap (nat * nat) (float4 F))
    (filter : list (float4 F)) (lid : range2) : float4 F :=
  foldl (λ acc idx,
           float4_add acc
             (float4_mul (scratchpad !!! range_add lid idx)
                         (filter !!! (idx.1 * filterWidth cfg + idx.2))))
        float4_zero (window (filterWidth cfg)).

(** The scratch coordinates the Tile Loader of the work-item with local id
    [lid] visits: [lid], stepping by [localRange] in each dimension, below
    the scratch extent. *)
Definition loader_cell (cfg : config) (lid cell : range2) : Prop :=
  (∃ a, cell.1 = lid.1 + localRange.1 * a) ∧ (∃ b, cell.2 = lid.2 + localRange.2 * b) ∧
  cell.1 < (scratchpadRange cfg).1 ∧ cell.2 < (scratchpadRange cfg).2.

(** Index into the input buffer of scratch cell [cell] of group [g]. *)
Definition tile_index (cfg : config) (g cell : range2) : nat :=
  ((range_mul g localRange).1 + cell.1) * (inBufRange cfg).2
  + (range_mul g localRange).2 + cell.2.

(** Index into the output buffer a work-item stores to (line 138). *)
Definition out_index (cfg : config) (item : nd_item) : nat :=
  (globalId item).1 * (outBufRange cfg).2 + (globalId item).2.

(** Run a single work-item until it blocks, faults or the fuel ends. *)
Fixpoint thread_run (cfg : config) (inDev4 filterDev4 : list (float4 F))
    (item : nd_item) (fuel : nat) (st : pc)
    (scratchpad : gmap (nat * nat) (float4 F)) (outDev4 : list (float4 F))
  : outcome (pc * gmap (nat * nat) (float4 F) * list (float4 F)) :=
  match fuel with
  | 0 => Stepped (st, scratchpad, outDev4)
  | S fuel' =>
      match thread_step cfg inDev4 filterDev4 item st scratchpad outDev4 with
      | Stepped (st', scratchpad', out') =>
          thread_run cfg inDev4 filterDev4 item fuel' st' scratchpad' out'
      | Blocked => Stepped (st, scratchpad, outDev4)
      | Fault => Fault
      end
  end.

End Kernel.

Arguments pc F : clear implicits.
Arguments work_group F : clear implicits.
Arguments device F : clear implicits.

(** ** Invariants of a dispatch *)

Section Invariants.
Context {F : Type} `{FloatOps F}.
Variable cfg : config.
Variables inDev4 filterDev4 : list (float4 F).

(** The device buffers have the sizes the host allocated (lines 59-64). *)
Definition buffers_ok : Prop :=
  length inDev4 = range_size (inBufRange cfg) ∧
  length filterDev4 = range_size (filterRange cfg).

Definition pre_barrier (st : pc F) : Prop :=
  match st with Loading _ _ | AtBarrier => True | _ => False end.

Definition post_barrier (st : pc F) : Prop :=
  match st with Summing _ _ _ | Done => True | _ => False end.

(** Every written scratch cell lies in the scratch extent and holds the
    input element of the group's tile at that coordinate. *)
Definition scratch_sound (g : range2) (s : gmap (nat * nat) (float4 F)) : Prop :=
  ∀ cell v, s !! cell = Some v →
    cell.1 < (scratchpadRange cfg).1 ∧ cell.2 < (scratchpadRange cfg).2 ∧
    inDev4 !! tile_index cfg g cell = Some v.

(** Every cell of the scratch extent has been written. *)
Definition scratch_complete (s : gmap (nat * nat) (float4 F)) : Prop :=
  ∀ cell, cell.1 < (scratchpadRange cfg).1 → cell.2 < (scratchpadRange cfg).2 →
    is_Some (s !! cell).

(** The reference sum of pixel [(y, x)] over the first [n] window entries. *)
Definition partial_sum (y x n : nat) : float4 F :=
  foldl (λ acc idx,
           float4_add acc
             (float4_mul (inDev4 !!! ((y + idx.1) * (inBufRange cfg).2 + (x + idx.2)))
                         (filterDev4 !!! (idx.1 * filterWidth cfg + idx.2))))
        float4_zero (take n (window (filterWidth cfg))).

Definition thread_inv (s : gmap (nat * nat) (float4 F)) (out : list (float4 F))
    (t : nd_item * pc F) : Prop :=
  let lid := localId t.1 in
  match t.2 with
  | Loading i j =>
      (∃ a, i = lid.1 + localRange.1 * a) ∧ (∃ b, j = lid.2 + localRange.2 * b) ∧
      ∀ cell, loader_cell cfg lid cell →
        cell.1 < i ∨ (cell.1 = i ∧ cell.2 < j) → is_Some (s !! cell)
  | AtBarrier => ∀ cell, loader_cell cfg lid cell → is_Some (s !! cell)
  | Summing r c sum =>
      r ≤ filterWidth cfg ∧ c ≤ filterWidth cfg ∧ (r = filterWidth cfg → c = 0) ∧
      sum = partial_sum (globalId t.1).1 (globalId t.1).2 (r * filterWidth cfg + c)
  | Done =>
      out !! out_index cfg t.1
      = Some (naive_pixel cfg inDev4 filterDev4 (globalId t.1).1 (globalId t.1).2)
  end.

Definition group_ok (g : range2) : Prop :=
  g.1 < (globalRange cfg).1 / localRange.1 ∧ g.2 < (globalRange cfg).2 / localRange.2.

Definition group_inv (out : list (float4 F)) (g : range2) (grp : work_group F) : Prop :=
  group_ok g ∧
  (wg_items grp).*1 = nd_item_of g <$> local_ids ∧
  scratch_sound g (wg_scratchpad grp) ∧
  (Forall (λ t, pre_barrier t.2) (wg_items grp) ∨
   (Forall (λ t, post_barrier t.2) (wg_items grp) ∧ scratch_complete (wg_scratchpad grp))) ∧
  Forall (thread_inv (wg_scratchpad grp) out) (wg_items grp).

(** The scratch cell comes at or after [(i, j)] in the order of the
    loader loops. *)
Definition at_or_after (i j : nat) (cell : nat * nat) : Prop :=
  i < cell.1 ∨ (cell.1 = i ∧ j ≤ cell.2).

(** The evaluator's sum over the first [n] window entries. *)
Definition evaluator_partial (s : gmap (nat * nat) (float4 F)) (lid : nat * nat) (n : nat)
  : float4 F :=
  foldl (λ acc idx,
           float4_add acc
             (float4_mul (s !!! range_add lid idx)
                         (filterDev4 !!! (idx.1 * filterWidth cfg + idx.2))))
        float4_zero (take n (window (filterWidth cfg))).

(** [out'] is [out], or [out] after the store of some work-item. *)
Definition out_step (out out' : list (float4 F)) : Prop :=
  out' = out ∨
  ∃ g l, group_ok g ∧ l.1 < 8 ∧ l.2 < 8 ∧
    out' = <[out_index cfg (nd_item_of g l) :=
               naive_pixel cfg inDev4 filterDev4
                 (globalId (nd_item_of g l)).1 (globalId (nd_item_of g l)).2]> out.

Definition dev_inv (d : device F) : Prop :=
  Forall2 (group_inv (dev_out d)) (group_ids cfg) (dev_groups d) ∧
  length (dev_out d) = range_size (outBufRange cfg).

End Invariants.

(** ** Scratch accesses and barrier passages along an execution *)

Inductive event : Type :=
| EvScratchWrite (cell : nat * nat)
| EvBarrier
| EvScratchRead (cell : nat * nat)
| EvOutWrite (k : nat).

Definition is_write (e : event) : Prop :=
  match e with EvScratchWrite _ => True | _ => False end.

Definition is_read (e : event) : Prop :=
  match e with EvScratchRead _ => True | _ => False end.

Definition ev_list (o : option event) : list event :=
  match o with Some e => [e] | None => [] end.

(** A scratch write recorded in a trace lies in the scratch extent. *)
Definition label_in_extent (cfg : config) (lbl : nat * nat * event) : Prop :=
  match lbl.2 with
  | EvScratchWrite cell =>
      cell.1 < (scratchpadRange cfg).1 ∧ cell.2 < (scratchpadRange cfg).2
  | _ => True
  end.

Section Traces.
Context {F : Type} `{FloatOps F}.

(** What the step of a work-item from [st] does to the scratchpad or the
    output buffer: the store of line 120, the load of line 133, the store
    of line 138; loop bookkeeping steps do neither. *)
Definition step_event (cfg : config) (item : nd_item) (st : pc F) : option event :=
  match st with
  | Loading i j =>
      if i <? (scratchpadRange cfg).1 then
        if j <? (scratchpadRange cfg).2 then Some (EvScratchWrite (i, j)) else None
      else None
  | Summing r c _ =>
      if r <? filterWidth cfg then
        if c <? filterWidth cfg then Some (EvScratchRead (range_add (localId item) (r, c)))
        else None
      else Some (EvOutWrite (out_index cfg item))
  | _ => None
  end.

(** Events of one scheduling decision, labelled with the index of the
    group and of the work-item in the group. *)
Definition choice_labels (cfg : config) (ch : choice) (d : device F)
  : list (nat * nat * event) :=
  match ch with
  | RunItem g t =>
      match dev_groups d !! g ≫= λ grp, wg_items grp !! t with
      | Some it =>
          match step_event cfg it.1 it.2 with
          | Some e => [(g, t, e)]
          | None => []
          end
      | None => []
      end
  | ReleaseBarrier g =>
      match dev_groups d !! g with
      | Some grp => imap (λ t _, (g, t, EvBarrier)) (wg_items grp)
      | None => []
      end
  end.

(** Run a schedule and record the events in the order they happen. *)
Fixpoint run_trace (cfg : config) (inDev4 filterDev4 : list (float4 F))
    (sched : list choice) (d : device F)
  : option (list (nat * nat * event) * device F) :=
  match sched with
  | [] => Some ([], d)
  | ch :: sched' =>
      d' ← exec_choice cfg inDev4 filterDev4 ch d;
      r ← run_trace cfg inDev4 filterDev4 sched' d';
      Some (choice_labels cfg ch d ++ r.1, r.2)
  end.

(** The events of work-item [t] of group [g]. *)
Definition events_of (g t : nat) (tr : list (nat * nat * event)) : list event :=
  omap (λ lbl, if decide (lbl.1 = (g, t)) then Some lbl.2 else None) tr.

(** The events a work-item has performed when it is in state [st]: only
    scratch writes before and in the barrier; afterwards its writes, one
    barrier, then scratch reads, and last the store to the output. *)
Definition thread_shape (st : pc F) (evs : list event) : Prop :=
  match st with
  | Loading _ _ | AtBarrier => Forall is_write evs
  | Summing _ _ _ =>
      ∃ ws rs, evs = ws ++ EvBarrier :: rs ∧ Forall is_write ws ∧ Forall is_read rs
  | Done =>
      ∃ ws rs k, evs = ws ++ EvBarrier :: rs ++ [EvOutWrite k] ∧
                 Forall is_write ws ∧ Forall is_read rs
  end.

Definition trace_inv (tr : list (nat * nat * event)) (d : device F) : Prop :=
  (∀ g grp t it, dev_groups d !! g = Some grp → wg_items grp !! t = Some it →
     thread_shape it.2 (events_of g t tr)) ∧
  (∀ g grp, dev_groups d !! g = Some grp →
     Forall (λ t, pre_barrier t.2) (wg_items grp) →
     ∀ t e, (g, t, e) ∈ tr → is_write e) ∧
  (∀ g t t' c c' i j,
     tr !! i = Some (g, t, EvScratchRead c) →
     tr !! j = Some (g, t', EvScratchWrite c') → j < i) ∧
  (∀ g grp cell, dev_groups d !! g = Some grp →
     is_Some (wg_scratchpad grp !! cell) → ∃ t', (g, t', EvScratchWrite cell) ∈ tr) ∧
  (∀ g t c i, tr !! i = Some (g, t, EvScratchRead c) →
     ∃ j t', j < i ∧ tr !! j = Some (g, t', EvScratchWrite c)).

End Traces.

(** ** The host program (lines 25-157) *)

Module Host.

(** The calls [main] makes to the SYCL runtime inside the [try] block. *)
Inductive sycl_call : Type :=
| QueueCreate                                  (* line 37 *)
| DeviceName                                   (* line 40 *)
| MallocDevice (floats : nat)                  (* lines 59-64 *)
| CopyToDevice (floats : nat)                  (* lines 66-68 *)
| WaitAndThrow                                 (* lines 75 and 142 *)
| Submit (global local : nat * nat)            (* lines 79-140: [parallel_for(ndRange, ...)] *)
| CopyFromDevice (floats : nat)                (* lines 145-146 *)
| Free.                                        (* lines 147-149 *)

(** What the program does that is visible from outside: a runtime call,
    a string written to [std::cout], the call of [util::write_image].
    Pieces written by one statement with nothing observable between
    them are one [Stdout] event. *)
Inductive host_event (F : Type) : Type :=
| Call (c : sycl_call)
| Stdout (s : string)
| WriteImage (data : list (float4 F)) (path : string).
Arguments Call {F} _.
Arguments Stdout {F} _.
Arguments WriteImage {F} _ _.

(** How a runtime call can fail.  It throws a [sycl::exception], which
    the [catch] of line 150 handles; or it fails in a way that [catch]
    does not handle: it throws an exception of another type, or the
    runtime terminates the process, as the default asynchronous handler
    behind [wait_and_throw] does. *)
Inductive failure : Type :=
| SyclException (what : string)
| Fatal.

(** How [main] ends: it returns, or the process is terminated. *)
Inductive exit_status : Type :=
| Returns (code : Z)
| Terminated.

(** Modelled from the spec: [util::benchmark] is the benchmarking and
    timing harness, which the specification lists as an external
    collaborator without giving its contract; its source is not among
    the sources.  What it writes to [std::cout] and how often it runs
    the function it is given are therefore left to the environment: the
    lines written before the first run, for each further run the lines
    written before it, and the lines written after the last run.
    Assumed of the harness is only that it runs the function at least
    once, one run after the other, that it makes no runtime call of its
    own and does not fail itself, and that a failure of the function
    escapes it. *)
Record harness := Harness {
  h_before : list string;
  h_more : list (list string);
  h_after : list string
}.

(** The SYCL runtime, the device and the benchmark harness, as far as
    [main] depends on them: whether and how the [n]-th call made fails,
    the device name, what a completed kernel leaves in the output
    buffer, and what the harness does when called with an iteration
    count and a caption. *)
Record runtime (F : Type) := Runtime {
  rt_throws : nat → sycl_call → option failure;
  rt_device_name : string;
  rt_kernel : config → list (float4 F) → list (float4 F) → list (float4 F) → list (float4 F);
  rt_harness : nat → string → harness
}.
Arguments rt_throws {F} _ _ _.
Arguments rt_device_name {F} _.
Arguments rt_kernel {F} _ _ _ _ _.
Arguments rt_harness {F} _ _ _.

(** An image of [util::read_image] / [util::allocate_image]: [width()],
    [height()], [channels()] and [data()], the data seen as [float4]
    pixels as the program does (lines 70-72). *)
Record image (F : Type) := Image {
  img_width : nat;
  img_height : nat;
  img_channels : nat;
  img_data : list (float4 F)
}.
Arguments img_width {F} _.
Arguments img_height {F} _.
Arguments img_channels {F} _.
Arguments img_data {F} _.

(** A filter of [util::generate_filter]: [width()] and [data()]. *)
Record filter (F : Type) := Filter {
  flt_width : nat;
  flt_data : list (float4 F)
}.
Arguments flt_width {F} _.
Arguments flt_data {F} _.

Record host_state (F : Type) := HostState {
  outputImage : list (float4 F);
  outDev : list (float4 F);
  calls : nat;
  log : list (host_event F)
}.
Arguments outputImage {F} _.
Arguments outDev {F} _.
Arguments calls {F} _.
Arguments log {F} _.

Definition newline : string := String (Ascii.ascii_of_nat 10) EmptyString.

Definition outputImageFile : string := "Code_Exercises/Images/blurred_dogs.png".

(** The caption [main] passes to the harness (line 144). *)
Definition caption : string := "image convolution (tiled)".

Section Main.
Context {F : Type}.
Variable rt : runtime F.

(** Computations of the [try] block: state passing, and either a
    failure of a runtime call or a result. *)
Definition M (A : Type) : Type := host_state F → host_state F * (failure + A).

#[global] Instance host_ret : MRet M := λ A a st, (st, inr a).

#[global] Instance host_bind : MBind M :=
  λ A B k m st, match m st with
                | (st', inl e) => (st', inl e)
                | (st', inr a) => k a st'
                end.

Definition emit (e : host_event F) (st : host_state F) : host_state F :=
  {| outputImage := outputImage st; outDev := outDev st; calls := calls st;
     log := log st ++ [e] |}.

Definition print (s : string) : M unit := λ st, (emit (Stdout s) st, inr tt).

(** A runtime call: recorded, then it returns or fails. *)
Definition call (c : sycl_call) : M unit :=
  λ st,
    let st' := {| outputImage := outputImage st; outDev := outDev st;
                  calls := S (calls st); log := log st ++ [Call c] |} in
    match rt_throws rt (calls st) c with
    | Some e => (st', inl e)
    | None => (st', inr tt)
    end.

Definition set_outDev (f : list (float4 F) → list (float4 F)) : M unit :=
  λ st, ({| outputImage := outputImage st; outDev := f (outDev st);
            calls := calls st; log := log st |}, inr tt).

Definition copy_back : M unit :=
  λ st, ({| outputImage := outDev st; outDev := outDev st;
            calls := calls st; log := log st |}, inr tt).

(** Write the strings [ls] to [std::cout], one after the other. *)
Fixpoint prints (ls : list string) : M unit :=
  match ls with
  | [] => mret tt
  | s :: ls' => print s ;; prints ls'
  end.

(** The further runs of [f] by the harness, each after the lines
    written before it. *)
Fixpoint reruns (f : M unit) (more : list (list string)) : M unit :=
  match more with
  | [] => mret tt
  | ls :: more' => prints ls ;; f ;; reruns f more'
  end.

(** Modelled from the spec: [util::benchmark(f, iterations, caption)],
    as far as the harness is known (see [harness]). *)
Definition benchmark (f : M unit) (iterations : nat) (caption : string) : M unit :=
  let h := rt_harness rt iterations caption in
  prints (h_before h) ;; f ;; reruns f (h_more h) ;; prints (h_after h).

(** The lambda handed to the harness (lines 78-143): submit the kernel,
    then [wait_and_throw]. *)
Definition kernel_run (cfg : config) (inputImage : image F) (flt : filter F) : M unit :=
  call (Submit (globalRange cfg) localRange) ;;
  set_outDev (rt_kernel rt cfg (img_data inputImage) (flt_data flt)) ;;
  call WaitAndThrow.

(** The body of the [try] block (lines 37-149).  In lines 39-41 the
    string ["Running on "] is written before the device name is asked
    for, the name and the newline after: the operands of [<<] are
    evaluated from left to right. *)
Definition try_block (inputImage : image F) (flt : filter F) : M unit :=
  call QueueCreate ;;
  print "Running on " ;;
  call DeviceName ;;
  print (rt_device_name rt +:+ newline) ;;
  let inputImgWidth := img_width inputImage in
  let inputImgHeight := img_height inputImage in
  let channels := img_channels inputImage in
  let cfg := {| inputImgHeight := inputImgHeight; inputImgWidth := inputImgWidth;
                filterWidth := flt_width flt |} in
  call (MallocDevice (range_size (inBufRange cfg) * channels)) ;;
  call (MallocDevice (range_size (outBufRange cfg) * channels)) ;;
  call (MallocDevice (range_size (filterRange cfg) * channels)) ;;
  call (CopyToDevice (range_size (inBufRange cfg) * channels)) ;;
  call (CopyToDevice (range_size (filterRange cfg) * channels)) ;;
  call WaitAndThrow ;;
  benchmark (kernel_run cfg inputImage flt) 100 caption ;;
  call (CopyFromDevice (range_size (outBufRange cfg) * channels)) ;;
  copy_back ;;
  call Free ;;
  call Free ;;
  call Free.

(** [main]: the [try] block; the [catch] of [sycl::exception] (lines
    150-152), past which any other failure goes, ending the process
    before [util::write_image]; [util::write_image] (line 154); after
    [SYCLACADEMY_ASSERT(true)] [main] falls off its end and returns 0.
    [inputImage], [outputImage] and [flt] are what [util::read_image],
    [util::allocate_image] and [util::generate_filter] returned;
    [outDev0] is what the freshly allocated device buffer holds. *)
Definition main (inputImage outputImage0 : image F) (flt : filter F)
    (outDev0 : list (float4 F)) : list (host_event F) * exit_status :=
  let st0 := {| outputImage := img_data outputImage0; outDev := outDev0;
                calls := 0; log := [] |} in
  let '(st1, r) := try_block inputImage flt st0 in
  match r with
  | inl Fatal => (log st1, Terminated)
  | inl (SyclException what) =>
      let st2 := emit (Stdout ("Exception caught: " +:+ what +:+ newline)) st1 in
      let st3 := emit (WriteImage (outputImage st2) outputImageFile) st2 in
      (log st3, Returns 0)
  | inr _ =>
      let st3 := emit (WriteImage (outputImage st1) outputImageFile) st1 in
      (log st3, Returns 0)
  end.

(** The part of the [try] block from the first kernel submission on. *)
Definition from_benchmark (cfg : config) (inputImage : image F) (flt : filter F) : M unit :=
  let h := rt_harness rt 100 caption in
  (kernel_run cfg inputImage flt ;;
   reruns (kernel_run cfg inputImage flt) (h_more h) ;;
   prints (h_after h)) ;;
  call (CopyFromDevice (range_size (outBufRange cfg) * img_channels inputImage)) ;;
  copy_back ;;
  call Free ;;
  call Free ;;
  call Free.

Definition config_of (inputImage : image F) (flt : filter F) : config :=
  {| inputImgHeight := img_height inputImage; inputImgWidth := img_width inputImage;
     filterWidth := flt_width flt |}.

(** What the program has logged when it reaches the first kernel
    submission. *)
Definition prefix_log (inputImage : image F) (flt : filter F) : list (host_event F) :=
  let cfg := config_of inputImage flt in
  let channels := img_channels inputImage in
  [ Call QueueCreate; Stdout "Running on "; Call DeviceName;
    Stdout (rt_device_name rt +:+ newline);
    Call (MallocDevice (range_size (inBufRange cfg) * channels));
    Call (MallocDevice (range_size (outBufRange cfg) * channels));
    Call (MallocDevice (range_size (filterRange cfg) * channels));
    Call (CopyToDevice (range_size (inBufRange cfg) * channels));
    Call (CopyToDevice (range_size (filterRange cfg) * channels));
    Call WaitAndThrow ]
  ++ (Stdout <$> h_before (rt_harness rt 100 caption)).

(** [m] leaves the host image alone. *)
Definition keeps_image (m : M unit) : Prop :=
  ∀ st st' r, m st = (st', r) → outputImage st' = outputImage st.

(** [m] can only fail in [sycl::free]. *)
Definition throws_in_free (m : M unit) : Prop :=
  ∀ st st' e, m st = (st', inl e) → last (log st') = Some (Call Free).

(** [m] only adds to the log. *)
Definition extends_log (m : M unit) : Prop :=
  ∀ st st' r, m st = (st', r) → ∃ l, log st' = log st ++ l.

(** [m] first makes the runtime call [c]. *)
Definition starts_with (c : sycl_call) (m : M unit) : Prop :=
  ∀ st st' r, m st = (st', r) → ∃ l, log st' = log st ++ Call c :: l.

(** When [m] fails, the host image is as before, or the failure came
    from [sycl::free]. *)
Definition image_or_free (m : M unit) : Prop :=
  ∀ st st' e, m st = (st', inl e) →
    outputImage st' = outputImage st ∨ last (log st') = Some (Call Free).

(** The outcome of the [try] block alone. *)
Definition try_result (inputImage outputImage0 : image F) (flt : filter F)
    (outDev0 : list (float4 F)) : host_state F * (failure + unit) :=
  try_block inputImage flt
    {| outputImage := img_data outputImage0; outDev := outDev0; calls := 0; log := [] |}.

End Main.

Arguments M F A : clear implicits.

(** A harness that runs the function [iterations] times (once if
    [iterations] is 0) and then writes one line. *)
Definition plain_harness (iterations : nat) (caption : string) : harness :=
  {| h_before := []; h_more := replicate (iterations - 1) []; h_after := [caption] |}.

(** A runtime in which no call fails; the kernel result is immaterial
    to what it is used for. *)
Definition lenient {F : Type} : runtime F :=
  {| rt_throws := λ _ _, None; rt_device_name := "device";
     rt_kernel := λ _ _ _ out, out; rt_harness := plain_harness |}.

(** A runtime in which exactly the [n]-th call throws a
    [sycl::exception]. *)
Definition failing_at {F : Type} (n : nat) (what : string) : runtime F :=
  {| rt_throws := λ k _, if decide (k = n) then Some (SyclException what) else None;
     rt_device_name := "device";
     rt_kernel := λ _ _ _ out, out; rt_harness := plain_harness |}.

(** [s] begins with [p]. *)
Fixpoint has_prefix (p s : string) : bool :=
  match p with
  | EmptyString => true
  | String a p' =>
      match s with
      | EmptyString => false
      | String b s' => Ascii.eqb a b && has_prefix p' s'
      end
  end.

(** The line the [catch] block prints (line 151). *)
Definition is_error_report {F : Type} (e : host_event F) : bool :=
  match e with
  | Stdout s => has_prefix "Exception caught: " s
  | _ => false
  end.

Definition error_reports {F : Type} (tr : list (host_event F)) : nat :=
  length (List.filter is_error_report tr).

(** The configuration is rejected before launch, as a single reported
    error: the runtime is never asked to launch the kernel, and exactly
    one error is reported. *)
Definition rejected_before_launch {F : Type} (tr : list (host_event F)) : Prop :=
  (∀ g l, Call (Submit g l) ∉ tr) ∧ error_reports tr = 1.

End Host.

(** ** Concrete inputs *)

Module Demo.

Definition z4 (n : Z) : float4 Z := Float4 n n n n.

(** An 8x8 image with a 1x1 filter: one work-group, no halo. *)
Definition cfg : config := {| inputImgHeight := 8; inputImgWidth := 8; filterWidth := 1 |}.
Definition input : list (float4 Z) := (λ n, z4 (Z.of_nat n)) <$> seq 0 64.
Definition flt : list (float4 Z) := [z4 1].
Definition out0 : list (float4 Z) := replicate 64 (z4 (-1)).
Definition out0' : list (float4 Z) := replicate 64 (z4 7).

(** Two complete schedules of that dispatch: work-items in ascending and
    in descending order. *)
Definition forward : list choice := greedy cfg input flt id 400 (launch cfg out0).
Definition backward : list choice := greedy cfg input flt reverse 400 (launch cfg out0').

(** The forward schedule with its trace, and the states both end in. *)
Definition forward_run : list (nat * nat * event) * device Z :=
  default ([], launch cfg out0) (run_trace cfg input flt forward (launch cfg out0)).
Definition forward_end : device Z :=
  default (launch cfg out0) (run_schedule cfg input flt forward (launch cfg out0)).
Definition backward_end : device Z :=
  default (launch cfg out0') (run_schedule cfg input flt backward (launch cfg out0')).

(** An 8x8 image with a 3x3 filter: halo 1, padded input 10x10. *)
Definition cfg3 : config := {| inputImgHeight := 8; inputImgWidth := 8; filterWidth := 3 |}.
Definition input3 : list (float4 Z) := (λ n, z4 (Z.of_nat n)) <$> seq 0 100.
Definition flt3 : list (float4 Z) := (λ n, z4 (Z.of_nat (n + 1))) <$> seq 0 9.

(** A scratchpad with every cell of the 10x10 extent written. *)
Definition scratch3 : gmap (nat * nat) (float4 Z) :=
  list_to_map ((λ p, (p, z4 (Z.of_nat (p.1 * 10 + p.2)))) <$> ids 10 10).

(** A 10x10 image (not a multiple of the 8x8 group) with the 11x11 filter
    of the program. *)
Definition image10 : Host.image Z :=
  {| Host.img_width := 10; Host.img_height := 10; Host.img_channels := 4;
     Host.img_data := replicate 400 (z4 1) |}.
Definition output10 : Host.image Z :=
  {| Host.img_width := 10; Host.img_height := 10; Host.img_channels := 4;
     Host.img_data := replicate 100 (z4 0) |}.
Definition filter11 : Host.filter Z :=
  {| Host.flt_width := 11; Host.flt_data := replicate 121 (z4 1) |}.

End Demo.

(** ** The 1x1 filter on binary32 pixels *)

Module Identity.
Import Binary32.








End Identity.

(** ** Further notions used below *)

Section More.
Context {F : Type} `{FloatOps F}.

(** Upper bound on the steps one work-item takes in a dispatch. *)
Definition item_steps_bound (cfg : config) : nat :=
  filterWidth cfg * (filterWidth cfg + 1) + filterWidth cfg + 3
  + (scratchpadRange cfg).1 * ((scratchpadRange cfg).2 + 1) + (scratchpadRange cfg).2.

(** A finished work-item of [d] stores to output index [k]. *)
Definition finished_owner (cfg : config) (d : device F) (k : nat) (item : nd_item) : Prop :=
  ∃ g grp t, dev_groups d !! g = Some grp ∧ wg_items grp !! t = Some (item, Done) ∧
             out_index cfg item = k.

(** Output cells no finished work-item stores to hold what they held at
    the launch. *)
Definition out_untouched (cfg : config) (out0 : list (float4 F)) (d : device F) : Prop :=
  ∀ k, (∀ item, ¬ finished_owner cfg d k item) → dev_out d !! k = out0 !! k.

(** The scratch cells group [g] writes along a trace, in order. *)
Definition writes_of (g : nat) (tr : list (nat * nat * event)) : list (nat * nat) :=
  omap (λ lbl, match lbl.2 with
               | EvScratchWrite cell => if decide (lbl.1.1 = g) then Some cell else None
               | _ => None
               end) tr.

(** The cell lies before the position the tile loader is at. *)
Definition written_before (st : pc F) (cell : nat * nat) : Prop :=
  match st with
  | Loading i j => cell.1 < i ∨ (cell.1 = i ∧ cell.2 < j)
  | _ => True
  end.

Definition writes_inv (cfg : config) (tr : list (nat * nat * event)) (d : device F) : Prop :=
  (∀ g grp t cell, dev_groups d !! g = Some grp → (g, t, EvScratchWrite cell) ∈ tr →
     ∃ it, wg_items grp !! t = Some it ∧ loader_cell cfg (localId it.1) cell ∧
           written_before it.2 cell) ∧
  (∀ g, NoDup (writes_of g tr)).

(** The scratch reads of the first [n] filter entries, in the order of
    the convolution loops. *)
Definition window_reads (cfg : config) (item : nd_item) (n : nat) : list event :=
  (λ idx, EvScratchRead (range_add (localId item) idx))
    <$> take n (window (filterWidth cfg)).

(** The values a loop counter takes that starts at [a] and is stepped
    by [step] while it is below [e]. *)
Definition strided (step a e : nat) : list nat :=
  (λ k, a + step * k) <$> seq 0 ((e + (step - 1) - a) / step).

(** The scratch cells the tile loader of the work-item with local id
    [lid] writes, in the order of its loops (lines 116-124). *)
Definition loader_cells (cfg : config) (lid : range2) : list (nat * nat) :=
  i ← strided localRange.1 lid.1 (scratchpadRange cfg).1;
  pair i <$> strided localRange.2 lid.2 (scratchpadRange cfg).2.

(** The events of a work-item in state [st], spelled out. *)
Definition thread_script (cfg : config) (item : nd_item) (st : pc F)
    (evs : list event) : Prop :=
  let lid := localId item in
  let rows := strided localRange.1 lid.1 (scratchpadRange cfg).1 in
  let cols := strided localRange.2 lid.2 (scratchpadRange cfg).2 in
  match st with
  | Loading i j =>
      ∃ a b, i = lid.1 + localRange.1 * a ∧ j = lid.2 + localRange.2 * b ∧
             (i < (scratchpadRange cfg).1 ∨ b = 0) ∧
             evs = EvScratchWrite
                     <$> ((take a rows ≫= λ i', pair i' <$> cols) ++ (pair i <$> take b cols))
  | AtBarrier => evs = EvScratchWrite <$> loader_cells cfg lid
  | Summing r c _ =>
      evs = (EvScratchWrite <$> loader_cells cfg lid)
            ++ EvBarrier :: window_reads cfg item (r * filterWidth cfg + c)
  | Done =>
      evs = (EvScratchWrite <$> loader_cells cfg lid)
            ++ EvBarrier
            :: window_reads cfg item (filterWidth cfg * filterWidth cfg)
            ++ [EvOutWrite (out_index cfg item)]
  end.

Definition script_inv (cfg : config) (tr : list (nat * nat * event)) (d : device F) : Prop :=
  ∀ g grp t it, dev_groups d !! g = Some grp → wg_items grp !! t = Some it →
    thread_script cfg it.1 it.2 (events_of g t tr).

End More.

(** ** The host program as a script *)

Module Script.
Import Host.

Section Script.
Context {F : Type}.
Variable rt : runtime F.

(** What one run of the lambda handed to the harness logs (lines
    78-143). *)
Definition iteration_log (cfg : config) : list (host_event F) :=
  [Call (Submit (globalRange cfg) localRange); Call WaitAndThrow].

(** How often the harness runs the lambda. *)
Definition harness_runs : nat := S (length (h_more (rt_harness rt 100 caption))).

(** Everything the [try] block logs when no call fails. *)
Definition full_log (inputImage : image F) (flt : filter F) : list (host_event F) :=
  let cfg := config_of inputImage flt in
  let h := rt_harness rt 100 caption in
  prefix_log rt inputImage flt
  ++ iteration_log cfg
  ++ (h_more h ≫= λ ls, (Stdout <$> ls) ++ iteration_log cfg)
  ++ (Stdout <$> h_after h)
  ++ [Call (CopyFromDevice (range_size (outBufRange cfg) * img_channels inputImage));
      Call Free; Call Free; Call Free].

Definition is_call (e : host_event F) : bool :=
  match e with Call _ => true | _ => false end.

Definition count_calls (sc : list (host_event F)) : nat :=
  length (List.filter is_call sc).

(** Play the script [sc] against the runtime after [n] calls have been
    made: the events logged, up to and including the first call that
    fails, and its failure. *)
Fixpoint play (n : nat) (sc : list (host_event F)) : list (host_event F) * option failure :=
  match sc with
  | [] => ([], None)
  | Call c :: sc' =>
      match rt_throws rt n c with
      | Some e => ([Call c], Some e)
      | None => let r := play (S n) sc' in (Call c :: r.1, r.2)
      end
  | e :: sc' => let r := play n sc' in (e :: r.1, r.2)
  end.

Definition thrown {A : Type} (r : failure + A) : option failure :=
  match r with inl e => Some e | inr _ => None end.

(** [m] plays the script [sc]. *)
Definition follows (sc : list (host_event F)) (m : M F unit) : Prop :=
  ∀ st st' r, m st = (st', r) →
    log st' = log st ++ (play (calls st) sc).1 ∧
    thrown r = (play (calls st) sc).2 ∧
    (thrown r = None → calls st' = calls st + count_calls sc).

(** What [main] does after the [try] block (lines 150-157), the host
    image being [img]: after a [sycl::exception] the [catch] block
    writes its line; then [util::write_image] is called and [main]
    returns 0.  A failure the [catch] does not handle ends the process
    before any of this. *)
Definition ending (o : option failure) (img : list (float4 F))
  : list (host_event F) * exit_status :=
  match o with
  | None => ([WriteImage img outputImageFile], Returns 0)
  | Some (SyclException what) =>
      ([Stdout ("Exception caught: " +:+ what +:+ newline);
        WriteImage img outputImageFile], Returns 0)
  | Some Fatal => ([], Terminated)
  end.

(** No runtime call fails. *)
Definition never_throws : Prop := ∀ n c, rt_throws rt n c = None.

(** The host buffers have the sizes the program assumes of them: the
    input image is padded by the halo, the filter is square, the output
    buffer holds one pixel per work-item. *)
Definition host_buffers_ok (inputImage : image F) (flt : filter F)
    (outDev0 : list (float4 F)) : Prop :=
  let cfg := config_of inputImage flt in
  length (img_data inputImage) = range_size (inBufRange cfg) ∧
  length (flt_data flt) = range_size (filterRange cfg) ∧
  length outDev0 = range_size (outBufRange cfg).

(** [m] cannot fail in [sycl::free]. *)
Definition throws_not_free (m : M F unit) : Prop :=
  ∀ st st' e, m st = (st', inl e) → last (log st') ≠ Some (Call Free).

(** When [m] returns, the device output buffer holds [g] of what it
    held. *)
Definition returns_dev (g : list (float4 F) → list (float4 F)) (m : M F unit) : Prop :=
  ∀ st st' a, m st = (st', inr a) → outDev st' = g (outDev st).

(** The [try] block got past the copy back: it returned, or it failed
    in one of the final [sycl::free]s. *)
Definition past_copy_back (st : host_state F) (r : failure + unit) : Prop :=
  match r with
  | inr _ => True
  | inl _ => last (log st) = Some (Call Free)
  end.

(** When [m] gets past the copy back, the host image holds [f] of what
    the device output buffer held before [m]. *)
Definition image_after (f : list (float4 F) → list (float4 F)) (m : M F unit) : Prop :=
  ∀ st st' r, m st = (st', r) → past_copy_back st' r → outputImage st' = f (outDev st).

End Script.

(** A completed kernel leaves in the output buffer what the dispatch of
    the kernel lambda (lines 83-139) computes. *)
Definition runs_kernel {F : Type} `{FloatOps F} (rt : runtime F) : Prop :=
  ∀ cfg inp flt out, rt_kernel rt cfg inp flt out = default out (dispatch cfg inp flt out).

(** A runtime in which no call fails and the device runs the kernel. *)
Definition device_runtime {F : Type} `{FloatOps F} : runtime F :=
  {| rt_throws := λ _ _, None; rt_device_name := "device";
     rt_kernel := λ cfg inp flt out, default out (dispatch cfg inp flt out);
     rt_harness := plain_harness |}.

(** A runtime in which the [n]-th call fails in a way the [catch] of
    line 150 does not handle. *)
Definition crashing_at {F : Type} (n : nat) : runtime F :=
  {| rt_throws := λ k _, if decide (k = n) then Some Fatal else None;
     rt_device_name := "device";
     rt_kernel := λ _ _ _ out, out; rt_harness := plain_harness |}.

(** The 8x8 image of [Demo] with its 1x1 filter, as the host sees them. *)
Definition image8 : image Z :=
  {| img_width := 8; img_height := 8; img_channels := 4; img_data := Demo.input |}.
Definition output8 : image Z :=
  {| img_width := 8; img_height := 8; img_channels := 4; img_data := Demo.out0 |}.
Definition filter1 : filter Z := {| flt_width := 1; flt_data := Demo.flt |}.

End Script.

(** ** A complete execution with a halo *)

Module Demo3.

(** The 8x8 image with the 3x3 filter of [Demo]: a schedule that runs
    the work-items in ascending order, its trace and the state it ends
    in. *)
Definition forward : list choice :=
  greedy Demo.cfg3 Demo.input3 Demo.flt3 id 2000 (launch Demo.cfg3 Demo.out0).
Definition forward_run : list (nat * nat * event) * device Z :=
  default ([], launch Demo.cfg3 Demo.out0)
    (run_trace Demo.cfg3 Demo.input3 Demo.flt3 forward (launch Demo.cfg3 Demo.out0)).

(** The state after the first 600 decisions of that schedule: the
    barrier has opened, some work-items have finished, others have not. *)
Definition midway : device Z :=
  default (launch Demo.cfg3 Demo.out0)
    (run_schedule Demo.cfg3 Demo.input3 Demo.flt3 (take 600 forward)
       (launch Demo.cfg3 Demo.out0)).

End Demo3.

(** * Proofs *)

(** ** Index lists *)

Lemma ids_row (a m : nat) : (seq 0 m ≫= λ b, [(a, b)]) = pair a <$> seq 0 m.
Proof. induction (seq 0 m) as [|b l IH]; [done|]. by rewrite bind_cons, IH. Qed.

Lemma ids_S (n m : nat) : ids (S n) m = ids n m ++ (pair n <$> seq 0 m).
Proof.
  unfold ids. rewrite seq_S, bind_app. simpl. by rewrite app_nil_r, ids_row.
Qed.

Lemma length_ids (n m : nat) : length (ids n m) = n * m.
Proof.
  induction n as [|n IH]; [done|].
  rewrite ids_S, length_app, IH, length_fmap, length_seq. lia.
Qed.

Lemma lookup_ids (n m a b : nat) :
  a < n → b < m → ids n m !! (a * m + b) = Some (a, b).
Proof.
  induction n as [|n IH]; [lia|]. intros Ha Hb. rewrite ids_S.
  destruct (decide (a = n)) as [->|Hne].
  - rewrite lookup_app_r by (rewrite length_ids; lia).
    rewrite length_ids, list_lookup_fmap.
    replace (n * m + b - n * m) with b by lia.
    by rewrite lookup_seq_lt.
  - rewrite lookup_app_l by (rewrite length_ids; nia). apply IH; lia.
Qed.

Lemma elem_of_ids (n m : nat) (p : range2) : p ∈ ids n m ↔ p.1 < n ∧ p.2 < m.
Proof.
  unfold ids. rewrite list_elem_of_bind. split.
  - intros (a & Hp & Ha). apply list_elem_of_bind in Hp as (b & Hp & Hb).
    apply list_elem_of_singleton in Hp as ->. apply elem_of_seq in Ha, Hb. simpl. lia.
  - intros [Ha Hb]. exists p.1. split; [|apply elem_of_seq; lia].
    apply list_elem_of_bind. exists p.2. split; [|apply elem_of_seq; lia].
    destruct p. simpl. apply list_elem_of_singleton. done.
Qed.

Lemma ids_lookup_inv (n m k : nat) (p : range2) :
  ids n m !! k = Some p → p.1 < n ∧ p.2 < m ∧ k = p.1 * m + p.2.
Proof.
  intros Hk. assert (Hlen : k < n * m).
  { rewrite <- length_ids. by eapply lookup_lt_Some. }
  assert (Hm : 0 < m) by nia.
  assert (Hq : k / m < n) by (apply Nat.Div0.div_lt_upper_bound; lia).
  assert (Hr : k mod m < m) by (apply Nat.mod_upper_bound; lia).
  assert (Hk' : k = k / m * m + k mod m) by (pose proof (Nat.div_mod_eq k m); lia).
  pose proof (lookup_ids n m (k / m) (k mod m) Hq Hr) as Hl.
  rewrite <- Hk', Hk in Hl. injection Hl as ->. simpl. done.
Qed.

(** ** Steps of one work-item *)

Ltac step_cases Hstep :=
  unfold thread_step in Hstep;
  repeat match type of Hstep with
    | context [if ?b <? ?n then _ else _] => destruct (Nat.ltb_spec b n)
    | context [match ?x !! ?k with _ => _ end] => destruct (x !! k) eqn:?
    end;
  simplify_eq.

Section ThreadSteps.
Context {F : Type} `{FloatOps F}.
Variable cfg : config.
Variables inDev4 filterDev4 : list (float4 F).

Lemma pc_measure_step item st s out st' s' out' :
  thread_step cfg inDev4 filterDev4 item st s out = Stepped (st', s', out') →
  pc_measure cfg st' < pc_measure cfg st.
Proof.
  intros Hstep. unfold pc_measure.
  set (e0 := (scratchpadRange cfg).1) in *. set (e1 := (scratchpadRange cfg).2) in *.
  set (fw := filterWidth cfg) in *.
  destruct st as [i j| |r c sum|]; step_cases Hstep; cbn [localRange fst snd].
  - lia.
  - replace (e1 - j) with 0 by lia.
    assert (e0 - (i + 8) ≤ e0 - i - 1) by lia.
    assert (e0 - i = S (e0 - i - 1)) as -> by lia. nia.
  - lia.
  - lia.
  - replace (fw - c) with 0 by lia.
    assert (fw - r = S (fw - (r + 1))) as -> by lia. nia.
  - lia.
Qed.

Lemma window_lookup (fw r c : nat) :
  r < fw → c < fw → window fw !! (r * fw + c) = Some (r, c).
Proof. apply lookup_ids. Qed.

Lemma partial_sum_all (y x : nat) :
  partial_sum cfg inDev4 filterDev4 y x (filterWidth cfg * filterWidth cfg)
  = naive_pixel cfg inDev4 filterDev4 y x.
Proof.
  unfold partial_sum, naive_pixel. rewrite take_ge; [done|].
  unfold window. by rewrite length_ids.
Qed.

Lemma partial_sum_S (y x r c : nat) :
  r < filterWidth cfg → c < filterWidth cfg →
  partial_sum cfg inDev4 filterDev4 y x (S (r * filterWidth cfg + c))
  = float4_add (partial_sum cfg inDev4 filterDev4 y x (r * filterWidth cfg + c))
      (float4_mul (inDev4 !!! ((y + r) * (inBufRange cfg).2 + (x + c)))
                  (filterDev4 !!! (r * filterWidth cfg + c))).
Proof.
  intros Hr Hc. unfold partial_sum.
  rewrite (take_S_r _ _ _ (window_lookup _ _ _ Hr Hc)), foldl_app. done.
Qed.

Lemma tile_index_global (g l : range2) (r c : nat) :
  tile_index cfg g (range_add l (r, c))
  = ((globalId (nd_item_of g l)).1 + r) * (inBufRange cfg).2
    + ((globalId (nd_item_of g l)).2 + c).
Proof. unfold tile_index, nd_item_of, range_add, range_mul. simpl. lia. Qed.

Lemma thread_step_inv g l st s out st' s' out' :
  let item := nd_item_of g l in
  scratch_sound cfg inDev4 g s →
  thread_inv cfg inDev4 filterDev4 s out (item, st) →
  thread_step cfg inDev4 filterDev4 item st s out = Stepped (st', s', out') →
  thread_inv cfg inDev4 filterDev4 s' out' (item, st') ∧
  scratch_sound cfg inDev4 g s' ∧
  (∀ cell, is_Some (s !! cell) → is_Some (s' !! cell)) ∧
  (pre_barrier st → pre_barrier st' ∧ out' = out) ∧
  (post_barrier st → post_barrier st' ∧ s' = s) ∧
  (out' = out ∨
   out' = <[out_index cfg item :=
              naive_pixel cfg inDev4 filterDev4 (globalId item).1 (globalId item).2]> out).
Proof.
  intros item Hsound Hinv Hstep. subst item. unfold thread_inv in Hinv. cbn [fst snd] in Hinv.
  set (e0 := (scratchpadRange cfg).1) in *. set (e1 := (scratchpadRange cfg).2) in *.
  destruct st as [i j| |r c sum|]; step_cases Hstep;
    cbn [localRange fst snd localId groupId nd_item_of] in *.
  - (* scratchpad[i][j] = inDev4[...] *)
    destruct Hinv as ([a Ha] & [b Hb] & Hcells).
    split_and!; [| | |done|done|by left].
    + unfold thread_inv; cbn [fst snd localId nd_item_of localRange].
      split_and!; [by exists a|exists (S b); lia|].
      intros cell Hc Hlt. apply lookup_insert_is_Some.
      destruct (decide ((i, j) = cell)) as [|Hne]; [by left|right; split; [done|]].
      apply Hcells; [done|]. destruct Hc as ([a' Ha'] & [b' Hb'] & _ & _).
      cbn [fst snd localRange] in *.
      destruct cell as [ci cj]; cbn [fst snd] in *.
      assert (¬ (ci = i ∧ cj = j)) by (intros [-> ->]; done). lia.
    + intros cell v Hl. apply lookup_insert_Some in Hl as [[<- <-]|[_ Hl]]; [|by apply Hsound].
      split_and!; [done..|]. rewrite <- Heqo. f_equal.
    + intros cell Hs. apply lookup_insert_is_Some.
      destruct (decide ((i, j) = cell)); auto.
  - (* inner loop exit *)
    destruct Hinv as ([a Ha] & [b Hb] & Hcells).
    split_and!; [|done|done|done|done|by left].
    unfold thread_inv; cbn [fst snd localId nd_item_of localRange].
    split_and!; [exists (S a); lia|exists 0; lia|].
    intros cell Hc Hlt. apply Hcells; [done|].
    destruct Hc as ([a' Ha'] & [b' Hb'] & _ & Hc1). cbn [fst snd localRange] in *.
    fold e1 in Hc1. lia.
  - (* outer loop exit *)
    destruct Hinv as ([a Ha] & [b Hb] & Hcells).
    split_and!; [|done|done|done|done|by left].
    unfold thread_inv; cbn [fst snd].
    intros cell Hc. apply Hcells; [done|].
    destruct Hc as (_ & _ & Hc0 & _). fold e0 in Hc0. lia.
  - (* sum += scratchpad[localId + idx] * filterDev4[...] *)
    destruct Hinv as (Hr & Hc & Hrc & ->).
    split_and!; [|done|done|done|done|by left].
    unfold thread_inv; cbn [fst snd].
    split_and!; [lia..|].
    replace (r * filterWidth cfg + (c + 1)) with (S (r * filterWidth cfg + c)) by lia.
    rewrite partial_sum_S by done. f_equal. f_equal.
    + apply Hsound in Heqo as (_ & _ & Hin).
      rewrite tile_index_global in Hin.
      symmetry. by apply list_lookup_total_correct.
    + symmetry. by apply list_lookup_total_correct.
  - (* row of the filter done *)
    destruct Hinv as (Hr & Hc & Hrc & ->).
    split_and!; [|done|done|done|done|by left].
    unfold thread_inv; cbn [fst snd].
    split_and!; [lia..|]. f_equal. lia.
  - (* outDev4[...] = sum *)
    destruct Hinv as (Hr & Hc & Hrc & ->).
    assert (r = filterWidth cfg) as -> by lia. rewrite Hrc in * by done.
    rewrite Nat.add_0_r, partial_sum_all in *.
    split_and!; [|done|done|done|done|by right].
    unfold thread_inv; cbn [fst snd]. unfold out_index; cbn [globalId nd_item_of].
    by apply list_lookup_insert_eq.
Qed.

Lemma halo_covers_filter : filterWidth cfg ≤ halo cfg * 2 + 1.
Proof. unfold halo, half_width. pose proof (Nat.div_mod_eq (filterWidth cfg) 2).
  pose proof (Nat.mod_upper_bound (filterWidth cfg) 2). lia. Qed.

Lemma group_ok_bounds g :
  group_ok cfg g →
  g.1 * 8 + 8 ≤ inputImgHeight cfg ∧ g.2 * 8 + 8 ≤ inputImgWidth cfg.
Proof.
  unfold group_ok, globalRange, localRange. cbn [fst snd]. intros [H1 H2].
  pose proof (Nat.div_mod_eq (inputImgHeight cfg) 8).
  pose proof (Nat.div_mod_eq (inputImgWidth cfg) 8). lia.
Qed.

Lemma thread_step_no_fault g l st s out :
  buffers_ok cfg inDev4 filterDev4 →
  group_ok cfg g → l.1 < 8 → l.2 < 8 →
  length out = range_size (outBufRange cfg) →
  (post_barrier st → scratch_complete cfg s) →
  thread_inv cfg inDev4 filterDev4 s out (nd_item_of g l, st) →
  thread_step cfg inDev4 filterDev4 (nd_item_of g l) st s out ≠ Fault.
Proof.
  intros [Hin Hfilt] Hg Hl1 Hl2 Hout Hcomplete Hinv Hstep.
  apply group_ok_bounds in Hg as [Hg1 Hg2]. pose proof halo_covers_filter as Hh.
  unfold range_size, inBufRange, filterRange, outBufRange in *. cbn [fst snd] in *.
  destruct st as [i j| |r c sum|]; step_cases Hstep;
    cbn [localRange fst snd localId groupId globalId nd_item_of range_mul range_add
         scratchpadRange inBufRange] in *.
  - apply lookup_ge_None_1 in Heqo. nia.
  - apply lookup_ge_None_1 in Heqo0. cbn [filterRange snd] in Heqo0. nia.
  - destruct (Hcomplete I (l.1 + r, l.2 + c)) as [v Hv];
      cbn [fst snd scratchpadRange range_add localRange]; [lia..|].
    unfold range_add in Heqo. cbn [fst snd] in Heqo. congruence.
  - cbn [outBufRange snd] in *. nia.
Qed.

End ThreadSteps.

(** ** The invariant is preserved *)

Section DeviceInvariant.
Context {F : Type} `{FloatOps F}.
Variable cfg : config.
Variables inDev4 filterDev4 : list (float4 F).

Lemma out_step_length out out' :
  out_step cfg inDev4 filterDev4 out out' → length out' = length out.
Proof. intros [->|(g & l & _ & _ & _ & ->)]; [done|apply length_insert]. Qed.

Lemma out_index_inj g l g' l' :
  group_ok cfg g → l.2 < 8 → group_ok cfg g' → l'.2 < 8 →
  out_index cfg (nd_item_of g l) = out_index cfg (nd_item_of g' l') →
  globalId (nd_item_of g l) = globalId (nd_item_of g' l').
Proof.
  intros Hg Hl Hg' Hl' Hidx.
  apply (group_ok_bounds cfg) in Hg as [_ Hg], Hg' as [_ Hg'].
  unfold out_index, nd_item_of, range_add, range_mul, outBufRange in *.
  cbn [globalId fst snd localRange] in *.
  assert (g.1 * 8 + l.1 = g'.1 * 8 + l'.1) by nia.
  f_equal; nia.
Qed.

Lemma thread_inv_frame g l st s out s' out' :
  group_ok cfg g → l.2 < 8 →
  (∀ cell, is_Some (s !! cell) → is_Some (s' !! cell)) →
  out_step cfg inDev4 filterDev4 out out' →
  thread_inv cfg inDev4 filterDev4 s out (nd_item_of g l, st) →
  thread_inv cfg inDev4 filterDev4 s' out' (nd_item_of g l, st).
Proof.
  intros Hg Hl Hmono Hout. unfold thread_inv. cbn [fst snd].
  destruct st as [i j| |r c sum|]; [| |done|].
  { intros (Ha & Hb & Hcells). split_and!; [done..|]. intros cell Hc Hlt. auto. }
  { intros Hcells cell Hc. auto. }
  intros Hdone. destruct Hout as [->|(g' & l' & Hg' & _ & Hl' & ->)]; [done|].
  destruct (decide (out_index cfg (nd_item_of g' l') = out_index cfg (nd_item_of g l)))
    as [Heq|Hne].
  - rewrite Heq, (out_index_inj _ _ _ _ Hg' Hl' Hg Hl Heq).
    apply list_lookup_insert_eq. by eapply lookup_lt_Some.
  - by rewrite list_lookup_insert_ne.
Qed.

Lemma group_item_shape out g grp t :
  group_inv cfg inDev4 filterDev4 out g grp → t ∈ wg_items grp →
  ∃ l, l.1 < 8 ∧ l.2 < 8 ∧ t.1 = nd_item_of g l.
Proof.
  intros (_ & Hitems & _) Ht.
  apply (list_elem_of_fmap_2 fst) in Ht. rewrite Hitems in Ht.
  apply list_elem_of_fmap in Ht as (l & -> & Hl).
  apply elem_of_ids in Hl as [Hl1 Hl2]. exists l. by split_and!.
Qed.

Lemma group_inv_frame out out' g grp :
  out_step cfg inDev4 filterDev4 out out' →
  group_inv cfg inDev4 filterDev4 out g grp → group_inv cfg inDev4 filterDev4 out' g grp.
Proof.
  intros Hout Hinv. pose proof Hinv as (Hg & Hitems & Hsound & Hphase & Hthreads).
  split_and!; [done..|].
  apply list.Forall_forall. intros [item st] Ht.
  destruct (group_item_shape _ _ _ _ Hinv Ht) as (l & _ & Hl & Hitem).
  cbn [fst] in Hitem. subst item.
  eapply thread_inv_frame; [done..|].
  by eapply list.Forall_forall in Hthreads.
Qed.

Lemma partial_sum_0 y x : partial_sum cfg inDev4 filterDev4 y x 0 = float4_zero.
Proof. done. Qed.

Lemma exec_choice_inv ch d d' :
  dev_inv cfg inDev4 filterDev4 d →
  exec_choice cfg inDev4 filterDev4 ch d = Some d' →
  dev_inv cfg inDev4 filterDev4 d'.
Proof.
  intros [Hgroups Hlen] Hexec. destruct ch as [gi ti|gi]; cbn [exec_choice] in Hexec.
  - (* a work-item takes a step *)
    destruct (dev_groups d !! gi) as [grp|] eqn:Hgrp; [|done]. cbn in Hexec.
    destruct (wg_items grp !! ti) as [[item st]|] eqn:Hit; [|done]. cbn in Hexec.
    destruct (thread_step _ _ _ _ _ _ _) as [[[st' s'] out']| |] eqn:Hstep; [|done..].
    injection Hexec as <-.
    destruct (Forall2_lookup_r _ _ _ _ _ Hgroups Hgrp) as (g & Hg & Hinv).
    pose proof Hinv as (Hgok & Hitems & Hsound & Hphase & Hthreads).
    destruct (group_item_shape _ _ _ (item, st) Hinv) as (l & Hl1 & Hl2 & Hitem);
      [by eapply list_elem_of_lookup_2|]. cbn [fst] in Hitem. subst item.
    pose proof (Forall_lookup_1 _ _ _ _ Hthreads Hit) as Ht.
    destruct (thread_step_inv cfg inDev4 filterDev4 g l st _ _ _ _ _ Hsound Ht Hstep)
      as (Ht' & Hsound' & Hmono & Hpre & Hpost & Hout).
    assert (Hos : out_step cfg inDev4 filterDev4 (dev_out d) out').
    { destruct Hout as [->| ->]; [by left|right]. by exists g, l. }
    split; cbn [dev_groups dev_out]; [|by rewrite (out_step_length _ _ Hos)].
    rewrite <- (list_insert_id _ _ _ Hg). apply Forall2_insert.
    { eapply list.Forall2_impl; [done|]. intros ???. by eapply group_inv_frame. }
    split_and!; cbn [wg_items wg_scratchpad]; [done| |done| |].
    + rewrite list_fmap_insert, <- Hitems. cbn [fst]. apply list_insert_id.
      by rewrite list_lookup_fmap, Hit.
    + destruct Hphase as [Hall|[Hall Hcomp]].
      * left. apply Forall_insert; [done|].
        apply (Forall_lookup_1 _ _ _ _ Hall) in Hit. by apply Hpre.
      * right. apply (Forall_lookup_1 _ _ _ _ Hall) in Hit.
        destruct (Hpost Hit) as [? ->]. split; [|done]. by apply Forall_insert.
    + apply Forall_insert; [|done].
      apply list.Forall_forall. intros [item st0] Hin.
      destruct (group_item_shape _ _ _ _ Hinv Hin) as (l0 & _ & Hl0 & Hitem).
      cbn [fst] in Hitem. subst item.
      eapply thread_inv_frame; [done..|]. by eapply list.Forall_forall in Hthreads.
  - (* the barrier of a group opens *)
    destruct (dev_groups d !! gi) as [grp|] eqn:Hgrp; [|done]. cbn in Hexec.
    destruct (wg_items grp) as [|t0 ts] eqn:Hits; [done|]. rewrite <- Hits in *.
    destruct (forallb _ _) eqn:Hall; [|done]. injection Hexec as <-.
    destruct (Forall2_lookup_r _ _ _ _ _ Hgroups Hgrp) as (g & Hg & Hinv).
    pose proof Hinv as (Hgok & Hitems & Hsound & Hphase & Hthreads).
    split; cbn [dev_groups dev_out]; [|done].
    rewrite <- (list_insert_id _ _ _ Hg). apply Forall2_insert; [done|].
    apply Is_true_true_2, forallb_True in Hall.
    split_and!; cbn [wg_items wg_scratchpad]; [done| |done| |].
    + rewrite <- Hitems, <- list_fmap_compose. by apply list_fmap_ext.
    + right. split.
      { apply Forall_fmap, Forall_true. done. }
      intros cell Hc0 Hc1.
      set (l := (cell.1 mod 8, cell.2 mod 8)).
      assert (Hl : l ∈ local_ids).
      { apply elem_of_ids. subst l. cbn [fst snd localRange].
        split; apply Nat.mod_upper_bound; lia. }
      apply (list_elem_of_fmap_2 (nd_item_of g)) in Hl. rewrite <- Hitems in Hl.
      apply list_elem_of_fmap in Hl as ([item st] & Hitem & Hin).
      cbn [fst] in Hitem. subst item.
      pose proof (proj1 (list.Forall_forall _ _) Hall _ Hin) as Hbar.
      pose proof (proj1 (list.Forall_forall _ _) Hthreads _ Hin) as Ht.
      cbn [snd] in Hbar. destruct st; try done.
      apply Ht. unfold loader_cell. subst l. cbn [fst snd localRange localId nd_item_of].
      split_and!; [exists (cell.1 / 8)|exists (cell.2 / 8)|done..].
      * pose proof (Nat.div_mod_eq cell.1 8). lia.
      * pose proof (Nat.div_mod_eq cell.2 8). lia.
    + apply Forall_fmap, Forall_true. intros [item st].
      unfold thread_inv, release. cbn [fst snd compose].
      split_and!; [lia..|done].
Qed.

End DeviceInvariant.

(** ** Launch, termination measure and progress *)

Lemma sum_list_insert_lt (l : list nat) (i x y : nat) :
  l !! i = Some x → y < x → sum_list (<[i:=y]> l) < sum_list l.
Proof.
  revert i. induction l as [|z l IH]; intros [|i] Hl Hlt; simplify_eq/=; [lia|].
  specialize (IH _ Hl Hlt). lia.
Qed.

Lemma sum_list_fmap_lt {A} (f g : A → nat) (l : list A) :
  l ≠ [] → Forall (λ x, g x < f x) l → sum_list (g <$> l) < sum_list (f <$> l).
Proof.
  intros Hne Hall. induction Hall as [|x l Hx Hall IH]; [done|].
  destruct l as [|x' l']; cbn in *; [lia|]. specialize (IH ltac:(done)). lia.
Qed.

Lemma forallb_false_lookup {A} (f : A → bool) (l : list A) :
  forallb f l = false → ∃ i x, l !! i = Some x ∧ f x = false.
Proof.
  induction l as [|x l IH]; [done|]. cbn. destruct (f x) eqn:Hx.
  - intros (i & y & ? & ?)%IH. by exists (S i), y.
  - intros _. by exists 0, x.
Qed.

Section Progress.
Context {F : Type} `{FloatOps F}.
Variable cfg : config.
Variables inDev4 filterDev4 : list (float4 F).

Lemma launch_inv out0 :
  length out0 = range_size (outBufRange cfg) →
  dev_inv cfg inDev4 filterDev4 (launch cfg out0).
Proof.
  intros Hlen. split; [|done]. cbn [launch dev_groups dev_out].
  apply Forall2_fmap_r, Forall_Forall2_diag, list.Forall_forall.
  intros g Hg. apply elem_of_ids in Hg.
  split_and!; cbn [init_group wg_items wg_scratchpad].
  - done.
  - by rewrite <- list_fmap_compose.
  - intros cell v Hs. by rewrite lookup_empty in Hs.
  - left. apply Forall_fmap, Forall_true. done.
  - apply Forall_fmap, Forall_true. intros l. unfold thread_inv. cbn [compose fst snd localId nd_item_of].
    split_and!; [exists 0; lia..|].
    intros cell ([a Ha] & [b Hb] & _) Hlt. cbn [localRange fst snd] in *. lia.
Qed.

Lemma exec_choice_measure ch d d' :
  exec_choice cfg inDev4 filterDev4 ch d = Some d' →
  dev_measure cfg d' < dev_measure cfg d.
Proof.
  intros Hexec. destruct ch as [gi ti|gi]; cbn [exec_choice] in Hexec.
  - destruct (dev_groups d !! gi) as [grp|] eqn:Hgrp; [|done]. cbn in Hexec.
    destruct (wg_items grp !! ti) as [[item st]|] eqn:Hit; [|done]. cbn in Hexec.
    destruct (thread_step _ _ _ _ _ _ _) as [[[st' s'] out']| |] eqn:Hstep; [|done..].
    injection Hexec as <-. unfold dev_measure. cbn [dev_groups].
    rewrite list_fmap_insert. eapply sum_list_insert_lt.
    { by rewrite list_lookup_fmap, Hgrp. }
    unfold group_measure. cbn [wg_items]. rewrite list_fmap_insert.
    eapply sum_list_insert_lt.
    { by rewrite list_lookup_fmap, Hit. }
    cbn [snd]. by eapply pc_measure_step.
  - destruct (dev_groups d !! gi) as [grp|] eqn:Hgrp; [|done]. cbn in Hexec.
    destruct (wg_items grp) as [|t0 ts] eqn:Hits; [done|]. rewrite <- Hits in *.
    destruct (forallb _ _) eqn:Hall; [|done]. injection Hexec as <-.
    unfold dev_measure. cbn [dev_groups].
    rewrite list_fmap_insert. eapply sum_list_insert_lt.
    { by rewrite list_lookup_fmap, Hgrp. }
    unfold group_measure. cbn [wg_items]. rewrite <- list_fmap_compose.
    apply sum_list_fmap_lt; [by rewrite Hits|].
    apply Is_true_true_2, forallb_True in Hall.
    eapply list.Forall_impl; [exact Hall|]. intros [item st] Hst. cbn in Hst.
    destruct st; try done. unfold pc_measure, release. cbn [compose snd]. lia.
Qed.

Lemma dev_progress d :
  buffers_ok cfg inDev4 filterDev4 →
  dev_inv cfg inDev4 filterDev4 d →
  dev_finished d = false →
  ∃ ch d', exec_choice cfg inDev4 filterDev4 ch d = Some d'.
Proof.
  intros Hbuf [Hgroups Hlen] Hfin.
  apply forallb_false_lookup in Hfin as (gi & grp & Hgrp & Hfin).
  apply forallb_false_lookup in Hfin as (ti & [item st] & Hit & Hnd). cbn [snd] in Hnd.
  destruct (Forall2_lookup_r _ _ _ _ _ Hgroups Hgrp) as (g & Hg & Hinv).
  pose proof Hinv as (Hgok & Hitems & Hsound & Hphase & Hthreads).
  assert (Hrun : ∀ ti item st, wg_items grp !! ti = Some (item, st) →
            at_barrier st = false → is_done st = false →
            ∃ ch d', exec_choice cfg inDev4 filterDev4 ch d = Some d').
  { clear ti item st Hit Hnd. intros ti item st Hit Hnb Hnd.
    destruct (group_item_shape _ _ _ _ _ _ (item, st) Hinv) as (l & Hl1 & Hl2 & Hitem);
      [by eapply list_elem_of_lookup_2|]. cbn [fst] in Hitem. subst item.
    pose proof (Forall_lookup_1 _ _ _ _ Hthreads Hit) as Ht.
    assert (Hcomp : post_barrier st → scratch_complete cfg (wg_scratchpad grp)).
    { intros Hpost. destruct Hphase as [Hall|[_ ?]]; [|done].
      apply (Forall_lookup_1 _ _ _ _ Hall) in Hit. by destruct st. }
    pose proof (thread_step_no_fault cfg inDev4 filterDev4 g l st _ _
                  Hbuf Hgok Hl1 Hl2 Hlen Hcomp Ht) as Hnf.
    exists (RunItem gi ti). cbn [exec_choice]. rewrite Hgrp. cbn. rewrite Hit. cbn.
    destruct (thread_step _ _ _ _ _ _ _) as [[[st' s'] out']| |] eqn:Hstep; [by eauto| |done].
    destruct st; try done; step_cases Hstep. }
  destruct (at_barrier st) eqn:Hbar; [|by eapply Hrun].
  destruct (forallb (λ t, at_barrier t.2) (wg_items grp)) eqn:Hall.
  - exists (ReleaseBarrier gi). cbn [exec_choice]. rewrite Hgrp. cbn.
    destruct (wg_items grp) as [|t0 ts] eqn:Hits; [done|]. rewrite Hall. by eauto.
  - apply forallb_false_lookup in Hall as (ti' & [item' st'] & Hit' & Hnb). cbn [snd] in Hnb.
    eapply Hrun; [done..|].
    destruct Hphase as [Hall|[Hall _]].
    + apply (Forall_lookup_1 _ _ _ _ Hall) in Hit'. by destruct st'.
    + apply (Forall_lookup_1 _ _ _ _ Hall) in Hit. by destruct st.
Qed.

End Progress.

(** ** Complete executions compute the reference *)

Section Completion.
Context {F : Type} `{FloatOps F}.
Variable cfg : config.
Variables inDev4 filterDev4 : list (float4 F).

Lemma choices_complete ch d d' :
  exec_choice cfg inDev4 filterDev4 ch d = Some d' → ch ∈ choices d.
Proof.
  intros Hexec. unfold choices. apply list_elem_of_join.
  destruct ch as [gi ti|gi]; cbn [exec_choice] in Hexec;
    destruct (dev_groups d !! gi) as [grp|] eqn:Hgrp; try done; cbn in Hexec.
  - destruct (wg_items grp !! ti) as [it|] eqn:Hit; [|done].
    eexists. split; [|by eapply (elem_of_lookup_imap_2 _ _ _ gi)].
    apply list_elem_of_further, list_elem_of_fmap. exists ti. split; [done|].
    apply elem_of_seq. apply lookup_lt_Some in Hit. lia.
  - eexists. split; [|by eapply (elem_of_lookup_imap_2 _ _ _ gi)].
    apply list_elem_of_here.
Qed.

Lemma first_step_Some chs d d' :
  first_step cfg inDev4 filterDev4 chs d = Some d' →
  ∃ ch, exec_choice cfg inDev4 filterDev4 ch d = Some d'.
Proof.
  induction chs as [|ch chs IH]; [done|]. cbn.
  destruct (exec_choice _ _ _ ch d) as [d1|] eqn:Hch; [|done].
  intros [= <-]. by exists ch.
Qed.

Lemma first_step_None chs d ch :
  first_step cfg inDev4 filterDev4 chs d = None → ch ∈ chs →
  exec_choice cfg inDev4 filterDev4 ch d = None.
Proof.
  induction chs as [|ch' chs IH]; [by intros _ ?%elem_of_nil|]. cbn.
  destruct (exec_choice _ _ _ ch' d) as [d1|] eqn:Hch; [done|].
  intros Hn [->|Hin]%elem_of_cons; auto.
Qed.

Lemma dev_steps_inv d d' :
  dev_inv cfg inDev4 filterDev4 d →
  rtc (dev_step cfg inDev4 filterDev4) d d' →
  dev_inv cfg inDev4 filterDev4 d'.
Proof.
  intros Hinv Hsteps. induction Hsteps as [|d1 d2 d3 [ch Hch] _ IH]; [done|].
  apply IH. by eapply exec_choice_inv.
Qed.

Lemma run_finishes fuel d :
  buffers_ok cfg inDev4 filterDev4 →
  dev_inv cfg inDev4 filterDev4 d →
  dev_measure cfg d ≤ fuel →
  rtc (dev_step cfg inDev4 filterDev4) d (run cfg inDev4 filterDev4 fuel d) ∧
  dev_finished (run cfg inDev4 filterDev4 fuel d) = true.
Proof.
  intros Hbuf. revert d. induction fuel as [|fuel IH]; intros d Hinv Hm; cbn [run].
  - split; [done|]. destruct (dev_finished d) eqn:Hfin; [done|].
    destruct (dev_progress _ _ _ _ Hbuf Hinv Hfin) as (ch & d' & Hch).
    apply exec_choice_measure in Hch. lia.
  - destruct (first_step _ _ _ _ d) as [d'|] eqn:Hfs.
    + destruct (first_step_Some _ _ _ Hfs) as [ch Hch].
      destruct (IH d') as [Hsteps Hfin].
      { by eapply exec_choice_inv. }
      { apply exec_choice_measure in Hch. lia. }
      split; [|done]. eapply rtc_l; [by exists ch|done].
    + split; [done|]. destruct (dev_finished d) eqn:Hfin; [done|].
      destruct (dev_progress _ _ _ _ Hbuf Hinv Hfin) as (ch & d' & Hch).
      pose proof (choices_complete _ _ _ Hch) as Hin.
      by rewrite (first_step_None _ _ _ Hfs Hin) in Hch.
Qed.

Lemma divisible_group (n : nat) (y : nat) :
  n mod 8 = 0 → y < n → y / 8 < n / 8.
Proof.
  intros Hn Hy. pose proof (Nat.div_mod_eq n 8). pose proof (Nat.div_mod_eq y 8).
  pose proof (Nat.mod_upper_bound y 8). lia.
Qed.

Lemma finished_pixel d y x :
  divisible cfg →
  dev_inv cfg inDev4 filterDev4 d →
  dev_finished d = true →
  y < inputImgHeight cfg → x < inputImgWidth cfg →
  dev_out d !! (y * inputImgWidth cfg + x) = Some (naive_pixel cfg inDev4 filterDev4 y x).
Proof.
  intros [Hd1 Hd2] [Hgroups Hlen] Hfin Hy Hx.
  cbn [globalRange localRange fst snd] in Hd1, Hd2.
  set (l := (y mod 8, x mod 8)).
  assert (Hg1 : y / 8 < (globalRange cfg).1 / localRange.1)
    by (by apply divisible_group).
  assert (Hg2 : x / 8 < (globalRange cfg).2 / localRange.2)
    by (by apply divisible_group).
  pose proof (lookup_ids _ _ _ _ Hg1 Hg2) as Hgi.
  set (g := (y / 8, x / 8)) in *.
  destruct (Forall2_lookup_l _ _ _ _ _ Hgroups Hgi) as (grp & Hgrp & Hinv).
  pose proof Hinv as (Hgok & Hitems & Hsound & Hphase & Hthreads).
  assert (Hl : l ∈ local_ids).
  { apply elem_of_ids. subst l. cbn [fst snd localRange].
    split; apply Nat.mod_upper_bound; lia. }
  apply (list_elem_of_fmap_2 (nd_item_of g)) in Hl. rewrite <- Hitems in Hl.
  apply list_elem_of_fmap in Hl as ([item st] & Hitem & Hin).
  cbn [fst] in Hitem. subst item.
  pose proof (proj1 (list.Forall_forall _ _) Hthreads _ Hin) as Ht.
  unfold dev_finished in Hfin.
  apply Is_true_true_2, forallb_True in Hfin.
  apply (Forall_lookup_1 _ _ _ _ Hfin) in Hgrp.
  apply forallb_True in Hgrp.
  pose proof (proj1 (list.Forall_forall _ _) Hgrp _ Hin) as Hdone. cbn [snd] in Hdone.
  destruct st; try done.
  unfold thread_inv, out_index in Ht. subst g l.
  cbn [fst snd globalId nd_item_of range_add range_mul localRange outBufRange] in Ht.
  pose proof (Nat.div_mod_eq y 8). pose proof (Nat.div_mod_eq x 8).
  replace (y `div` 8 * 8 + y `mod` 8) with y in Ht by lia.
  replace (x `div` 8 * 8 + x `mod` 8) with x in Ht by lia.
  done.
Qed.

Lemma finished_output d :
  divisible cfg →
  dev_inv cfg inDev4 filterDev4 d →
  dev_finished d = true →
  dev_out d = naive_conv cfg inDev4 filterDev4.
Proof.
  intros Hdiv Hinv Hfin. pose proof Hinv as [_ Hlen].
  apply list_eq. intros k. unfold naive_conv. rewrite list_lookup_fmap.
  destruct (decide (k < inputImgHeight cfg * inputImgWidth cfg)) as [Hk|Hk].
  - assert (Hw : 0 < inputImgWidth cfg) by nia.
    assert (Hy : k / inputImgWidth cfg < inputImgHeight cfg)
      by (apply Nat.Div0.div_lt_upper_bound; lia).
    assert (Hx : k mod inputImgWidth cfg < inputImgWidth cfg)
      by (apply Nat.mod_upper_bound; lia).
    assert (Hkk : k = k / inputImgWidth cfg * inputImgWidth cfg + k mod inputImgWidth cfg)
      by (pose proof (Nat.div_mod_eq k (inputImgWidth cfg)); lia).
    rewrite Hkk at 1 2. rewrite (lookup_ids _ _ _ _ Hy Hx). cbn [fmap option_fmap option_map fst snd].
    by apply finished_pixel.
  - rewrite !lookup_ge_None_2; [done|rewrite length_ids; lia|].
    unfold range_size, outBufRange in Hlen. cbn [fst snd] in Hlen. lia.
Qed.

Lemma dispatch_naive out0 :
  buffers_ok cfg inDev4 filterDev4 → divisible cfg →
  length out0 = range_size (outBufRange cfg) →
  dispatch cfg inDev4 filterDev4 out0 = Some (naive_conv cfg inDev4 filterDev4).
Proof.
  intros Hbuf Hdiv Hlen. unfold dispatch.
  pose proof (launch_inv cfg inDev4 filterDev4 out0 Hlen) as Hinv.
  destruct (run_finishes _ _ Hbuf Hinv (le_n _)) as [Hsteps Hfin].
  rewrite Hfin. f_equal. apply finished_output; [done| |done].
  by eapply dev_steps_inv.
Qed.

End Completion.

(** ** One work-item run alone *)

Ltac step_inv Hstep :=
  unfold thread_step in Hstep;
  repeat match type of Hstep with
    | context [if ?b <? ?n then _ else _] => destruct (Nat.ltb_spec b n)
    | context [match ?x !! ?k with _ => _ end] => destruct (x !! k) eqn:?
    end;
  try discriminate Hstep; try (injection Hstep as <- <- <-).

Section SingleItem.
Context {F : Type} `{FloatOps F}.
Variable cfg : config.
Variables inDev4 filterDev4 : list (float4 F).

Lemma thread_run_blocked item fuel st s out :
  thread_step cfg inDev4 filterDev4 item st s out = Blocked →
  thread_run cfg inDev4 filterDev4 item fuel st s out = Stepped (st, s, out).
Proof. intros Hb. destruct fuel; [done|]. cbn [thread_run]. by rewrite Hb. Qed.

Lemma tile_index_in_bounds g cell :
  buffers_ok cfg inDev4 filterDev4 → group_ok cfg g →
  cell.1 < (scratchpadRange cfg).1 → cell.2 < (scratchpadRange cfg).2 →
  is_Some (inDev4 !! tile_index cfg g cell).
Proof.
  intros [Hin _] Hg H1 H2. apply group_ok_bounds in Hg as [Hg1 Hg2].
  apply lookup_lt_is_Some. rewrite Hin.
  unfold tile_index, range_size, inBufRange, scratchpadRange, range_mul, range_add in *.
  cbn [fst snd localRange] in *. nia.
Qed.

Lemma loader_run g l fuel i j s out :
  buffers_ok cfg inDev4 filterDev4 → group_ok cfg g →
  (∃ a, i = l.1 + 8 * a) → (∃ b, j = l.2 + 8 * b) →
  pc_measure cfg (Loading i j : pc F) ≤ fuel →
  ∃ s', thread_run cfg inDev4 filterDev4 (nd_item_of g l) fuel (Loading i j) s out
        = Stepped (AtBarrier, s', out) ∧
    ∀ cell,
      (loader_cell cfg l cell ∧ at_or_after i j cell →
         s' !! cell = inDev4 !! tile_index cfg g cell) ∧
      (¬ (loader_cell cfg l cell ∧ at_or_after i j cell) → s' !! cell = s !! cell).
Proof.
  intros Hbuf Hg. revert i j s.
  induction fuel as [|fuel IH]; intros i j s Hi Hj Hm.
  { unfold pc_measure in Hm. cbv zeta in Hm. nia. }
  cbn [thread_run].
  destruct (thread_step _ _ _ _ _ _ _) as [[[st1 s1] out1]| |] eqn:Hstep.
  - pose proof (pc_measure_step _ _ _ _ _ _ _ _ _ _ Hstep) as Hlt.
    step_inv Hstep; cbn [localRange fst snd localId groupId nd_item_of] in *;
      destruct Hi as [a Ha], Hj as [b Hb].
    + (* a cell is loaded *)
      destruct (IH i (j + 8) (<[(i, j):=f]> s)) as (s' & Hrun & Hcells);
        [by exists a|exists (S b); lia|lia|].
      exists s'. split; [done|]. intros [ci cj]. destruct (Hcells (ci, cj)) as [Hin Hnot].
      unfold at_or_after, loader_cell in *. cbn [fst snd localRange] in *. split.
      * intros (Hl & Haft). destruct (decide (ci = i ∧ cj = j)) as [[-> ->]|Hne].
        -- rewrite Hnot by lia. by rewrite lookup_insert_eq.
        -- apply Hin. split; [done|]. destruct Hl as ([a' Ha'] & [b' Hb'] & _). lia.
      * intros Hn. rewrite Hnot by (intros []; apply Hn; split; [done|lia]).
        apply lookup_insert_ne. intros [= -> ->]. apply Hn.
        split; [|lia]. split_and!; [by exists a|by exists b|done..].
    + (* the inner loop ends *)
      destruct (IH (i + 8) l.2 s) as (s' & Hrun & Hcells);
        [exists (S a); lia|exists 0; lia|lia|].
      exists s'. split; [done|]. intros [ci cj]. destruct (Hcells (ci, cj)) as [Hin Hnot].
      unfold at_or_after, loader_cell in *. cbn [fst snd localRange] in *. split.
      * intros (Hl & Haft). apply Hin. split; [done|].
        destruct Hl as ([a' Ha'] & [b' Hb'] & _ & ?). lia.
      * intros Hn. apply Hnot. intros [Hl ?]. apply Hn. split; [done|]. lia.
    + (* the outer loop ends *)
      exists s. split; [by apply thread_run_blocked|]. intros [ci cj].
      unfold at_or_after, loader_cell. cbn [fst snd]. split; [|done].
      intros ((_ & _ & ? & _) & ?). lia.
  - step_inv Hstep.
  - step_inv Hstep.
    destruct (tile_index_in_bounds g (i, j) Hbuf Hg) as [v Hv]; [done..|].
    unfold tile_index in Hv. cbn [fst snd groupId nd_item_of] in *. congruence.
Qed.

Lemma loader_cover (cell : nat * nat) :
  cell.1 < (scratchpadRange cfg).1 → cell.2 < (scratchpadRange cfg).2 →
  ∃ l, l ∈ local_ids ∧ loader_cell cfg l cell.
Proof.
  intros H1 H2. exists (cell.1 mod 8, cell.2 mod 8). split.
  - apply elem_of_ids. cbn [fst snd localRange]. split; apply Nat.mod_upper_bound; lia.
  - unfold loader_cell. cbn [fst snd localRange].
    split_and!; [exists (cell.1 / 8)|exists (cell.2 / 8)|done..].
    + pose proof (Nat.div_mod_eq cell.1 8). lia.
    + pose proof (Nat.div_mod_eq cell.2 8). lia.
Qed.

Lemma evaluator_run item fuel r c sum s out :
  length filterDev4 = range_size (filterRange cfg) →
  (∀ r c, r < filterWidth cfg → c < filterWidth cfg →
     is_Some (s !! range_add (localId item) (r, c))) →
  out_index cfg item < length out →
  r ≤ filterWidth cfg → c ≤ filterWidth cfg → (r = filterWidth cfg → c = 0) →
  sum = evaluator_partial cfg filterDev4 s (localId item) (r * filterWidth cfg + c) →
  pc_measure cfg (Summing r c sum) ≤ fuel →
  thread_run cfg inDev4 filterDev4 item fuel (Summing r c sum) s out
  = Stepped (Done, s,
             <[out_index cfg item := evaluator_sum cfg s filterDev4 (localId item)]> out).
Proof.
  intros Hfilt Hs Hout. revert r c sum.
  induction fuel as [|fuel IH]; intros r c sum Hr Hc Hrc -> Hm.
  { unfold pc_measure in Hm. cbv zeta in Hm. nia. }
  cbn [thread_run].
  destruct (thread_step _ _ _ _ _ _ _) as [[[st1 s1] out1]| |] eqn:Hstep.
  - pose proof (pc_measure_step _ _ _ _ _ _ _ _ _ _ Hstep) as Hlt.
    step_inv Hstep; cbn [fst snd filterRange] in *.
    + apply IH; [lia..| |lia].
      replace (r * filterWidth cfg + (c + 1)) with (S (r * filterWidth cfg + c)) by lia.
      unfold evaluator_partial.
      rewrite (take_S_r _ _ _ (window_lookup _ _ _ H0 H1)), foldl_app. cbn [foldl fst snd].
      f_equal. f_equal; symmetry; by apply lookup_total_correct || apply list_lookup_total_correct.
    + apply IH; [lia..| |lia]. f_equal. lia.
    + rewrite thread_run_blocked by done. do 3 f_equal.
      assert (r = filterWidth cfg) as -> by lia. rewrite Hrc by done.
      unfold evaluator_partial, evaluator_sum. rewrite take_ge; [done|].
      unfold window. rewrite length_ids. lia.
  - step_inv Hstep.
  - step_inv Hstep; cbn [fst snd filterRange] in *.
    + apply lookup_ge_None_1 in Heqo0. unfold range_size, filterRange in Hfilt.
      cbn [fst snd] in Hfilt. nia.
    + destruct (Hs r c) as [v Hv]; [done..|]. congruence.
    + unfold out_index, outBufRange in *. cbn [fst snd] in *. lia.
Qed.

End SingleItem.

(** ** Output ownership *)

Lemma NoDup_ids (n m : nat) : NoDup (ids n m).
Proof.
  unfold ids. apply NoDup_bind; [| |apply NoDup_seq].
  - intros a1 a2 p _ _ H1 H2.
    apply list_elem_of_bind in H1 as (b1 & ->%list_elem_of_singleton & _).
    apply list_elem_of_bind in H2 as (b2 & [= -> _]%list_elem_of_singleton & _). done.
  - intros a _. apply NoDup_bind; [| |apply NoDup_seq].
    + intros b1 b2 p _ _ ->%list_elem_of_singleton [= ->]%list_elem_of_singleton. done.
    + intros b _. apply NoDup_singleton.
Qed.

Lemma elem_of_dispatch_items cfg item :
  item ∈ dispatch_items cfg ↔
  ∃ g l, group_ok cfg g ∧ l.1 < 8 ∧ l.2 < 8 ∧ item = nd_item_of g l.
Proof.
  unfold dispatch_items. rewrite list_elem_of_bind. split.
  - intros (g & Hin & Hg). apply list_elem_of_bind in Hin as (l & ->%list_elem_of_singleton & Hl).
    apply elem_of_ids in Hg, Hl. destruct Hl as [Hl1 Hl2]. exists g, l. by split_and!.
  - intros (g & l & Hg & Hl1 & Hl2 & ->). exists g. split; [|by apply elem_of_ids].
    apply list_elem_of_bind. exists l. split; [by apply list_elem_of_singleton|].
    by apply elem_of_ids.
Qed.

Lemma nd_item_of_inj g l g' l' : nd_item_of g l = nd_item_of g' l' → g = g' ∧ l = l'.
Proof. intros Heq. split; [exact (f_equal groupId Heq)|exact (f_equal localId Heq)]. Qed.

Lemma NoDup_dispatch_items cfg : NoDup (dispatch_items cfg).
Proof.
  unfold dispatch_items. apply NoDup_bind; [| |apply NoDup_ids].
  - intros g1 g2 item _ _ H1 H2.
    apply list_elem_of_bind in H1 as (l1 & ->%list_elem_of_singleton & _).
    apply list_elem_of_bind in H2 as (l2 & Heq%list_elem_of_singleton & _).
    by apply nd_item_of_inj in Heq as [-> _].
  - intros g _. apply NoDup_bind; [| |apply NoDup_ids].
    + intros l1 l2 item _ _ ->%list_elem_of_singleton Heq%list_elem_of_singleton.
      by apply nd_item_of_inj in Heq as [_ ->].
    + intros l _. apply NoDup_singleton.
Qed.

Lemma out_index_item_inj cfg g l g' l' :
  group_ok cfg g → l.1 < 8 → l.2 < 8 → group_ok cfg g' → l'.1 < 8 → l'.2 < 8 →
  out_index cfg (nd_item_of g l) = out_index cfg (nd_item_of g' l') →
  nd_item_of g l = nd_item_of g' l'.
Proof.
  intros Hg Hl1 Hl2 Hg' Hl1' Hl2' Hidx.
  pose proof (out_index_inj cfg g l g' l' Hg Hl2 Hg' Hl2' Hidx) as Hgid.
  unfold nd_item_of, range_add, range_mul in *. cbn [globalId fst snd localRange] in *.
  injection Hgid as Hy Hx.
  destruct g as [g0 g1], l as [l0 l1], g' as [g0' g1'], l' as [l0' l1']. cbn [fst snd] in *.
  assert (g0 = g0') by lia. assert (g1 = g1') by lia. subst.
  assert (l0 = l0') by lia. assert (l1 = l1') by lia. by subst.
Qed.

Lemma out_index_bound cfg g l :
  group_ok cfg g → l.1 < 8 → l.2 < 8 →
  out_index cfg (nd_item_of g l) < inputImgHeight cfg * inputImgWidth cfg.
Proof.
  intros Hg Hl1 Hl2. apply group_ok_bounds in Hg as [Hg1 Hg2].
  unfold out_index, nd_item_of, range_add, range_mul, outBufRange.
  cbn [globalId fst snd localRange]. nia.
Qed.

Lemma out_index_NoDup cfg : NoDup (out_index cfg <$> dispatch_items cfg).
Proof.
  apply NoDup_fmap_2_strong; [|apply NoDup_dispatch_items].
  intros it1 it2 (g & l & Hg & Hl1 & Hl2 & ->)%elem_of_dispatch_items
    (g' & l' & Hg' & Hl1' & Hl2' & ->)%elem_of_dispatch_items Heq.
  by apply (out_index_item_inj cfg).
Qed.

Lemma out_index_cover cfg :
  divisible cfg →
  out_index cfg <$> dispatch_items cfg ≡ₚ seq 0 (inputImgHeight cfg * inputImgWidth cfg).
Proof.
  intros [Hd1 Hd2]. cbn [globalRange localRange fst snd] in Hd1, Hd2.
  apply NoDup_Permutation; [apply out_index_NoDup|apply NoDup_seq|].
  intros k. rewrite elem_of_seq, list_elem_of_fmap. split.
  - intros (item & -> & (g & l & Hg & Hl1 & Hl2 & ->)%elem_of_dispatch_items).
    pose proof (out_index_bound cfg g l Hg Hl1 Hl2). lia.
  - intros [_ Hk]. cbn in Hk.
    assert (Hw : 0 < inputImgWidth cfg) by nia.
    set (y := k / inputImgWidth cfg). set (x := k mod inputImgWidth cfg).
    assert (Hy : y < inputImgHeight cfg) by (apply Nat.Div0.div_lt_upper_bound; lia).
    assert (Hx : x < inputImgWidth cfg) by (apply Nat.mod_upper_bound; lia).
    exists (nd_item_of (y / 8, x / 8) (y mod 8, x mod 8)). split.
    + unfold out_index, nd_item_of, range_add, range_mul, outBufRange.
      cbn [globalId fst snd localRange].
      pose proof (Nat.div_mod_eq y 8). pose proof (Nat.div_mod_eq x 8).
      pose proof (Nat.div_mod_eq k (inputImgWidth cfg)). fold y x in H1.
      replace (y `div` 8 * 8 + y `mod` 8) with y by lia.
      replace (x `div` 8 * 8 + x `mod` 8) with x by lia. lia.
    + apply elem_of_dispatch_items. eexists _, _. split_and!; [|..|done].
      * split; cbn [fst snd globalRange localRange]; by apply divisible_group.
      * cbn [fst]. apply Nat.mod_upper_bound; lia.
      * cbn [snd]. apply Nat.mod_upper_bound; lia.
Qed.

Section Launch.
Context {F : Type} `{FloatOps F}.

Lemma launch_items cfg (out0 : list (float4 F)) :
  mjoin ((λ grp, (wg_items grp).*1) <$> dev_groups (launch cfg out0)) = dispatch_items cfg.
Proof.
  unfold launch, dispatch_items. cbn [dev_groups].
  induction (group_ids cfg) as [|g gs IH]; csimpl; [done|].
  by rewrite IH.
Qed.

End Launch.

(** ** Binary32 facts *)

Module Binary32Facts.
Import Binary32.

Lemma shr_1_even (p : positive) :
  shr_1 (Build_shr_record (Zpos p~0) false false) = Build_shr_record (Zpos p) false false.
Proof. done. Qed.








Lemma neg_zero_lost : add pos_zero (mul neg_zero one) = pos_zero.
Proof. reflexivity. Qed.

End Binary32Facts.

(** ** Events of a step *)

Lemma events_of_app g t (a b : list (nat * nat * event)) :
  events_of g t (a ++ b) = events_of g t a ++ events_of g t b.
Proof. apply omap_app. Qed.

Lemma events_of_barriers g t g0 {A} (l : list A) (k : nat) :
  events_of g t (imap (λ t' _, (g0, k + t', EvBarrier)) l)
  = if decide (g0 = g ∧ k ≤ t < k + length l) then [EvBarrier] else [].
Proof.
  revert k. induction l as [|x l IH]; intros k.
  { cbn. case_decide; [lia|done]. }
  rewrite imap_cons. unfold events_of in *. cbn [omap list_omap fst snd].
  rewrite (imap_ext _ (λ t' _, (g0, S k + t', EvBarrier))) by (intros; cbn; f_equal; f_equal; lia).
  rewrite IH. cbn [length].
  repeat case_decide; simplify_eq; try done; try lia.
  all: try (exfalso; match goal with H : ¬ (_ ∧ _) |- _ => apply H; split; [done|lia] end).
  all: try (exfalso; match goal with H : (_, _) ≠ (_, _) |- _ => apply H; f_equal; lia end).
  all: try (exfalso; match goal with H : _ ∧ _ |- _ => destruct H; congruence || lia end).
Qed.

Section TraceSteps.
Context {F : Type} `{FloatOps F}.
Variable cfg : config.
Variables inDev4 filterDev4 : list (float4 F).

Lemma shape_step item st s out st' s' out' evs :
  thread_step cfg inDev4 filterDev4 item st s out = Stepped (st', s', out') →
  thread_shape st evs →
  thread_shape st' (evs ++ ev_list (step_event cfg item st)).
Proof.
  intros Hstep Hshape. unfold step_event.
  destruct st as [i j| |r c sum|]; step_inv Hstep; cbn [thread_shape ev_list] in *;
    repeat match goal with
      | |- context [?a <? ?b] => destruct (Nat.ltb_spec a b); try lia
      end; cbn [ev_list]; rewrite ?app_nil_r; try done.
  - apply Forall_app. split; [done|]. by apply Forall_singleton.
  - destruct Hshape as (ws & rs & -> & Hws & Hrs).
    exists ws, (rs ++ [EvScratchRead (range_add (localId item) (r, c))]).
    split_and!; [by rewrite <- app_assoc|done|].
    apply Forall_app. split; [done|]. by apply Forall_singleton.
  - destruct Hshape as (ws & rs & -> & Hws & Hrs).
    exists ws, rs, (out_index cfg item). split_and!; [by rewrite <- app_assoc|done..].
Qed.

Lemma step_phase item st s out st' s' out' :
  thread_step cfg inDev4 filterDev4 item st s out = Stepped (st', s', out') →
  (pre_barrier st' → pre_barrier st) ∧
  (pre_barrier st → ∀ e, step_event cfg item st = Some e → is_write e) ∧
  (∀ c, step_event cfg item st = Some (EvScratchWrite c) → pre_barrier st) ∧
  (∀ c, step_event cfg item st = Some (EvScratchRead c) → is_Some (s !! c)) ∧
  (∀ cell, is_Some (s' !! cell) →
     is_Some (s !! cell) ∨ step_event cfg item st = Some (EvScratchWrite cell)).
Proof.
  intros Hstep. unfold step_event.
  destruct st as [i j| |r c sum|]; step_inv Hstep; cbn [pre_barrier] in *;
    repeat match goal with
      | |- context [?a <? ?b] => destruct (Nat.ltb_spec a b); try lia
      end; split_and!; try done; try (by intros; simplify_eq); try (by left).
  - intros cell [v Hv]. apply lookup_insert_Some in Hv as [[<- _]|[_ Hv]]; [by right|left; eauto].
Qed.

(** The events are those of the step: its outcome depends on the
    scratchpad only through the cell of its read event, and it changes
    the scratchpad only at the cell of its write event. *)
Lemma step_event_sound (item : nd_item) (st : pc F)
    (s1 s2 : gmap (nat * nat) (float4 F)) (out : list (float4 F)) :
  (∀ c, step_event cfg item st = Some (EvScratchRead c) → s1 !! c = s2 !! c) →
  match thread_step cfg inDev4 filterDev4 item st s1 out,
        thread_step cfg inDev4 filterDev4 item st s2 out with
  | Stepped (st1, s1', out1), Stepped (st2, s2', out2) =>
      st1 = st2 ∧ out1 = out2 ∧
      (∀ cell, step_event cfg item st ≠ Some (EvScratchWrite cell) →
         s1' !! cell = s1 !! cell ∧ s2' !! cell = s2 !! cell) ∧
      (∀ cell, step_event cfg item st = Some (EvScratchWrite cell) →
         s1' !! cell = s2' !! cell)
  | Blocked, Blocked | Fault, Fault => True
  | _, _ => False
  end.
Proof.
  intros Hread. unfold thread_step, step_event in *.
  destruct st as [i j| |r c sum|]; [| done | | done].
  - destruct (i <? _); [|by split_and!].
    destruct (j <? _); [|by split_and!].
    destruct (inDev4 !! _) as [v|]; [|done].
    split_and!; [done..| |].
    + intros cell Hne. rewrite !lookup_insert_ne; [done|congruence..].
    + intros cell [= <-]. by rewrite !lookup_insert_eq.
  - destruct (r <? _).
    + destruct (c <? _); [|by split_and!].
      rewrite (Hread _ eq_refl).
      destruct (s2 !! _) as [v|]; [|done].
      destruct (filterDev4 !! _) as [f|]; [|done]. by split_and!.
    + destruct (_ <? _); [|done]. by split_and!.
Qed.

Lemma trace_step tr ch d d' :
  dev_inv cfg inDev4 filterDev4 d →
  trace_inv tr d →
  exec_choice cfg inDev4 filterDev4 ch d = Some d' →
  trace_inv (tr ++ choice_labels cfg ch d) d'.
Proof.
  intros [Hgroups _] (T1 & T2 & T3 & T4 & T5) Hexec.
  destruct ch as [g0 t0|g0]; cbn [exec_choice choice_labels] in *.
  - (* a work-item takes a step *)
    destruct (dev_groups d !! g0) as [grp0|] eqn:Hgrp; [|done]. cbn in Hexec |- *.
    destruct (wg_items grp0 !! t0) as [[item st]|] eqn:Hit; [|done]. cbn in Hexec |- *.
    destruct (thread_step _ _ _ _ _ _ _) as [[[st' s'] out']| |] eqn:Hstep; [|done..].
    injection Hexec as <-. cbn [dev_groups].
    pose proof (shape_step _ _ _ _ _ _ _ _ Hstep (T1 _ _ _ _ Hgrp Hit)) as Hshape.
    destruct (step_phase _ _ _ _ _ _ _ Hstep) as (Hpre' & Hprew & Hwpre & Hread & Hdom).
    destruct (Forall2_lookup_r _ _ _ _ _ Hgroups Hgrp) as (gid & _ & Hinv).
    destruct Hinv as (_ & _ & _ & Hphase & _).
    cbn [fst snd] in *.
    set (L := match step_event cfg item st with Some e => [(g0, t0, e)] | None => [] end).
    assert (HL : ∀ g t, events_of g t L
               = if decide ((g0, t0) = (g, t)) then ev_list (step_event cfg item st) else []).
    { intros g t. subst L. destruct (step_event cfg item st); cbn; repeat case_decide; done. }
    assert (HLin : ∀ g t e, (g, t, e) ∈ L →
               g = g0 ∧ t = t0 ∧ step_event cfg item st = Some e).
    { intros g t e. subst L. destruct (step_event cfg item st); [|by intros ?%elem_of_nil].
      by intros [= -> -> ->]%list_elem_of_singleton. }
    assert (HLlook : ∀ k g t e, L !! k = Some (g, t, e) →
               g = g0 ∧ t = t0 ∧ step_event cfg item st = Some e).
    { intros k g t e Hk. eapply HLin, list_elem_of_lookup_2, Hk. }
    unfold trace_inv. cbn [dev_groups]. split_and!.
    + intros g grp t it Hg Ht. rewrite events_of_app, HL.
      destruct (decide (g = g0)) as [->|Hgne].
      * rewrite list_lookup_insert_eq in Hg by (by eapply lookup_lt_Some).
        injection Hg as <-. cbn [wg_items] in Ht.
        destruct (decide (t = t0)) as [->|Htne].
        -- rewrite list_lookup_insert_eq in Ht by (by eapply lookup_lt_Some).
           injection Ht as <-. by rewrite decide_True.
        -- rewrite list_lookup_insert_ne in Ht by done.
           rewrite decide_False, app_nil_r by congruence. by eapply T1.
      * rewrite list_lookup_insert_ne in Hg by done.
        rewrite decide_False, app_nil_r by congruence. by eapply T1.
    + intros g grp Hg Hall t e [Hin|Hin]%elem_of_app.
      * destruct (decide (g = g0)) as [->|Hgne].
        -- eapply (T2 g0 grp0); [done| |done].
           rewrite list_lookup_insert_eq in Hg by (by eapply lookup_lt_Some).
           injection Hg as <-. cbn [wg_items] in Hall.
           destruct Hphase as [?|[Hpost _]]; [done|].
           pose proof (Forall_lookup_1 _ _ _ _ Hpost Hit) as Hp. cbn in Hp.
           assert (Hst' : pre_barrier st').
           { eapply (Forall_lookup_1 _ _ t0 (item, st')) in Hall; [done|].
             apply list_lookup_insert_eq. by eapply lookup_lt_Some. }
           apply Hpre' in Hst'. by destruct st.
        -- rewrite list_lookup_insert_ne in Hg by done. by eapply T2.
      * apply HLin in Hin as (-> & -> & He).
        rewrite list_lookup_insert_eq in Hg by (by eapply lookup_lt_Some).
        injection Hg as <-. cbn [wg_items] in Hall.
        eapply (Forall_lookup_1 _ _ t0 (item, st')) in Hall;
          [|apply list_lookup_insert_eq; by eapply lookup_lt_Some].
        by eapply Hprew; [apply Hpre'|].
    + intros g t t' c c' i j Hi Hj.
      apply lookup_app_Some in Hi as [Hi|[Hil Hi]], Hj as [Hj|[Hjl Hj]].
      * by eapply T3.
      * apply HLlook in Hj as (-> & -> & He). apply Hwpre in He.
        exfalso. destruct Hphase as [Hall|[Hpost _]].
        -- by apply (T2 _ _ Hgrp Hall _ _ (list_elem_of_lookup_2 _ _ _ Hi)).
        -- pose proof (Forall_lookup_1 _ _ _ _ Hpost Hit) as Hp. by destruct st.
      * apply lookup_lt_Some in Hj. lia.
      * apply HLlook in Hi as (_ & _ & Hi'), Hj as (_ & _ & Hj'). congruence.
    + intros g grp cell Hg Hs.
      destruct (decide (g = g0)) as [->|Hgne].
      * rewrite list_lookup_insert_eq in Hg by (by eapply lookup_lt_Some).
        injection Hg as <-. cbn [wg_scratchpad] in Hs.
        destruct (Hdom _ Hs) as [Hold|Hnew].
        -- destruct (T4 _ _ _ Hgrp Hold) as [t' Ht']. exists t'. apply elem_of_app. by left.
        -- exists t0. apply elem_of_app. right. subst L. rewrite Hnew.
           by apply list_elem_of_singleton.
      * rewrite list_lookup_insert_ne in Hg by done.
        destruct (T4 _ _ _ Hg Hs) as [t' Ht']. exists t'. apply elem_of_app. by left.
    + intros g t c i Hi. apply lookup_app_Some in Hi as [Hi|[Hil Hi]].
      * destruct (T5 _ _ _ _ Hi) as (j & t' & Hj & Hw). exists j, t'. split; [done|].
        by apply lookup_app_l_Some.
      * apply HLlook in Hi as (-> & -> & He). apply Hread in He.
        destruct (T4 _ _ _ Hgrp He) as [t' [j Hj]%list_elem_of_lookup_1].
        exists j, t'. split; [apply lookup_lt_Some in Hj; lia|by apply lookup_app_l_Some].
  - (* the barrier of a group opens *)
    destruct (dev_groups d !! g0) as [grp0|] eqn:Hgrp; [|done]. cbn in Hexec |- *.
    destruct (wg_items grp0) as [|x xs] eqn:Hits; [done|]. rewrite <- Hits in *.
    destruct (forallb _ _) eqn:Hall; [|done]. injection Hexec as <-. cbn [dev_groups].
    apply Is_true_true_2, forallb_True in Hall.
    set (L := imap (λ t (_ : nd_item * pc F), (g0, t, EvBarrier)) (wg_items grp0)).
    assert (HL : ∀ g t, events_of g t L
               = if decide (g0 = g ∧ t < length (wg_items grp0)) then [EvBarrier] else []).
    { intros g t. subst L. pose proof (events_of_barriers g t g0 (wg_items grp0) 0) as Hb.
      cbn in Hb. rewrite Hb. repeat case_decide; try done; lia. }
    assert (HLlook : ∀ k g t e, L !! k = Some (g, t, e) → g = g0 ∧ e = EvBarrier).
    { intros k g t e Hk. subst L.
      apply list_lookup_imap_Some in Hk as (y & _ & [= -> _ ->]). done. }
    unfold trace_inv. cbn [dev_groups]. split_and!.
    + intros g grp t it Hg Ht. rewrite events_of_app, HL.
      destruct (decide (g = g0)) as [->|Hgne].
      * rewrite list_lookup_insert_eq in Hg by (by eapply lookup_lt_Some).
        injection Hg as <-. cbn [wg_items] in Ht.
        apply list_lookup_fmap_Some in Ht as ([item st] & -> & Ht).
        rewrite decide_True by (split; [done|by eapply lookup_lt_Some]).
        pose proof (T1 _ _ _ _ Hgrp Ht) as Hsh.
        apply (Forall_lookup_1 _ _ _ _ Hall) in Ht. cbn [snd] in *.
        destruct st; try done. cbn [release thread_shape snd fst].
        exists (events_of g0 t tr), []. split_and!; [done..|by constructor].
      * rewrite list_lookup_insert_ne in Hg by done.
        rewrite decide_False, app_nil_r by (intros []; congruence). by eapply T1.
    + intros g grp Hg Hpre t e [Hin|Hin]%elem_of_app.
      * destruct (decide (g = g0)) as [->|Hgne].
        -- rewrite list_lookup_insert_eq in Hg by (by eapply lookup_lt_Some).
           injection Hg as <-. cbn [wg_items] in Hpre. rewrite Hits in Hpre.
           by apply Forall_cons_1 in Hpre as [? _].
        -- rewrite list_lookup_insert_ne in Hg by done. by eapply T2.
      * apply list_elem_of_lookup_1 in Hin as [k Hk]. apply HLlook in Hk as [-> ->].
        rewrite list_lookup_insert_eq in Hg by (by eapply lookup_lt_Some).
        injection Hg as <-. cbn [wg_items] in Hpre. rewrite Hits in Hpre.
        by apply Forall_cons_1 in Hpre as [? _].
    + intros g t t' c c' i j Hi Hj.
      apply lookup_app_Some in Hi as [Hi|[Hil Hi]], Hj as [Hj|[Hjl Hj]].
      * by eapply T3.
      * by apply HLlook in Hj as [_ ?].
      * by apply HLlook in Hi as [_ ?].
      * by apply HLlook in Hi as [_ ?].
    + intros g grp cell Hg Hs.
      destruct (decide (g = g0)) as [->|Hgne].
      * rewrite list_lookup_insert_eq in Hg by (by eapply lookup_lt_Some).
        injection Hg as <-. cbn [wg_scratchpad] in Hs.
        destruct (T4 _ _ _ Hgrp Hs) as [t' Ht']. exists t'. apply elem_of_app. by left.
      * rewrite list_lookup_insert_ne in Hg by done.
        destruct (T4 _ _ _ Hg Hs) as [t' Ht']. exists t'. apply elem_of_app. by left.
    + intros g t c i Hi. apply lookup_app_Some in Hi as [Hi|[Hil Hi]].
      * destruct (T5 _ _ _ _ Hi) as (j & t' & Hj & Hw). exists j, t'. split; [done|].
        by apply lookup_app_l_Some.
      * by apply HLlook in Hi as [_ ?].
Qed.

End TraceSteps.

(** ** Events of an execution *)

Section Executions.
Context {F : Type} `{FloatOps F}.
Variable cfg : config.
Variables inDev4 filterDev4 : list (float4 F).

Lemma launch_trace_inv (out0 : list (float4 F)) : trace_inv [] (launch cfg out0).
Proof.
  unfold trace_inv, launch. cbn [dev_groups]. split_and!.
  - intros g grp t it Hg Ht.
    apply list_lookup_fmap_Some in Hg as (gid & -> & _). cbn [init_group wg_items] in Ht.
    apply list_lookup_fmap_Some in Ht as (l & -> & _). cbn. constructor.
  - by intros g grp _ _ t e ?%elem_of_nil.
  - intros g t t' c c' i j Hi. by rewrite lookup_nil in Hi.
  - intros g grp cell Hg [v Hv].
    apply list_lookup_fmap_Some in Hg as (gid & -> & _). cbn in Hv.
    by rewrite lookup_empty in Hv.
  - intros g t c i Hi. by rewrite lookup_nil in Hi.
Qed.

Lemma run_trace_inv sched d tr0 tr d' :
  dev_inv cfg inDev4 filterDev4 d → trace_inv tr0 d →
  run_trace cfg inDev4 filterDev4 sched d = Some (tr, d') →
  trace_inv (tr0 ++ tr) d' ∧ dev_inv cfg inDev4 filterDev4 d'.
Proof.
  revert d tr0 tr. induction sched as [|ch sched IH]; intros d tr0 tr Hinv Htr Hrun.
  { injection Hrun as <- <-. by rewrite app_nil_r. }
  cbn [run_trace] in Hrun.
  destruct (exec_choice _ _ _ ch d) as [d1|] eqn:Hch; [|done]. cbn in Hrun.
  destruct (run_trace _ _ _ sched d1) as [[tr1 d2]|] eqn:Hrest; [|done]. cbn in Hrun.
  injection Hrun as <- <-. rewrite app_assoc. eapply IH; [| |done].
  - by eapply exec_choice_inv.
  - by eapply trace_step.
Qed.

Lemma steps_schedule d d' :
  rtc (dev_step cfg inDev4 filterDev4) d d' →
  ∃ sched tr, run_trace cfg inDev4 filterDev4 sched d = Some (tr, d').
Proof.
  induction 1 as [d|d1 d2 d3 [ch Hch] _ (sched & tr & Hrun)].
  - by exists [], [].
  - exists (ch :: sched), (choice_labels cfg ch d1 ++ tr). cbn [run_trace].
    rewrite Hch. cbn. by rewrite Hrun.
Qed.

Lemma schedule_steps sched d tr d' :
  run_trace cfg inDev4 filterDev4 sched d = Some (tr, d') →
  rtc (dev_step cfg inDev4 filterDev4) d d'.
Proof.
  revert d tr. induction sched as [|ch sched IH]; intros d tr Hrun.
  { by injection Hrun as <- <-. }
  cbn [run_trace] in Hrun.
  destruct (exec_choice _ _ _ ch d) as [d1|] eqn:Hch; [|done]. cbn in Hrun.
  destruct (run_trace _ _ _ sched d1) as [[tr1 d2]|] eqn:Hrest; [|done]. cbn in Hrun.
  injection Hrun as <- <-. eapply rtc_l; [by exists ch|by eapply IH].
Qed.

Lemma finished_item d g t :
  dev_inv cfg inDev4 filterDev4 d → dev_finished d = true →
  g < length (group_ids cfg) → t < length local_ids →
  ∃ grp item, dev_groups d !! g = Some grp ∧ wg_items grp !! t = Some (item, Done).
Proof.
  intros [Hgroups _] Hfin Hg Ht.
  destruct (lookup_lt_is_Some_2 _ _ Hg) as [gid Hgid].
  destruct (Forall2_lookup_l _ _ _ _ _ Hgroups Hgid) as (grp & Hgrp & Hinv).
  destruct Hinv as (_ & Hitems & _).
  assert (Hlen : length (wg_items grp) = length local_ids).
  { by rewrite <- (length_fmap fst), Hitems, length_fmap. }
  destruct (lookup_lt_is_Some_2 (wg_items grp) t) as [[item st] Hit]; [lia|].
  exists grp, item. split; [done|].
  unfold dev_finished in Hfin. apply Is_true_true_2, forallb_True in Hfin.
  apply (Forall_lookup_1 _ _ _ _ Hfin) in Hgrp. apply forallb_True in Hgrp.
  apply (Forall_lookup_1 _ _ _ _ Hgrp) in Hit as Hd. cbn in Hd. by destruct st.
Qed.

End Executions.

(** ** The host program *)

Module HostFacts.
Import Host.

Section Facts.
Context {F : Type}.
Variable rt : runtime F.

Lemma bind_inv {A B} (m : M F A) (k : A → M F B) st st' r :
  (m ≫= k) st = (st', r) →
  (∃ e, m st = (st', inl e) ∧ r = inl e) ∨
  (∃ st1 a, m st = (st1, inr a) ∧ k a st1 = (st', r)).
Proof.
  unfold mbind, host_bind. destruct (m st) as [st1 [e|a]] eqn:Hm.
  - intros [= <- <-]. left. by exists e.
  - intros Hk. right. by exists st1, a.
Qed.

Lemma bind_returns {A B} (m : M F A) (k : A → M F B) st st1 a :
  m st = (st1, inr a) → (m ≫= k) st = k a st1.
Proof. intros Hm. unfold mbind, host_bind. by rewrite Hm. Qed.

Lemma bind_assoc {A B C} (m : M F A) (k : A → M F B) (t : B → M F C) st :
  ((m ≫= k) ≫= t) st = (m ≫= λ a, k a ≫= t) st.
Proof. unfold mbind, host_bind. by destruct (m st) as [st1 [e|a]]. Qed.

Lemma prints_run (ls : list string) (st : host_state F) :
  prints ls st
  = ({| outputImage := outputImage st; outDev := outDev st; calls := calls st;
        log := log st ++ (Stdout <$> ls) |}, inr tt).
Proof.
  revert st. induction ls as [|s ls IH]; intros st.
  { cbn. rewrite app_nil_r. by destruct st. }
  cbn [prints]. erewrite bind_returns by reflexivity. rewrite IH.
  unfold emit. cbn [outputImage outDev calls log fmap list_fmap].
  by rewrite <- app_assoc.
Qed.

Lemma keeps_call c : keeps_image (call rt c).
Proof. intros st st' r. unfold call. by destruct (rt_throws rt _ c); intros [= <- _]. Qed.

Lemma keeps_print s : keeps_image (print s : M F unit).
Proof. by intros st st' r [= <- _]. Qed.

Lemma keeps_set_outDev (f : list (float4 F) → list (float4 F)) : keeps_image (set_outDev f).
Proof. by intros st st' r [= <- _]. Qed.

Lemma keeps_bind (m k : M F unit) :
  keeps_image m → keeps_image k → keeps_image (m ;; k).
Proof.
  intros Hm Hk st st' r [(e & Hr & _)|(st1 & [] & Hr & Hr')]%bind_inv.
  - by eapply Hm.
  - rewrite (Hk _ _ _ Hr'). by eapply Hm.
Qed.

Lemma keeps_prints ls : keeps_image (prints ls : M F unit).
Proof. intros st st' r. rewrite prints_run. by intros [= <- _]. Qed.

Lemma keeps_reruns (f : M F unit) more : keeps_image f → keeps_image (reruns f more).
Proof.
  intros Hf. induction more as [|ls more IH]; [by intros st st' r [= <- _]|].
  cbn [reruns]. apply keeps_bind; [apply keeps_prints|by apply keeps_bind].
Qed.

Lemma keeps_kernel_run cfg inputImage flt : keeps_image (kernel_run rt cfg inputImage flt).
Proof.
  apply keeps_bind; [apply keeps_call|].
  apply keeps_bind; [apply keeps_set_outDev|apply keeps_call].
Qed.

Lemma keeps_benchmark (f : M F unit) n c : keeps_image f → keeps_image (benchmark rt f n c).
Proof.
  intros Hf. apply keeps_bind; [apply keeps_prints|].
  apply keeps_bind; [done|]. apply keeps_bind; [by apply keeps_reruns|apply keeps_prints].
Qed.

Lemma free_call : throws_in_free (call rt Free).
Proof.
  intros st st' e. unfold call. destruct (rt_throws rt _ Free); [|done].
  intros [= <- _]. cbn. by rewrite last_snoc.
Qed.

Lemma free_bind (m k : M F unit) :
  throws_in_free m → throws_in_free k → throws_in_free (m ;; k).
Proof.
  intros Hm Hk st st' e [(e' & Hr & _)|(st1 & [] & Hr & Hr')]%bind_inv.
  - by eapply Hm.
  - by eapply Hk.
Qed.

Lemma extends_call c : extends_log (call rt c).
Proof.
  intros st st' r. unfold call. destruct (rt_throws rt _ c); intros [= <- _]; by eexists.
Qed.

Lemma extends_print s : extends_log (print s : M F unit).
Proof. intros st st' r [= <- _]. by eexists. Qed.

Lemma extends_set_outDev (f : list (float4 F) → list (float4 F)) : extends_log (set_outDev f).
Proof. intros st st' r [= <- _]. exists []. by rewrite app_nil_r. Qed.

Lemma extends_copy_back : extends_log (copy_back : M F unit).
Proof. intros st st' r [= <- _]. exists []. by rewrite app_nil_r. Qed.

Lemma extends_bind (m k : M F unit) :
  extends_log m → extends_log k → extends_log (m ;; k).
Proof.
  intros Hm Hk st st' r [(e & Hr & _)|(st1 & [] & Hr & Hr')]%bind_inv.
  - by eapply Hm.
  - destruct (Hm _ _ _ Hr) as [l1 H1], (Hk _ _ _ Hr') as [l2 H2].
    exists (l1 ++ l2). by rewrite H2, H1, app_assoc.
Qed.

Lemma extends_prints ls : extends_log (prints ls : M F unit).
Proof. intros st st' r. rewrite prints_run. intros [= <- _]. by eexists. Qed.

Lemma extends_reruns (f : M F unit) more : extends_log f → extends_log (reruns f more).
Proof.
  intros Hf. induction more as [|ls more IH].
  - intros st st' r [= <- _]. exists []. by rewrite app_nil_r.
  - cbn [reruns]. apply extends_bind; [apply extends_prints|by apply extends_bind].
Qed.

Lemma extends_kernel_run cfg inputImage flt : extends_log (kernel_run rt cfg inputImage flt).
Proof.
  apply extends_bind; [apply extends_call|].
  apply extends_bind; [apply extends_set_outDev|apply extends_call].
Qed.

Lemma from_benchmark_extends cfg inputImage flt :
  extends_log (from_benchmark rt cfg inputImage flt).
Proof.
  unfold from_benchmark. cbv zeta.
  repeat first [apply extends_kernel_run | apply extends_reruns | apply extends_prints
               | apply extends_call | apply extends_copy_back | apply extends_bind].
Qed.

Lemma starts_call c : starts_with c (call rt c).
Proof.
  intros st st' r. unfold call. destruct (rt_throws rt _ c); intros [= <- _]; by exists [].
Qed.

Lemma starts_bind c (m k : M F unit) :
  starts_with c m → extends_log k → starts_with c (m ;; k).
Proof.
  intros Hm Hk st st' r [(e & Hr & _)|(st1 & [] & Hr & Hr')]%bind_inv.
  - by eapply Hm.
  - destruct (Hm _ _ _ Hr) as [l1 H1], (Hk _ _ _ Hr') as [l2 H2].
    exists (l1 ++ l2). by rewrite H2, H1, <- app_assoc.
Qed.

Lemma from_benchmark_starts cfg inputImage flt :
  starts_with (Submit (globalRange cfg) localRange) (from_benchmark rt cfg inputImage flt).
Proof.
  unfold from_benchmark. cbv zeta.
  apply starts_bind.
  - apply starts_bind.
    + apply starts_bind; [apply starts_call|].
      apply extends_bind; [apply extends_set_outDev|apply extends_call].
    + apply extends_bind; [|apply extends_prints].
      apply extends_reruns, extends_kernel_run.
  - repeat first [apply extends_call | apply extends_copy_back | apply extends_bind].
Qed.

Lemma benchmark_from cfg inputImage flt (st : host_state F) :
  (benchmark rt (kernel_run rt cfg inputImage flt) 100 caption ;;
   call rt (CopyFromDevice (range_size (outBufRange cfg) * img_channels inputImage)) ;;
   copy_back ;; call rt Free ;; call rt Free ;; call rt Free) st
  = from_benchmark rt cfg inputImage flt
      {| outputImage := outputImage st; outDev := outDev st; calls := calls st;
         log := log st ++ (Stdout <$> h_before (rt_harness rt 100 caption)) |}.
Proof.
  unfold benchmark, from_benchmark. cbv zeta. rewrite bind_assoc.
  erewrite bind_returns by apply prints_run. reflexivity.
Qed.

Lemma try_block_prefix inputImage flt img dev :
  (∀ k c, k < 8 → rt_throws rt k c = None) →
  try_block rt inputImage flt {| outputImage := img; outDev := dev; calls := 0; log := [] |}
  = from_benchmark rt (config_of inputImage flt) inputImage flt
      {| outputImage := img; outDev := dev; calls := 8; log := prefix_log rt inputImage flt |}.
Proof.
  intros Hok. unfold try_block.
  assert (Hcall : ∀ c (st : host_state F), calls st < 8 →
            call rt c st
            = ({| outputImage := outputImage st; outDev := outDev st;
                  calls := S (calls st); log := log st ++ [Call c] |}, inr tt)).
  { intros c st Hlt. unfold call. by rewrite Hok. }
  repeat (first
    [ erewrite (bind_returns (call rt _)) by (apply Hcall; cbn [calls]; lia)
    | erewrite (bind_returns (print _)) by reflexivity ];
    unfold emit; cbn [outputImage outDev calls log app]).
  cbv zeta. fold (config_of inputImage flt). rewrite benchmark_from.
  unfold prefix_log. cbn [outputImage outDev calls log app]. reflexivity.
Qed.

Lemma image_or_free_bind (m k : M F unit) :
  keeps_image m → image_or_free k → image_or_free (m ;; k).
Proof.
  intros Hm Hk st st' e [(w & Hr & _)|(st1 & [] & Hr & Hr')]%bind_inv.
  - left. by eapply Hm.
  - destruct (Hk _ _ _ Hr') as [Heq|?]; [left|by right].
    rewrite Heq. by eapply Hm.
Qed.

Lemma image_or_free_tail :
  image_or_free (copy_back ;; call rt Free ;; call rt Free ;; call rt Free : M F unit).
Proof.
  intros st st' e [(w & Hr & _)|(st1 & [] & Hr & Hr')]%bind_inv; [done|].
  right. revert Hr'. apply free_bind; [apply free_call|].
  apply free_bind; apply free_call.
Qed.

Lemma try_block_image inputImage flt : image_or_free (try_block rt inputImage flt).
Proof.
  unfold try_block.
  repeat (apply image_or_free_bind;
          [first [apply keeps_call|apply keeps_print
                 |apply keeps_benchmark, keeps_kernel_run]|]).
  apply image_or_free_tail.
Qed.

Lemma main_unfold inputImage outputImage0 flt outDev0 :
  main rt inputImage outputImage0 flt outDev0
  = let r := try_result rt inputImage outputImage0 flt outDev0 in
    match r.2 with
    | inl Fatal => (log r.1, Terminated)
    | inl (SyclException what) =>
        (log r.1 ++ [Stdout ("Exception caught: " +:+ what +:+ newline);
                     WriteImage (outputImage r.1) outputImageFile], Returns 0)
    | inr _ => (log r.1 ++ [WriteImage (outputImage r.1) outputImageFile], Returns 0)
    end.
Proof.
  unfold main, try_result.
  destruct (try_block _ _ _ _) as [st [[what|]|[]]]; cbn; [|done..].
  by rewrite <- app_assoc.
Qed.

End Facts.
End HostFacts.

(** ** Schedules *)

Section Schedules.
Context {F : Type} `{FloatOps F}.
Variable cfg : config.
Variables inDev4 filterDev4 : list (float4 F).

Lemma run_schedule_steps sched d d' :
  run_schedule cfg inDev4 filterDev4 sched d = Some d' →
  rtc (dev_step cfg inDev4 filterDev4) d d'.
Proof.
  revert d. induction sched as [|ch sched IH]; intros d Hrun.
  { by injection Hrun as <-. }
  cbn [run_schedule] in Hrun.
  destruct (exec_choice _ _ _ ch d) as [d1|] eqn:Hch; [|done]. cbn in Hrun.
  eapply rtc_l; [by exists ch|by apply IH].
Qed.

Lemma run_schedule_inv sched out0 d :
  length out0 = range_size (outBufRange cfg) →
  run_schedule cfg inDev4 filterDev4 sched (launch cfg out0) = Some d →
  dev_inv cfg inDev4 filterDev4 d.
Proof.
  intros Hlen Hrun. eapply dev_steps_inv; [by apply launch_inv|].
  by eapply run_schedule_steps.
Qed.

Lemma run_trace_schedule sched d tr d' :
  run_trace cfg inDev4 filterDev4 sched d = Some (tr, d') →
  run_schedule cfg inDev4 filterDev4 sched d = Some d'.
Proof.
  revert d tr. induction sched as [|ch sched IH]; intros d tr Hrun.
  { by injection Hrun as <- <-. }
  cbn [run_trace run_schedule] in *.
  destruct (exec_choice _ _ _ ch d) as [d1|] eqn:Hch; [|done]. cbn in *.
  destruct (run_trace _ _ _ sched d1) as [[tr1 d2]|] eqn:Hrest; [|done]. cbn in Hrun.
  injection Hrun as <- <-. by eapply IH.
Qed.

Lemma choice_labels_extent ch (d : device F) :
  Forall (label_in_extent cfg) (choice_labels cfg ch d).
Proof.
  destruct ch as [g t|g]; cbn [choice_labels].
  - destruct (dev_groups d !! g ≫= _) as [[item st]|]; [|constructor]. cbn [fst snd].
    destruct (step_event cfg item st) as [e|] eqn:He; [|constructor].
    apply Forall_singleton. unfold label_in_extent. cbn [snd].
    destruct e as [cell| | |]; try done.
    unfold step_event in He. destruct st as [i j| |r c sum|]; try done.
    + destruct (Nat.ltb_spec i (scratchpadRange cfg).1); [|done].
      destruct (Nat.ltb_spec j (scratchpadRange cfg).2); [|done].
      by injection He as <-.
    + by repeat case_match.
  - destruct (dev_groups d !! g) as [grp|]; [|constructor].
    apply list.Forall_forall. intros lbl (t & y & -> & _)%elem_of_lookup_imap_1. done.
Qed.

Lemma run_trace_extent sched d tr d' :
  run_trace cfg inDev4 filterDev4 sched d = Some (tr, d') →
  Forall (label_in_extent cfg) tr.
Proof.
  revert d tr. induction sched as [|ch sched IH]; intros d tr Hrun.
  { injection Hrun as <- <-. constructor. }
  cbn [run_trace] in Hrun.
  destruct (exec_choice _ _ _ ch d) as [d1|] eqn:Hch; [|done]. cbn in Hrun.
  destruct (run_trace _ _ _ sched d1) as [[tr1 d2]|] eqn:Hrest; [|done]. cbn in Hrun.
  injection Hrun as <- <-. apply Forall_app. split; [apply choice_labels_extent|by eapply IH].
Qed.

Lemma dev_inv_no_fault d :
  buffers_ok cfg inDev4 filterDev4 →
  dev_inv cfg inDev4 filterDev4 d →
  ¬ dev_fault cfg inDev4 filterDev4 d.
Proof.
  intros Hbuf [Hgroups Hlen] (g & t & grp & [item st] & Hgrp & Hit & Hfault).
  destruct (Forall2_lookup_r _ _ _ _ _ Hgroups Hgrp) as (gid & Hg & Hinv).
  pose proof Hinv as (Hgok & Hitems & Hsound & Hphase & Hthreads).
  destruct (group_item_shape _ _ _ _ _ _ (item, st) Hinv) as (l & Hl1 & Hl2 & Hitem);
    [by eapply list_elem_of_lookup_2|]. cbn [fst snd] in *. subst item.
  pose proof (Forall_lookup_1 _ _ _ _ Hthreads Hit) as Ht.
  eapply thread_step_no_fault; [done..| |done|done].
  intros Hpost. destruct Hphase as [Hall|[_ ?]]; [|done].
  apply (Forall_lookup_1 _ _ _ _ Hall) in Hit. by destruct st.
Qed.

Lemma summing_cell_ready d g grp t item r c sum :
  dev_inv cfg inDev4 filterDev4 d →
  dev_groups d !! g = Some grp → wg_items grp !! t = Some (item, Summing r c sum) →
  r < filterWidth cfg → c < filterWidth cfg →
  (range_add (localId item) (r, c)).1 < (scratchpadRange cfg).1 ∧
  (range_add (localId item) (r, c)).2 < (scratchpadRange cfg).2 ∧
  is_Some (wg_scratchpad grp !! range_add (localId item) (r, c)).
Proof.
  intros [Hgroups _] Hgrp Hit Hr Hc.
  destruct (Forall2_lookup_r _ _ _ _ _ Hgroups Hgrp) as (gid & Hg & Hinv).
  pose proof Hinv as (Hgok & Hitems & Hsound & Hphase & Hthreads).
  destruct (group_item_shape _ _ _ _ _ _ _ Hinv (list_elem_of_lookup_2 _ _ _ Hit))
    as (l & Hl1 & Hl2 & Hitem). cbn [fst] in Hitem. subst item.
  pose proof (halo_covers_filter cfg) as Hh.
  assert (Hb : (range_add l (r, c)).1 < (scratchpadRange cfg).1 ∧
               (range_add l (r, c)).2 < (scratchpadRange cfg).2).
  { unfold scratchpadRange, localRange, range_add. cbn [fst snd]. lia. }
  cbn [localId nd_item_of]. split_and!; [apply Hb..|].
  destruct Hphase as [Hall|[_ Hcomp]].
  - apply (Forall_lookup_1 _ _ _ _ Hall) in Hit. done.
  - apply Hcomp; apply Hb.
Qed.

Lemma post_barrier_scratch d g gid grp t it cell :
  dev_inv cfg inDev4 filterDev4 d →
  dev_groups d !! g = Some grp → group_ids cfg !! g = Some gid →
  wg_items grp !! t = Some it → post_barrier it.2 →
  cell.1 < (scratchpadRange cfg).1 → cell.2 < (scratchpadRange cfg).2 →
  is_Some (wg_scratchpad grp !! cell) ∧
  wg_scratchpad grp !! cell = inDev4 !! tile_index cfg gid cell.
Proof.
  intros [Hgroups _] Hgrp Hgid Hit Hpost H1 H2.
  destruct (Forall2_lookup_r _ _ _ _ _ Hgroups Hgrp) as (gid' & Hg & Hinv).
  assert (gid' = gid) as -> by congruence.
  destruct Hinv as (Hgok & Hitems & Hsound & Hphase & Hthreads).
  destruct Hphase as [Hall|[_ Hcomp]].
  { apply (Forall_lookup_1 _ _ _ _ Hall) in Hit. by destruct (it.2). }
  destruct (Hcomp cell H1 H2) as [v Hv]. split; [by eexists|].
  rewrite Hv. symmetry. by apply Hsound.
Qed.

End Schedules.

(** * The claims *)

Section Claims.
Context {F : Type} `{FloatOps F}.
Variable cfg : config.
Variables inDev4 filterDev4 : list (float4 F).

(** C1 (tiling correctness).  With device buffers of the allocated sizes
    and image dimensions that are multiples of the 8x8 group, the tiled
    kernel leaves in [outDev4] exactly the naive convolution computed
    from the padded input: [dispatch] returns it, every complete
    execution under any schedule ends with it, and its pixel [(y, x)]
    is the row-major sum of
    [input[(y + r) * paddedWidth + (x + c)] * filter[r][c]].  Equality
    is exact, hence within any tolerance. *)
Theorem tiled_refines_naive (out0 : list (float4 F)) :
  buffers_ok cfg inDev4 filterDev4 → divisible cfg →
  length out0 = range_size (outBufRange cfg) →
  dispatch cfg inDev4 filterDev4 out0 = Some (naive_conv cfg inDev4 filterDev4) ∧
  (∀ sched d,
     run_schedule cfg inDev4 filterDev4 sched (launch cfg out0) = Some d →
     dev_finished d = true → dev_out d = naive_conv cfg inDev4 filterDev4) ∧
  (∀ y x, y < inputImgHeight cfg → x < inputImgWidth cfg →
     naive_conv cfg inDev4 filterDev4 !! (y * inputImgWidth cfg + x)
     = Some (naive_pixel cfg inDev4 filterDev4 y x)).
Proof.
  intros Hbuf Hdiv Hlen. split_and!.
  - by apply dispatch_naive.
  - intros sched d Hrun Hfin. apply finished_output; [done| |done].
    by eapply run_schedule_inv.
  - intros y x Hy Hx. unfold naive_conv.
    by rewrite list_lookup_fmap, (lookup_ids _ _ _ _ Hy Hx).
Qed.

(** C2 (convolution evaluator).  A work-item leaves the barrier with the
    accumulator equal to the zero vector; run from there on a scratchpad
    holding its filter window, it stops past the store of line 138,
    having left the scratchpad as it was and stored at
    [globalId[0] * outputWidth + globalId[1]] the sum, taken over the
    filter in row-major order, of
    [scratch[localId + (r, c)] * filter[r][c]]. *)
Theorem evaluator_row_major_sum (item : nd_item) (st : pc F)
    (s : gmap (nat * nat) (float4 F)) (out : list (float4 F)) (fuel : nat) :
  length filterDev4 = range_size (filterRange cfg) →
  (∀ r c, r < filterWidth cfg → c < filterWidth cfg →
     is_Some (s !! range_add (localId item) (r, c))) →
  out_index cfg item < length out →
  pc_measure cfg (Summing 0 0 float4_zero : pc F) ≤ fuel →
  release (item, st) = (item, Summing 0 0 float4_zero) ∧
  thread_run cfg inDev4 filterDev4 item fuel (Summing 0 0 float4_zero) s out
  = Stepped (Done, s,
             <[(globalId item).1 * inputImgWidth cfg + (globalId item).2
               := evaluator_sum cfg s filterDev4 (localId item)]> out) ∧
  window (filterWidth cfg)
  = (r ← seq 0 (filterWidth cfg); c ← seq 0 (filterWidth cfg); [(r, c)]).
Proof.
  intros Hfilt Hs Hout Hfuel. split_and!; [done| |done].
  apply (evaluator_run cfg inDev4 filterDev4); try done; lia.
Qed.

(** C3 (tile loader).  Run alone up to the barrier, the work-item with
    local id [l] of group [g] writes exactly the scratch cells
    [(l[0] + 8a, l[1] + 8b)] below the scratch extent, each with the
    input element at
    [(globalGroupOffset[0] + i) * paddedWidth + globalGroupOffset[1] + j],
    and leaves every other cell and the output buffer as they were; every
    cell of the scratch extent is such a cell for some local id of the
    8x8 group; and in every execution of the dispatch, once a work-item
    of a group is past the barrier every cell of the group's scratchpad
    holds that input element. *)
Theorem tile_loader_strided_fill (g l : nat * nat)
    (s : gmap (nat * nat) (float4 F)) (out out0 : list (float4 F)) (fuel : nat) :
  buffers_ok cfg inDev4 filterDev4 → group_ok cfg g → l.1 < 8 → l.2 < 8 →
  length out0 = range_size (outBufRange cfg) →
  pc_measure cfg (Loading l.1 l.2 : pc F) ≤ fuel →
  (∃ s',
     thread_run cfg inDev4 filterDev4 (nd_item_of g l) fuel (Loading l.1 l.2) s out
     = Stepped (AtBarrier, s', out) ∧
     (∀ cell, loader_cell cfg l cell →
        is_Some (s' !! cell) ∧ s' !! cell = inDev4 !! tile_index cfg g cell) ∧
     (∀ cell, ¬ loader_cell cfg l cell → s' !! cell = s !! cell)) ∧
  (∀ cell, cell.1 < (scratchpadRange cfg).1 → cell.2 < (scratchpadRange cfg).2 →
     ∃ l', l' ∈ local_ids ∧ loader_cell cfg l' cell) ∧
  (∀ sched d gi gid grp t it cell,
     run_schedule cfg inDev4 filterDev4 sched (launch cfg out0) = Some d →
     dev_groups d !! gi = Some grp → group_ids cfg !! gi = Some gid →
     wg_items grp !! t = Some it → post_barrier it.2 →
     cell.1 < (scratchpadRange cfg).1 → cell.2 < (scratchpadRange cfg).2 →
     is_Some (wg_scratchpad grp !! cell) ∧
     wg_scratchpad grp !! cell = inDev4 !! tile_index cfg gid cell).
Proof.
  intros Hbuf Hg Hl1 Hl2 Hlen Hfuel. split_and!.
  - destruct (loader_run cfg inDev4 filterDev4 g l fuel l.1 l.2 s out Hbuf Hg)
      as (s' & Hrun & Hcells); [exists 0; lia..|done|].
    exists s'. split_and!; [done| |].
    + intros cell Hc. destruct (Hcells cell) as [Hin _].
      assert (Hafter : at_or_after l.1 l.2 cell).
      { destruct Hc as ([a Ha] & [b Hb] & _). unfold at_or_after.
        cbn [localRange fst snd] in *. lia. }
      rewrite Hin by done. split; [|done].
      destruct Hc as (_ & _ & H1 & H2).
      by apply (tile_index_in_bounds cfg inDev4 filterDev4).
    + intros cell Hc. destruct (Hcells cell) as [_ Hnot]. apply Hnot. by intros [? _].
  - apply loader_cover.
  - intros sched d gi gid grp t it cell Hrun.
    apply (post_barrier_scratch cfg inDev4 filterDev4). by eapply run_schedule_inv.
Qed.

(** C4 (halo completeness).  Along every execution of the dispatch no
    work-item faults; a work-item about to read
    [scratch[localId + (r, c)]] with [r, c < filterWidth] reads a cell
    inside the scratch extent that holds a written value and is a cell
    of the tile loader of some local id of the group; and every scratch
    read in the execution is of a cell inside the extent that a
    work-item of the same group wrote earlier. *)
Theorem halo_completeness (out0 : list (float4 F)) sched tr d :
  buffers_ok cfg inDev4 filterDev4 →
  length out0 = range_size (outBufRange cfg) →
  run_trace cfg inDev4 filterDev4 sched (launch cfg out0) = Some (tr, d) →
  ¬ dev_fault cfg inDev4 filterDev4 d ∧
  (∀ g grp t item r c sum,
     dev_groups d !! g = Some grp → wg_items grp !! t = Some (item, Summing r c sum) →
     r < filterWidth cfg → c < filterWidth cfg →
     let cell := range_add (localId item) (r, c) in
     cell.1 < (scratchpadRange cfg).1 ∧ cell.2 < (scratchpadRange cfg).2 ∧
     is_Some (wg_scratchpad grp !! cell) ∧
     ∃ l, l ∈ local_ids ∧ loader_cell cfg l cell) ∧
  (∀ g t cell i, tr !! i = Some (g, t, EvScratchRead cell) →
     cell.1 < (scratchpadRange cfg).1 ∧ cell.2 < (scratchpadRange cfg).2 ∧
     ∃ j t', j < i ∧ tr !! j = Some (g, t', EvScratchWrite cell)).
Proof.
  intros Hbuf Hlen Hrun.
  pose proof (launch_inv cfg inDev4 filterDev4 out0 Hlen) as Hinv0.
  destruct (run_trace_inv cfg inDev4 filterDev4 sched _ [] tr d Hinv0
              (launch_trace_inv cfg out0) Hrun) as [(_ & _ & _ & _ & T5) Hinv].
  split_and!.
  - by apply dev_inv_no_fault.
  - intros g grp t item r c sum Hgrp Hit Hr Hc cell.
    destruct (summing_cell_ready cfg inDev4 filterDev4 d g grp t item r c sum
                Hinv Hgrp Hit Hr Hc) as (H1 & H2 & H3).
    split_and!; [done..|]. by apply loader_cover.
  - intros g t cell i Hi. destruct (T5 _ _ _ _ Hi) as (j & t' & Hj & Hw).
    pose proof (run_trace_extent cfg inDev4 filterDev4 _ _ _ _ Hrun) as Hext.
    apply (Forall_lookup_1 _ _ _ _ Hext) in Hw as Hcell.
    unfold label_in_extent in Hcell. cbn [snd] in Hcell.
    split_and!; [apply Hcell..|]. by exists j, t'.
Qed.

(** C6 (disjoint output ownership).  The work-items of the dispatch are
    pairwise distinct and so are the indices
    [globalId[0] * outputWidth + globalId[1]] they store to; when the
    image dimensions are multiples of the group, these indices are,
    up to order, exactly the indices [0 .. H*W) of the output buffer:
    every output cell is written by exactly one work-item.  The
    work-items are those the launch creates. *)
Theorem output_ownership_disjoint (out0 : list (float4 F)) :
  divisible cfg →
  NoDup (dispatch_items cfg) ∧
  NoDup (out_index cfg <$> dispatch_items cfg) ∧
  (∀ i j a b, dispatch_items cfg !! i = Some a → dispatch_items cfg !! j = Some b →
     i ≠ j → a ≠ b ∧ out_index cfg a ≠ out_index cfg b) ∧
  out_index cfg <$> dispatch_items cfg
    ≡ₚ seq 0 (inputImgHeight cfg * inputImgWidth cfg) ∧
  mjoin ((λ grp, (wg_items grp).*1) <$> dev_groups (launch cfg out0)) = dispatch_items cfg.
Proof.
  intros Hdiv. pose proof (out_index_NoDup cfg) as Hnd.
  split_and!; [apply NoDup_dispatch_items|done| |by apply out_index_cover|apply launch_items].
  intros i j a b Ha Hb Hij.
  assert (Hne : out_index cfg a ≠ out_index cfg b).
  { intros Heq. apply Hij. eapply (NoDup_lookup _ _ _ _ Hnd).
    - by rewrite list_lookup_fmap, Ha.
    - by rewrite list_lookup_fmap, Hb, Heq. }
  split; [|done]. by intros ->.
Qed.

(** C7 (determinism).  Two complete executions of the dispatch on the
    same input and filter buffers and the same geometry, under any two
    schedules and from any two initial contents of the output buffer,
    end with identical output buffers; and from every state an
    execution reaches, the dispatch can be completed. *)
Theorem dispatch_deterministic (out0 out0' : list (float4 F)) sched sched' d d' :
  buffers_ok cfg inDev4 filterDev4 → divisible cfg →
  length out0 = range_size (outBufRange cfg) →
  length out0' = range_size (outBufRange cfg) →
  run_schedule cfg inDev4 filterDev4 sched (launch cfg out0) = Some d →
  run_schedule cfg inDev4 filterDev4 sched' (launch cfg out0') = Some d' →
  (dev_finished d = true → dev_finished d' = true → dev_out d = dev_out d') ∧
  (∃ rest dfin,
     run_schedule cfg inDev4 filterDev4 (sched ++ rest) (launch cfg out0) = Some dfin ∧
     dev_finished dfin = true) ∧
  dispatch cfg inDev4 filterDev4 out0 = dispatch cfg inDev4 filterDev4 out0'.
Proof.
  intros Hbuf Hdiv Hlen Hlen' Hrun Hrun'.
  pose proof (run_schedule_inv cfg inDev4 filterDev4 _ _ _ Hlen Hrun) as Hinv.
  pose proof (run_schedule_inv cfg inDev4 filterDev4 _ _ _ Hlen' Hrun') as Hinv'.
  split_and!.
  - intros Hfin Hfin'. by rewrite !(finished_output cfg inDev4 filterDev4).
  - destruct (run_finishes cfg inDev4 filterDev4 _ d Hbuf Hinv (le_n _)) as [Hsteps Hfin].
    destruct (steps_schedule cfg inDev4 filterDev4 _ _ Hsteps) as (rest & tr & Hrest).
    apply run_trace_schedule in Hrest.
    exists rest, (run cfg inDev4 filterDev4 (dev_measure cfg d) d). split; [|exact Hfin].
    clear -Hrun Hrest. revert Hrun. generalize (launch cfg out0).
    induction sched as [|ch sch IH]; intros d0 Hrun; cbn in *.
    + by injection Hrun as ->.
    + destruct (exec_choice _ _ _ ch d0) as [d1|]; [|done]. cbn in *. by apply IH.
  - by rewrite !dispatch_naive.
Qed.

(** C9 (barrier placement).  Along every execution of the dispatch, in
    the order in which the events happen: every scratch read of a group
    comes after every scratch write of that group, and the cell it reads
    has been written before by a work-item of the group; and when the
    dispatch has completed, the events of every work-item of every
    group are its scratch writes, then exactly one barrier, then its
    scratch reads, then its store to the output buffer. *)
Theorem barrier_discipline (out0 : list (float4 F)) sched tr d :
  length out0 = range_size (outBufRange cfg) →
  run_trace cfg inDev4 filterDev4 sched (launch cfg out0) = Some (tr, d) →
  (∀ g t t' c c' i j,
     tr !! i = Some (g, t, EvScratchRead c) →
     tr !! j = Some (g, t', EvScratchWrite c') → j < i) ∧
  (∀ g t c i, tr !! i = Some (g, t, EvScratchRead c) →
     ∃ j t', j < i ∧ tr !! j = Some (g, t', EvScratchWrite c)) ∧
  (dev_finished d = true →
   ∀ g t, g < length (group_ids cfg) → t < length local_ids →
     ∃ ws rs k, events_of g t tr = ws ++ EvBarrier :: rs ++ [EvOutWrite k] ∧
                Forall is_write ws ∧ Forall is_read rs).
Proof.
  intros Hlen Hrun.
  pose proof (launch_inv cfg inDev4 filterDev4 out0 Hlen) as Hinv0.
  destruct (run_trace_inv cfg inDev4 filterDev4 sched _ [] tr d Hinv0
              (launch_trace_inv cfg out0) Hrun) as [(T1 & _ & T3 & _ & T5) Hinv].
  split_and!; [done..|].
  intros Hfin g t Hg Ht.
  destruct (finished_item cfg inDev4 filterDev4 d g t Hinv Hfin Hg Ht)
    as (grp & item & Hgrp & Hit).
  exact (T1 _ _ _ _ Hgrp Hit).
Qed.

End Claims.

Section HostClaims.
Import Host HostFacts.
Context {F : Type}.
Variable rt : runtime F.

Lemma from_benchmark_throws cfg inputImage flt (st : host_state F) e :
  rt_throws rt (calls st) (Submit (globalRange cfg) localRange) = Some e →
  from_benchmark rt cfg inputImage flt st
  = ({| outputImage := outputImage st; outDev := outDev st; calls := S (calls st);
        log := log st ++ [Call (Submit (globalRange cfg) localRange)] |}, inl e).
Proof.
  intros Hthrow. unfold from_benchmark, kernel_run. cbv zeta.
  unfold mbind, host_bind, call. by rewrite Hthrow.
Qed.

Lemma error_reports_app (a b : list (host_event F)) :
  error_reports (a ++ b) = error_reports a + error_reports b.
Proof. unfold error_reports. by rewrite List.filter_app, length_app. Qed.

(** C5, as the code has it.  [main] makes no divisibility check of its
    own: whatever the image dimensions, once the runtime calls before it
    have returned, it asks the runtime to launch the kernel over
    [nd_range(globalRange = (height, width), localRange = (8, 8))]; and if
    the runtime throws a [sycl::exception] at that call, that failure is
    the one thing [main] reports ([Exception caught: ...]: one such line
    more than the device name and the harness had written before),
    after which [write_image] is called on the output image as it was
    allocated and [main] returns 0. *)
Theorem main_submits_unchecked (inputImage outputImage0 : image F) (flt : filter F)
    (outDev0 : list (float4 F)) :
  (∀ k c, k < 8 → rt_throws rt k c = None) →
  let submit := Submit (globalRange (config_of inputImage flt)) localRange in
  Call submit ∈ (main rt inputImage outputImage0 flt outDev0).1 ∧
  (∀ what, rt_throws rt 8 submit = Some (SyclException what) →
     main rt inputImage outputImage0 flt outDev0
     = (prefix_log rt inputImage flt
          ++ [Call submit; Stdout ("Exception caught: " +:+ what +:+ newline);
              WriteImage (img_data outputImage0) outputImageFile], Returns 0) ∧
     error_reports (main rt inputImage outputImage0 flt outDev0).1
     = error_reports (prefix_log rt inputImage flt) + 1).
Proof.
  intros Hok submit. split.
  - rewrite main_unfold. unfold try_result. rewrite try_block_prefix by done.
    destruct (from_benchmark _ _ _ _ _) as [st r] eqn:Hrun. cbn [fst snd].
    destruct (from_benchmark_starts rt _ _ _ _ _ _ Hrun) as [l Hl]. cbn [log] in Hl.
    assert (Hin : Call submit ∈ log st).
    { rewrite Hl. apply elem_of_app. right. apply list_elem_of_here. }
    destruct r as [[what|]|[]]; cbn [fst]; [|done|]; apply elem_of_app; by left.
  - intros what Hthrow.
    assert (Hmain : main rt inputImage outputImage0 flt outDev0
              = (prefix_log rt inputImage flt
                   ++ [Call submit; Stdout ("Exception caught: " +:+ what +:+ newline);
                       WriteImage (img_data outputImage0) outputImageFile], Returns 0)).
    { rewrite main_unfold. unfold try_result. rewrite try_block_prefix by done.
      rewrite (from_benchmark_throws _ _ _ _ (SyclException what)) by done.
      cbn [fst snd log outputImage]. by rewrite <- app_assoc. }
    split; [done|]. rewrite Hmain. cbn [fst]. rewrite error_reports_app. f_equal.
Qed.

(** C10 (exception path).  If a call inside the [try] block throws a
    [sycl::exception], [main] prints [Exception caught: ] followed by
    the message, then still calls [write_image] on the host output
    image, and returns 0; unless the throwing call is one of the final
    [sycl::free]s, that image holds what [allocate_image] left in it. *)
Theorem exception_caught_image_written (inputImage outputImage0 : image F)
    (flt : filter F) (outDev0 : list (float4 F)) (st : host_state F) (what : string) :
  try_result rt inputImage outputImage0 flt outDev0 = (st, inl (SyclException what)) →
  main rt inputImage outputImage0 flt outDev0
  = (log st ++ [Stdout ("Exception caught: " +:+ what +:+ newline);
                WriteImage (outputImage st) outputImageFile], Returns 0) ∧
  (last (log st) ≠ Some (Call Free) → outputImage st = img_data outputImage0).
Proof.
  intros Htry. split.
  - rewrite main_unfold. by rewrite Htry.
  - intros Hfree. destruct (try_block_image rt _ _ _ _ _ Htry) as [Heq|?]; done.
Qed.

End HostClaims.

(** C5, as stated, fails: on a 10x10 image (not a multiple of the 8x8
    group) and a runtime that does not throw, [main] asks the runtime to
    launch the kernel and reports no error. *)
Lemma nondivisible_dispatch_submitted :
  let tr := (Host.main Host.lenient Demo.image10 Demo.output10 Demo.filter11
               (replicate 100 (Demo.z4 0))).1 in
  ¬ divisible (Host.config_of Demo.image10 Demo.filter11) ∧
  Host.Call (Host.Submit (10, 10) (8, 8)) ∈ tr ∧
  Host.error_reports tr = 0 ∧
  ¬ Host.rejected_before_launch tr.
Proof.
  intros tr.
  assert (Hsub : Host.Call (Host.Submit (10, 10) (8, 8)) ∈ tr).
  { apply (list_elem_of_lookup_2 _ 10). vm_compute. reflexivity. }
  split_and!.
  - intros [Hd _]. vm_compute in Hd. discriminate.
  - exact Hsub.
  - vm_compute. reflexivity.
  - intros [Hno _]. exact (Hno _ _ Hsub).
Qed.

Lemma main_submits_unchecked_witness :
  (∀ k c, k < 8 → Host.rt_throws (Host.failing_at (F:=Z) 8 "nd_range") k c = None) ∧
  Host.main (Host.failing_at 8 "nd_range") Demo.image10 Demo.output10 Demo.filter11
    (replicate 100 (Demo.z4 0))
  = (Host.prefix_log (Host.failing_at 8 "nd_range") Demo.image10 Demo.filter11
       ++ [Host.Call (Host.Submit (10, 10) (8, 8));
           Host.Stdout ("Exception caught: " +:+ "nd_range" +:+ Host.newline);
           Host.WriteImage (replicate 100 (Demo.z4 0)) Host.outputImageFile],
     Host.Returns 0).
Proof.
  assert (Hok : ∀ k c, k < 8 → Host.rt_throws (Host.failing_at (F:=Z) 8 "nd_range") k c = None).
  { intros k c Hk. cbn. destruct (decide (k = 8)); [lia|reflexivity]. }
  split; [exact Hok|].
  apply (proj2 (main_submits_unchecked (Host.failing_at 8 "nd_range") Demo.image10
                  Demo.output10 Demo.filter11 (replicate 100 (Demo.z4 0)) Hok)
           "nd_range").
  reflexivity.
Defined.

Lemma exception_caught_image_written_witness :
  Host.main (Host.failing_at 1 "no name") Demo.image10 Demo.output10 Demo.filter11
    (replicate 100 (Demo.z4 3))
  = ([Host.Call Host.QueueCreate; Host.Stdout "Running on "; Host.Call Host.DeviceName;
      Host.Stdout ("Exception caught: " +:+ "no name" +:+ Host.newline);
      Host.WriteImage (replicate 100 (Demo.z4 0)) Host.outputImageFile], Host.Returns 0).
Proof.
  apply (exception_caught_image_written (Host.failing_at 1 "no name")
           Demo.image10 Demo.output10 Demo.filter11 (replicate 100 (Demo.z4 3))
           {| Host.outputImage := replicate 100 (Demo.z4 0);
              Host.outDev := replicate 100 (Demo.z4 3);
              Host.calls := 2;
              Host.log := [Host.Call Host.QueueCreate; Host.Stdout "Running on ";
                           Host.Call Host.DeviceName] |}
           "no name").
  reflexivity.
Defined.

Section IdentityClaims.
Import Binary32 Binary32Facts Identity.




End IdentityClaims.



(** ** The theorems on concrete inputs *)

Lemma tiled_refines_naive_witness :
  dispatch Demo.cfg3 Demo.input3 Demo.flt3 Demo.out0
  = Some (naive_conv Demo.cfg3 Demo.input3 Demo.flt3).
Proof.
  apply (tiled_refines_naive Demo.cfg3 Demo.input3 Demo.flt3 Demo.out0);
    [split; reflexivity|split; reflexivity|reflexivity].
Defined.

Lemma evaluator_row_major_sum_witness :
  thread_run Demo.cfg3 Demo.input3 Demo.flt3 (nd_item_of (0, 0) (1, 2)) 20
    (Summing 0 0 float4_zero) Demo.scratch3 Demo.out0
  = Stepped (Done, Demo.scratch3,
             <[1 * 8 + 2 := evaluator_sum Demo.cfg3 Demo.scratch3 Demo.flt3 (1, 2)]>
               Demo.out0).
Proof.
  apply (evaluator_row_major_sum Demo.cfg3 Demo.input3 Demo.flt3
           (nd_item_of (0, 0) (1, 2)) Done Demo.scratch3 Demo.out0 20).
  - reflexivity.
  - intros r c Hr Hc. change (r < 3) in Hr. change (c < 3) in Hc.
    do 3 (destruct r as [|r];
          [do 3 (destruct c as [|c]; [vm_compute; eauto|]); lia|]); lia.
  - vm_compute. lia.
  - vm_compute. lia.
Defined.

Lemma tile_loader_strided_fill_witness :
  ∃ s',
    thread_run Demo.cfg3 Demo.input3 Demo.flt3 (nd_item_of (0, 0) (1, 2)) 130
      (Loading 1 2) ∅ Demo.out0
    = Stepped (AtBarrier, s', Demo.out0) ∧
    (∀ cell, loader_cell Demo.cfg3 (1, 2) cell →
       is_Some (s' !! cell) ∧
       s' !! cell = Demo.input3 !! tile_index Demo.cfg3 (0, 0) cell) ∧
    (∀ cell, ¬ loader_cell Demo.cfg3 (1, 2) cell →
       s' !! cell = (∅ : gmap (nat * nat) (float4 Z)) !! cell).
Proof.
  apply (tile_loader_strided_fill Demo.cfg3 Demo.input3 Demo.flt3 (0, 0) (1, 2)
           ∅ Demo.out0 Demo.out0 130).
  - split; reflexivity.
  - split; vm_compute; lia.
  - vm_compute. lia.
  - vm_compute. lia.
  - reflexivity.
  - vm_compute. lia.
Defined.

Lemma halo_completeness_witness :
  ¬ dev_fault Demo.cfg Demo.input Demo.flt Demo.forward_run.2 ∧
  dev_finished Demo.forward_run.2 = true.
Proof.
  split; [|vm_compute; reflexivity].
  apply (halo_completeness Demo.cfg Demo.input Demo.flt Demo.out0 Demo.forward
           Demo.forward_run.1 Demo.forward_run.2).
  - split; reflexivity.
  - reflexivity.
  - vm_compute. reflexivity.
Defined.

Lemma output_ownership_disjoint_witness :
  divisible Demo.cfg3 ∧
  out_index Demo.cfg3 <$> dispatch_items Demo.cfg3 ≡ₚ seq 0 64.
Proof.
  assert (Hdiv : divisible Demo.cfg3) by (split; reflexivity).
  split; [exact Hdiv|].
  apply (output_ownership_disjoint Demo.cfg3 Demo.out0 Hdiv).
Defined.

Lemma dispatch_deterministic_witness :
  Demo.forward ≠ Demo.backward ∧
  dev_out Demo.forward_end = dev_out Demo.backward_end.
Proof.
  split; [vm_compute; discriminate|].
  apply (dispatch_deterministic Demo.cfg Demo.input Demo.flt Demo.out0 Demo.out0'
           Demo.forward Demo.backward Demo.forward_end Demo.backward_end).
  - split; reflexivity.
  - split; reflexivity.
  - reflexivity.
  - reflexivity.
  - vm_compute. reflexivity.
  - vm_compute. reflexivity.
  - vm_compute. reflexivity.
  - vm_compute. reflexivity.
Defined.

Lemma barrier_discipline_witness :
  ∃ ws rs k,
    events_of 0 5 Demo.forward_run.1 = ws ++ EvBarrier :: rs ++ [EvOutWrite k] ∧
    Forall is_write ws ∧ Forall is_read rs.
Proof.
  apply (barrier_discipline Demo.cfg Demo.input Demo.flt Demo.out0 Demo.forward
           Demo.forward_run.1 Demo.forward_run.2).
  - reflexivity.
  - vm_compute. reflexivity.
  - vm_compute. reflexivity.
  - vm_compute. lia.
  - vm_compute. lia.
Defined.

(** * Further properties *)

(** ** Step bound, and the output buffer during an execution *)

Lemma sum_list_fmap_le {A} (f : A → nat) (l : list A) (b : nat) :
  (∀ x, f x ≤ b) → sum_list (f <$> l) ≤ length l * b.
Proof.
  intros Hb. induction l as [|x l IH]; cbn; [lia|]. specialize (Hb x). lia.
Qed.

Section Bounds.
Context {F : Type} `{FloatOps F}.
Variable cfg : config.
Variables inDev4 filterDev4 : list (float4 F).

Lemma pc_measure_bound (st : pc F) : pc_measure cfg st ≤ item_steps_bound cfg.
Proof.
  unfold pc_measure, item_steps_bound. cbv zeta.
  set (e0 := (scratchpadRange cfg).1). set (e1 := (scratchpadRange cfg).2).
  set (fw := filterWidth cfg).
  destruct st as [i j| |r c sum|]; nia.
Qed.

Lemma launch_measure (out0 : list (float4 F)) :
  dev_measure cfg (launch cfg out0)
  ≤ inputImgHeight cfg / 8 * (inputImgWidth cfg / 8) * (64 * item_steps_bound cfg).
Proof.
  unfold dev_measure, launch. cbn [dev_groups]. rewrite <- list_fmap_compose.
  etrans; [apply sum_list_fmap_le with (b := 64 * item_steps_bound cfg)|].
  - intros g. unfold compose, group_measure, init_group. cbn [wg_items].
    rewrite <- list_fmap_compose.
    etrans; [apply sum_list_fmap_le with (b := item_steps_bound cfg)|].
    + intros l. apply pc_measure_bound.
    + unfold local_ids. by rewrite length_ids.
  - unfold group_ids. by rewrite length_ids.
Qed.

Lemma run_schedule_measure sched d d' :
  run_schedule cfg inDev4 filterDev4 sched d = Some d' →
  length sched + dev_measure cfg d' ≤ dev_measure cfg d.
Proof.
  revert d. induction sched as [|ch sched IH]; intros d Hrun.
  { injection Hrun as <-. done. }
  cbn [run_schedule] in Hrun.
  destruct (exec_choice _ _ _ ch d) as [d1|] eqn:Hch; [|done]. cbn in Hrun.
  apply IH in Hrun. apply exec_choice_measure in Hch. cbn [length]. lia.
Qed.

Lemma exec_choice_done ch d d' g grp t item :
  exec_choice cfg inDev4 filterDev4 ch d = Some d' →
  dev_groups d !! g = Some grp → wg_items grp !! t = Some (item, Done) →
  ∃ grp', dev_groups d' !! g = Some grp' ∧ wg_items grp' !! t = Some (item, Done).
Proof.
  intros Hexec Hg Ht. destruct ch as [g0 t0|g0]; cbn [exec_choice] in Hexec.
  - destruct (dev_groups d !! g0) as [grp0|] eqn:Hgrp; [|done]. cbn in Hexec.
    destruct (wg_items grp0 !! t0) as [[item0 st]|] eqn:Hit; [|done]. cbn in Hexec.
    destruct (thread_step _ _ _ _ _ _ _) as [[[st' s'] out']| |] eqn:Hstep; [|done..].
    injection Hexec as <-. cbn [dev_groups].
    destruct (decide (g = g0)) as [->|Hne].
    + rewrite Hgrp in Hg. injection Hg as ->.
      eexists. split; [apply list_lookup_insert_eq; by eapply lookup_lt_Some|].
      cbn [wg_items]. destruct (decide (t = t0)) as [->|Hne].
      * rewrite Hit in Ht. by simplify_eq.
      * by rewrite list_lookup_insert_ne.
    + exists grp. by rewrite list_lookup_insert_ne.
  - destruct (dev_groups d !! g0) as [grp0|] eqn:Hgrp; [|done]. cbn in Hexec.
    destruct (wg_items grp0) as [|it0 its] eqn:Hits; [done|].
    destruct (forallb _ _) eqn:Hall; [|done]. injection Hexec as <-. cbn [dev_groups].
    destruct (decide (g = g0)) as [->|Hne].
    + rewrite Hgrp in Hg. injection Hg as ->. rewrite Hits in Ht.
      apply Is_true_true_2, forallb_True in Hall.
      by apply (Forall_lookup_1 _ _ _ _ Hall) in Ht.
    + exists grp. by rewrite list_lookup_insert_ne.
Qed.

Lemma exec_choice_out ch d d' :
  exec_choice cfg inDev4 filterDev4 ch d = Some d' →
  dev_out d' = dev_out d ∨
  ∃ g grp t item v,
    dev_groups d' !! g = Some grp ∧ wg_items grp !! t = Some (item, Done) ∧
    dev_out d' = <[out_index cfg item := v]> (dev_out d).
Proof.
  intros Hexec. destruct ch as [g0 t0|g0]; cbn [exec_choice] in Hexec.
  - destruct (dev_groups d !! g0) as [grp0|] eqn:Hgrp; [|done]. cbn in Hexec.
    destruct (wg_items grp0 !! t0) as [[item st]|] eqn:Hit; [|done]. cbn in Hexec.
    destruct (thread_step _ _ _ _ _ _ _) as [[[st' s'] out']| |] eqn:Hstep; [|done..].
    injection Hexec as <-. cbn [dev_groups dev_out].
    destruct st as [i j| |r c sum|]; step_inv Hstep; try (by left).
    right. exists g0. eexists. exists t0, item, sum. split_and!; [| |done].
    + apply list_lookup_insert_eq. by eapply lookup_lt_Some.
    + cbn [wg_items]. apply list_lookup_insert_eq. by eapply lookup_lt_Some.
  - destruct (dev_groups d !! g0) as [grp0|] eqn:Hgrp; [|done]. cbn in Hexec.
    destruct (wg_items grp0) as [|it0 its] eqn:Hits; [done|].
    destruct (forallb _ _) eqn:Hall; [|done]. injection Hexec as <-. by left.
Qed.

Lemma exec_choice_untouched (out0 : list (float4 F)) ch d d' :
  exec_choice cfg inDev4 filterDev4 ch d = Some d' →
  out_untouched cfg out0 d → out_untouched cfg out0 d'.
Proof.
  intros Hexec Hun k Hnone.
  assert (Hk : dev_out d !! k = out0 !! k).
  { apply Hun. intros item (g & grp & t & Hg & Ht & Hidx).
    destruct (exec_choice_done _ _ _ _ _ _ _ Hexec Hg Ht) as (grp' & Hg' & Ht').
    apply (Hnone item). by exists g, grp', t. }
  destruct (exec_choice_out _ _ _ Hexec) as [->|(g & grp & t & item & v & Hg & Ht & ->)]; [done|].
  rewrite list_lookup_insert_ne; [done|].
  intros Heq. apply (Hnone item). by exists g, grp, t.
Qed.

Lemma launch_untouched (out0 : list (float4 F)) : out_untouched cfg out0 (launch cfg out0).
Proof. by intros k _. Qed.

Lemma steps_untouched (out0 : list (float4 F)) d d' :
  rtc (dev_step cfg inDev4 filterDev4) d d' →
  out_untouched cfg out0 d → out_untouched cfg out0 d'.
Proof.
  induction 1 as [|d1 d2 d3 [ch Hch] _ IH]; [done|].
  intros Hun. apply IH. by eapply exec_choice_untouched.
Qed.

Lemma finished_owner_value d k item :
  dev_inv cfg inDev4 filterDev4 d → finished_owner cfg d k item →
  dev_out d !! k
  = Some (naive_pixel cfg inDev4 filterDev4 (globalId item).1 (globalId item).2).
Proof.
  intros [Hgroups _] (g & grp & t & Hg & Ht & <-).
  destruct (Forall2_lookup_r _ _ _ _ _ Hgroups Hg) as (gid & _ & Hinv).
  destruct Hinv as (_ & _ & _ & _ & Hthreads).
  apply (Forall_lookup_1 _ _ _ _ Hthreads) in Ht. exact Ht.
Qed.

Lemma naive_pixel_ext (inp inp' : list (float4 F)) y x :
  (∀ r c, r < filterWidth cfg → c < filterWidth cfg →
     inp !! ((y + r) * (inBufRange cfg).2 + (x + c))
     = inp' !! ((y + r) * (inBufRange cfg).2 + (x + c))) →
  naive_pixel cfg inp filterDev4 y x = naive_pixel cfg inp' filterDev4 y x.
Proof.
  intros Hagree. unfold naive_pixel.
  assert (Hwin : Forall (λ idx : nat * nat, idx.1 < filterWidth cfg ∧ idx.2 < filterWidth cfg)
                   (window (filterWidth cfg))).
  { apply list.Forall_forall. intros [r c] Hin. by apply elem_of_ids in Hin. }
  generalize (@float4_zero F _). induction Hwin as [|idx l [Hr Hc] _ IH]; intros acc; [done|].
  cbn [foldl]. rewrite <- IH. do 3 f_equal.
  rewrite !list_lookup_total_alt. by rewrite Hagree.
Qed.

End Bounds.

(** ** The reads of a work-item *)

Lemma writes_of_app g (a b : list (nat * nat * event)) :
  writes_of g (a ++ b) = writes_of g a ++ writes_of g b.
Proof. apply omap_app. Qed.

Lemma elem_of_writes_of g cell (tr : list (nat * nat * event)) :
  cell ∈ writes_of g tr ↔ ∃ t, (g, t, EvScratchWrite cell) ∈ tr.
Proof.
  unfold writes_of. rewrite list_elem_of_omap. split.
  - intros ([[g' t] e] & Hin & He). cbn in He. destruct e; try done.
    case_decide; [|done]. simplify_eq. by exists t.
  - intros [t Hin]. exists (g, t, EvScratchWrite cell). split; [done|].
    cbn. by rewrite decide_True.
Qed.

Lemma writes_of_barriers g g0 {A} (l : list A) (k : nat) :
  writes_of g (imap (λ t' _, (g0, k + t', EvBarrier)) l) = [].
Proof.
  revert k. induction l as [|x l IH]; intros k; [done|].
  rewrite imap_cons. unfold writes_of in *. cbn [omap list_omap fst snd].
  rewrite (imap_ext _ (λ t' _, (g0, S k + t', EvBarrier))) by (intros; cbn; f_equal; f_equal; lia).
  apply IH.
Qed.

Lemma strided_lookup (a e k : nat) :
  a + 8 * k < e → strided 8 a e !! k = Some (a + 8 * k).
Proof.
  intros Hlt. unfold strided. rewrite list_lookup_fmap, lookup_seq_lt; [done|].
  apply Nat.div_le_lower_bound; lia.
Qed.

Lemma length_strided (a e k : nat) : e ≤ a + 8 * k → length (strided 8 a e) ≤ k.
Proof.
  intros Hle. unfold strided. rewrite length_fmap, length_seq.
  apply Nat.lt_succ_r, Nat.Div0.div_lt_upper_bound. lia.
Qed.

Lemma elem_of_strided (a e x : nat) :
  x ∈ strided 8 a e ↔ (∃ k, x = a + 8 * k) ∧ x < e.
Proof.
  split.
  - intros [k Hk]%list_elem_of_lookup_1.
    destruct (decide (a + 8 * k < e)) as [Hlt|Hge].
    + rewrite strided_lookup in Hk by done. injection Hk as <-. split; [by exists k|done].
    + apply lookup_lt_Some in Hk. pose proof (length_strided a e k). lia.
  - intros [[k ->] Hlt]. eapply list_elem_of_lookup_2. by apply strided_lookup.
Qed.

Section ReadOrder.
Context {F : Type} `{FloatOps F}.
Variable cfg : config.
Variables inDev4 filterDev4 : list (float4 F).

Lemma window_reads_S item r c :
  r < filterWidth cfg → c < filterWidth cfg →
  window_reads cfg item (r * filterWidth cfg + (c + 1))
  = window_reads cfg item (r * filterWidth cfg + c)
    ++ [EvScratchRead (range_add (localId item) (r, c))].
Proof.
  intros Hr Hc. unfold window_reads.
  replace (r * filterWidth cfg + (c + 1)) with (S (r * filterWidth cfg + c)) by lia.
  erewrite take_S_r by (by apply window_lookup). by rewrite fmap_app.
Qed.

Lemma elem_of_loader_cells lid cell :
  cell ∈ loader_cells cfg lid ↔ loader_cell cfg lid cell.
Proof.
  unfold loader_cells, loader_cell. change localRange with (8, 8). cbn [fst snd].
  rewrite list_elem_of_bind. split.
  - intros (i & (j & -> & Hj)%list_elem_of_fmap & Hi).
    apply elem_of_strided in Hi as [? ?], Hj as [? ?]. by split_and!.
  - intros (Ha & Hb & Hlt1 & Hlt2). exists cell.1. split.
    + apply list_elem_of_fmap. exists cell.2. split; [by destruct cell|].
      by apply elem_of_strided.
    + by apply elem_of_strided.
Qed.

Lemma script_step item st s out st' s' out' evs :
  thread_step cfg inDev4 filterDev4 item st s out = Stepped (st', s', out') →
  thread_inv cfg inDev4 filterDev4 s out (item, st) →
  thread_script cfg item st evs →
  thread_script cfg item st' (evs ++ ev_list (step_event cfg item st)).
Proof.
  intros Hstep Hinv Hscript. unfold step_event. unfold thread_inv in Hinv. cbn [fst snd] in Hinv.
  unfold thread_script in *. cbv zeta in *. change localRange with (8, 8) in *.
  cbn [fst snd] in *.
  set (e0 := (scratchpadRange cfg).1) in *. set (e1 := (scratchpadRange cfg).2) in *.
  destruct st as [i j| |r c sum|]; step_inv Hstep;
    repeat match goal with
      | |- context [?a <? ?b] => destruct (Nat.ltb_spec a b); try lia
      end; cbn [ev_list]; rewrite ?app_nil_r; try done.
  - (* the store of line 120 *)
    destruct Hscript as (a & b & Hi & Hj & _ & ->). exists a, (S b).
    split_and!; [done|lia|by left|].
    rewrite (take_S_r _ b j) by (rewrite Hj; apply strided_lookup; lia).
    by rewrite !fmap_app, !app_assoc.
  - (* the inner loop ends *)
    destruct Hscript as (a & b & Hi & Hj & _ & ->). exists (S a), 0.
    split_and!; [lia|lia|by right|].
    rewrite (take_S_r _ a i) by (rewrite Hi; apply strided_lookup; lia).
    rewrite bind_app. cbn [take fmap list_fmap mbind list_bind]. rewrite !app_nil_r.
    rewrite (take_ge _ b); [done|]. apply length_strided. lia.
  - (* the outer loop ends *)
    destruct Hscript as (a & b & Hi & Hj & [Hlt| ->] & ->); [lia|].
    cbn [take fmap list_fmap]. rewrite app_nil_r. unfold loader_cells.
    change localRange with (8, 8). cbn [fst snd].
    rewrite take_ge; [done|]. apply length_strided. fold e0. lia.
  - rewrite Hscript, window_reads_S by done. by rewrite <- !app_assoc.
  - rewrite Hscript. do 3 f_equal. destruct Hinv as (_ & Hc & _). lia.
  - rewrite Hscript. destruct Hinv as (Hr & _ & Hc0 & _).
    assert (r = filterWidth cfg) as -> by lia. rewrite (Hc0 eq_refl), Nat.add_0_r.
    by rewrite <- !app_assoc.
Qed.

Lemma events_of_run_item (g0 t0 : nat) (o : option event) g t :
  events_of g t (match o with Some e => [(g0, t0, e)] | None => [] end)
  = if decide ((g0, t0) = (g, t)) then ev_list o else [].
Proof. destruct o; cbn; repeat case_decide; done. Qed.

Lemma script_inv_step tr ch d d' :
  dev_inv cfg inDev4 filterDev4 d →
  script_inv cfg tr d →
  exec_choice cfg inDev4 filterDev4 ch d = Some d' →
  script_inv cfg (tr ++ choice_labels cfg ch d) d'.
Proof.
  intros [Hgroups _] Hscr Hexec.
  destruct ch as [g0 t0|g0]; cbn [exec_choice choice_labels] in *.
  - destruct (dev_groups d !! g0) as [grp0|] eqn:Hgrp; [|done]. cbn in Hexec |- *.
    destruct (wg_items grp0 !! t0) as [[item st]|] eqn:Hit; [|done]. cbn in Hexec |- *.
    destruct (thread_step _ _ _ _ _ _ _) as [[[st' s'] out']| |] eqn:Hstep; [|done..].
    injection Hexec as <-.
    destruct (Forall2_lookup_r _ _ _ _ _ Hgroups Hgrp) as (gid & _ & Hinv).
    destruct Hinv as (_ & _ & _ & _ & Hthreads).
    pose proof (Forall_lookup_1 _ _ _ _ Hthreads Hit) as Hthread.
    pose proof (script_step _ _ _ _ _ _ _ _ Hstep Hthread (Hscr _ _ _ _ Hgrp Hit)) as Hnew.
    intros g grp t it Hg Ht. cbn [dev_groups] in Hg.
    rewrite events_of_app, events_of_run_item.
    destruct (decide (g = g0)) as [->|Hgne].
    + rewrite list_lookup_insert_eq in Hg by (by eapply lookup_lt_Some).
      injection Hg as <-. cbn [wg_items] in Ht.
      destruct (decide (t = t0)) as [->|Htne].
      * rewrite list_lookup_insert_eq in Ht by (by eapply lookup_lt_Some).
        injection Ht as <-. by rewrite decide_True.
      * rewrite list_lookup_insert_ne in Ht by done.
        rewrite decide_False, app_nil_r by congruence. by eapply Hscr.
    + rewrite list_lookup_insert_ne in Hg by done.
      rewrite decide_False, app_nil_r by congruence. by eapply Hscr.
  - destruct (dev_groups d !! g0) as [grp0|] eqn:Hgrp; [|done]. cbn in Hexec |- *.
    destruct (wg_items grp0) as [|x xs] eqn:Hits; [done|]. rewrite <- Hits in *.
    destruct (forallb _ _) eqn:Hall; [|done]. injection Hexec as <-.
    apply Is_true_true_2, forallb_True in Hall.
    intros g grp t it Hg Ht. cbn [dev_groups] in Hg. rewrite events_of_app.
    pose proof (events_of_barriers g t g0 (wg_items grp0) 0) as Hb. cbn in Hb. rewrite Hb.
    destruct (decide (g = g0)) as [->|Hgne].
    + rewrite list_lookup_insert_eq in Hg by (by eapply lookup_lt_Some).
      injection Hg as <-. cbn [wg_items] in Ht.
      apply list_lookup_fmap_Some in Ht as ([item st] & -> & Ht).
      rewrite decide_True by (split; [done|apply lookup_lt_Some in Ht; lia]).
      pose proof (Hscr _ _ _ _ Hgrp Ht) as Hsh.
      apply (Forall_lookup_1 _ _ _ _ Hall) in Ht. cbn [snd fst] in *.
      destruct st; try done. cbn [release thread_script snd fst] in *.
      by rewrite Hsh.
    + rewrite list_lookup_insert_ne in Hg by done.
      rewrite decide_False, app_nil_r by (intros []; congruence). by eapply Hscr.
Qed.

Lemma launch_script_inv (out0 : list (float4 F)) : script_inv cfg [] (launch cfg out0).
Proof.
  intros g grp t it Hg Ht. cbn [launch dev_groups] in Hg.
  apply list_lookup_fmap_Some in Hg as (gid & -> & _). cbn [init_group wg_items] in Ht.
  apply list_lookup_fmap_Some in Ht as (l & -> & _).
  cbn [fst snd thread_script localId nd_item_of]. exists 0, 0.
  split_and!; [lia|lia|by right|done].
Qed.

Lemma run_trace_script sched d tr0 tr d' :
  dev_inv cfg inDev4 filterDev4 d → script_inv cfg tr0 d →
  run_trace cfg inDev4 filterDev4 sched d = Some (tr, d') →
  script_inv cfg (tr0 ++ tr) d'.
Proof.
  revert d tr0 tr. induction sched as [|ch sched IH]; intros d tr0 tr Hinv Htr Hrun.
  { injection Hrun as <- <-. by rewrite app_nil_r. }
  cbn [run_trace] in Hrun.
  destruct (exec_choice _ _ _ ch d) as [d1|] eqn:Hch; [|done]. cbn in Hrun.
  destruct (run_trace _ _ _ sched d1) as [[tr1 d2]|] eqn:Hrest; [|done]. cbn in Hrun.
  injection Hrun as <- <-. rewrite app_assoc. eapply IH; [| |done].
  - by eapply exec_choice_inv.
  - by eapply script_inv_step.
Qed.

End ReadOrder.

(** ** The writes of a group *)

Section WriteOnce.
Context {F : Type} `{FloatOps F}.
Variable cfg : config.
Variables inDev4 filterDev4 : list (float4 F).

Lemma loader_cell_owner out gid (grp : work_group F) t t0 it it0 cell :
  group_inv cfg inDev4 filterDev4 out gid grp →
  wg_items grp !! t = Some it → wg_items grp !! t0 = Some it0 →
  loader_cell cfg (localId it.1) cell → loader_cell cfg (localId it0.1) cell →
  t = t0.
Proof.
  intros (_ & Hitems & _) Ht Ht0 ([a Ha] & [b Hb] & _) ([a0 Ha0] & [b0 Hb0] & _).
  assert (Hl : ∀ k x, wg_items grp !! k = Some x →
            ∃ l, local_ids !! k = Some l ∧ localId x.1 = l ∧ l.1 < 8 ∧ l.2 < 8).
  { intros k [item st] Hk. apply (f_equal (.!! k)) in Hitems.
    rewrite !list_lookup_fmap, Hk in Hitems. cbn [fmap option_fmap option_map fst] in Hitems.
    destruct (local_ids !! k) as [l|] eqn:Hlk; [|done]. injection Hitems as ->.
    pose proof (list_elem_of_lookup_2 _ _ _ Hlk) as Hin. apply elem_of_ids in Hin.
    cbn [localRange fst snd] in Hin. destruct Hin. exists l. by split_and!. }
  destruct (Hl _ _ Ht) as (l & Hlt & Hlid & ? & ?).
  destruct (Hl _ _ Ht0) as (l0 & Hlt0 & Hlid0 & ? & ?).
  rewrite Hlid in Ha, Hb. rewrite Hlid0 in Ha0, Hb0. cbn [localRange fst snd] in *.
  assert (l = l0) as -> by (apply injective_projections; lia).
  eapply NoDup_lookup; [apply (NoDup_ids 8 8)|done..].
Qed.

Lemma written_before_step item st s out st' s' out' cell :
  thread_step cfg inDev4 filterDev4 item st s out = Stepped (st', s', out') →
  written_before st cell → written_before st' cell.
Proof.
  intros Hstep Hb.
  destruct st as [i j| |r c sum|]; step_inv Hstep; cbn [written_before localRange fst snd] in *;
    try done; lia.
Qed.

Lemma write_event_step item st s out st' s' out' cell :
  thread_step cfg inDev4 filterDev4 item st s out = Stepped (st', s', out') →
  thread_inv cfg inDev4 filterDev4 s out (item, st) →
  step_event cfg item st = Some (EvScratchWrite cell) →
  loader_cell cfg (localId item) cell ∧ written_before st' cell ∧ ¬ written_before st cell.
Proof.
  intros Hstep Hinv Hev. unfold step_event in Hev. unfold thread_inv in Hinv.
  cbn [fst snd] in Hinv.
  destruct st as [i j| |r c sum|]; try done.
  - destruct (Nat.ltb_spec i (scratchpadRange cfg).1); [|done].
    destruct (Nat.ltb_spec j (scratchpadRange cfg).2); [|done].
    injection Hev as <-. destruct Hinv as (Ha & Hb & _).
    cbn [thread_step] in Hstep.
    destruct (Nat.ltb_spec i (scratchpadRange cfg).1); [|lia].
    destruct (Nat.ltb_spec j (scratchpadRange cfg).2); [|lia].
    destruct (inDev4 !! _); [|done]. injection Hstep as <- _ _.
    split_and!; [done| |]; cbn [written_before localRange fst snd]; lia.
  - destruct (_ <? _); [destruct (_ <? _)|]; done.
Qed.

Lemma writes_inv_step tr ch d d' :
  dev_inv cfg inDev4 filterDev4 d →
  writes_inv cfg tr d →
  exec_choice cfg inDev4 filterDev4 ch d = Some d' →
  writes_inv cfg (tr ++ choice_labels cfg ch d) d'.
Proof.
  intros [Hgroups _] [Hown Hnodup] Hexec.
  destruct ch as [g0 t0|g0]; cbn [exec_choice choice_labels] in *.
  - destruct (dev_groups d !! g0) as [grp0|] eqn:Hgrp; [|done]. cbn in Hexec |- *.
    destruct (wg_items grp0 !! t0) as [[item st]|] eqn:Hit; [|done]. cbn in Hexec |- *.
    destruct (thread_step _ _ _ _ _ _ _) as [[[st' s'] out']| |] eqn:Hstep; [|done..].
    injection Hexec as <-.
    destruct (Forall2_lookup_r _ _ _ _ _ Hgroups Hgrp) as (gid & _ & Hinv).
    pose proof Hinv as (_ & _ & _ & _ & Hthreads).
    pose proof (Forall_lookup_1 _ _ _ _ Hthreads Hit) as Hthread.
    set (L := match step_event cfg item st with Some e => [(g0, t0, e)] | None => [] end).
    assert (HLin : ∀ g t e, (g, t, e) ∈ L →
               g = g0 ∧ t = t0 ∧ step_event cfg item st = Some e).
    { intros g t e. subst L. destruct (step_event cfg item st); [|by intros ?%elem_of_nil].
      by intros [= -> -> ->]%list_elem_of_singleton. }
    split.
    + intros g grp t cell Hg [Hin|Hin]%elem_of_app; cbn [dev_groups] in Hg.
      * destruct (decide (g = g0)) as [->|Hgne].
        -- rewrite list_lookup_insert_eq in Hg by (by eapply lookup_lt_Some).
           injection Hg as <-. cbn [wg_items].
           destruct (Hown _ _ _ _ Hgrp Hin) as (it & Ht & Hcell & Hbefore).
           destruct (decide (t = t0)) as [->|Htne].
           ++ rewrite Hit in Ht. injection Ht as <-. exists (item, st').
              split_and!; [|done|].
              ** apply list_lookup_insert_eq. by eapply lookup_lt_Some.
              ** by eapply written_before_step.
           ++ exists it. by rewrite list_lookup_insert_ne.
        -- rewrite list_lookup_insert_ne in Hg by done. by eapply Hown.
      * apply HLin in Hin as (-> & -> & Hev).
        rewrite list_lookup_insert_eq in Hg by (by eapply lookup_lt_Some).
        injection Hg as <-. cbn [wg_items]. exists (item, st').
        destruct (write_event_step _ _ _ _ _ _ _ _ Hstep Hthread Hev) as (? & ? & _).
        split_and!; [|done..]. apply list_lookup_insert_eq. by eapply lookup_lt_Some.
    + intros g. rewrite writes_of_app. apply NoDup_app. split_and!; [done| |].
      * intros cell [t Hin]%elem_of_writes_of [t' Hin']%elem_of_writes_of.
        apply HLin in Hin' as (-> & -> & Hev).
        destruct (write_event_step _ _ _ _ _ _ _ _ Hstep Hthread Hev) as (Hc & _ & Hnot).
        destruct (Hown _ _ _ _ Hgrp Hin) as (it & Ht & Hcell & Hbefore).
        assert (t = t0) as -> by (by eapply (loader_cell_owner _ _ _ _ _ it (item, st))).
        rewrite Hit in Ht. injection Ht as <-. done.
      * subst L. destruct (step_event cfg item st) as [e|]; [|constructor].
        unfold writes_of. cbn. destruct e; try constructor.
        case_decide; [apply NoDup_singleton|constructor].
  - destruct (dev_groups d !! g0) as [grp0|] eqn:Hgrp; [|done]. cbn in Hexec |- *.
    destruct (wg_items grp0) as [|x xs] eqn:Hits; [done|]. rewrite <- Hits in *.
    destruct (forallb _ _) eqn:Hall; [|done]. injection Hexec as <-.
    set (L := imap (λ t (_ : nd_item * pc F), (g0, t, EvBarrier)) (wg_items grp0)).
    assert (HLin : ∀ g t e, (g, t, e) ∈ L → e = EvBarrier).
    { intros g t e [k Hk]%list_elem_of_lookup_1. subst L.
      apply list_lookup_imap_Some in Hk as (y & _ & [= _ _ ->]). done. }
    split.
    + intros g grp t cell Hg [Hin|Hin]%elem_of_app; [|by apply HLin in Hin].
      cbn [dev_groups] in Hg.
      destruct (decide (g = g0)) as [->|Hgne].
      * rewrite list_lookup_insert_eq in Hg by (by eapply lookup_lt_Some).
        injection Hg as <-. cbn [wg_items].
        destruct (Hown _ _ _ _ Hgrp Hin) as (it & Ht & Hcell & Hbefore).
        exists (release it). rewrite list_lookup_fmap, Ht. done.
      * rewrite list_lookup_insert_ne in Hg by done. by eapply Hown.
    + intros g. rewrite writes_of_app.
      pose proof (writes_of_barriers g g0 (wg_items grp0) 0) as Hb. cbn in Hb.
      subst L. rewrite Hb, app_nil_r. done.
Qed.

Lemma launch_writes_inv (out0 : list (float4 F)) : writes_inv cfg [] (launch cfg out0).
Proof.
  split.
  - by intros g grp t cell _ ?%elem_of_nil.
  - intros g. constructor.
Qed.

Lemma run_trace_writes sched d tr0 tr d' :
  dev_inv cfg inDev4 filterDev4 d → writes_inv cfg tr0 d →
  run_trace cfg inDev4 filterDev4 sched d = Some (tr, d') →
  writes_inv cfg (tr0 ++ tr) d'.
Proof.
  revert d tr0 tr. induction sched as [|ch sched IH]; intros d tr0 tr Hinv Htr Hrun.
  { injection Hrun as <- <-. by rewrite app_nil_r. }
  cbn [run_trace] in Hrun.
  destruct (exec_choice _ _ _ ch d) as [d1|] eqn:Hch; [|done]. cbn in Hrun.
  destruct (run_trace _ _ _ sched d1) as [[tr1 d2]|] eqn:Hrest; [|done]. cbn in Hrun.
  injection Hrun as <- <-. rewrite app_assoc. eapply IH; [| |done].
  - by eapply exec_choice_inv.
  - by eapply writes_inv_step.
Qed.

End WriteOnce.

(** ** The host program as a script *)

Module ScriptFacts.
Import Host HostFacts Script.

Section Facts.
Context {F : Type}.
Variable rt : runtime F.

Lemma count_calls_app (a b : list (host_event F)) :
  count_calls (a ++ b) = count_calls a + count_calls b.
Proof. unfold count_calls. by rewrite List.filter_app, length_app. Qed.

Lemma play_app n (a b : list (host_event F)) :
  play rt n (a ++ b)
  = match (play rt n a).2 with
    | Some e => play rt n a
    | None => ((play rt n a).1 ++ (play rt (n + count_calls a) b).1,
               (play rt (n + count_calls a) b).2)
    end.
Proof.
  revert n. induction a as [|e a IH]; intros n.
  { cbn. rewrite Nat.add_0_r. by destruct (play rt n b). }
  destruct e as [c|s|data path]; cbn [app play].
  - destruct (rt_throws rt n c) as [e|]; [done|]. rewrite IH. cbn [fst snd].
    replace (S n + count_calls a) with (n + count_calls (Call c :: a))
      by (unfold count_calls; cbn; lia).
    by destruct (play rt (S n) a) as [l [w|]].
  - rewrite IH. cbn [fst snd].
    change (count_calls (Stdout s :: a)) with (count_calls a).
    by destruct (play rt n a) as [l [w|]].
  - rewrite IH. cbn [fst snd].
    change (count_calls (WriteImage data path :: a)) with (count_calls a).
    by destruct (play rt n a) as [l [w|]].
Qed.

Lemma play_throw n (sc : list (host_event F)) e :
  (play rt n sc).2 = Some e →
  ∃ k c, sc !! k = Some (Call c) ∧ (play rt n sc).1 = take (S k) sc ∧
         rt_throws rt (n + count_calls (take k sc)) c = Some e.
Proof.
  revert n. induction sc as [|ev sc IH]; intros n; [done|].
  destruct ev as [c|s|data path]; cbn [play].
  - destruct (rt_throws rt n c) as [w|] eqn:Hthrow.
    + intros [= ->]. exists 0, c. cbn. by rewrite Nat.add_0_r.
    + cbn [fst snd]. intros (k & c' & Hk & Hplay & Hw)%IH. exists (S k), c'.
      split_and!; [done|by rewrite Hplay|].
      rewrite <- Hw. f_equal. unfold count_calls. cbn. lia.
  - cbn [fst snd]. intros (k & c' & Hk & Hplay & Hw)%IH. exists (S k), c'.
    split_and!; [done|by rewrite Hplay|done].
  - cbn [fst snd]. intros (k & c' & Hk & Hplay & Hw)%IH. exists (S k), c'.
    split_and!; [done|by rewrite Hplay|done].
Qed.

Lemma play_never_throws n (sc : list (host_event F)) :
  never_throws rt → play rt n sc = (sc, None).
Proof.
  intros Hnt. revert n. induction sc as [|e sc IH]; intros n; [done|].
  destruct e as [c|s|data path]; cbn [play]; rewrite ?Hnt, IH; done.
Qed.

Lemma play_stdout n (ls : list string) :
  play rt n (Stdout <$> ls) = (Stdout <$> ls, None).
Proof.
  revert n. induction ls as [|s ls IH]; intros n; [done|].
  cbn [fmap list_fmap play]. change (list_fmap _ _ Stdout ls) with (Stdout <$> ls).
  by rewrite IH.
Qed.

Lemma count_calls_stdout (ls : list string) :
  count_calls (Stdout <$> ls : list (host_event F)) = 0.
Proof. induction ls as [|s ls IH]; [done|]. exact IH. Qed.

Lemma follows_call c : follows rt [Call c] (call rt c).
Proof.
  intros st st' r. unfold call. cbn [play].
  destruct (rt_throws rt _ c); intros [= <- <-]; cbn; split_and!; try done.
  all: intros _; unfold count_calls; cbn; lia.
Qed.

Lemma follows_print s : follows rt [Stdout s] (print s : M F unit).
Proof.
  intros st st' r [= <- <-]. cbn. split_and!; try done.
  all: intros _; unfold count_calls; cbn; lia.
Qed.

Lemma follows_set_outDev (f : list (float4 F) → list (float4 F)) :
  follows rt [] (set_outDev f).
Proof.
  intros st st' r [= <- <-]. cbn. rewrite app_nil_r. split_and!; try done.
  all: intros _; unfold count_calls; cbn; lia.
Qed.

Lemma follows_copy_back : follows rt [] (copy_back : M F unit).
Proof.
  intros st st' r [= <- <-]. cbn. rewrite app_nil_r. split_and!; try done.
  all: intros _; unfold count_calls; cbn; lia.
Qed.

Lemma follows_ret : follows rt [] (mret tt : M F unit).
Proof.
  intros st st' r [= <- <-]. cbn. rewrite app_nil_r. split_and!; try done.
  all: intros _; unfold count_calls; cbn; lia.
Qed.

Lemma follows_prints ls : follows rt (Stdout <$> ls) (prints ls : M F unit).
Proof.
  intros st st' r. rewrite prints_run. intros [= <- <-].
  rewrite play_stdout, count_calls_stdout. cbn. split_and!; [done..|lia].
Qed.

Lemma follows_bind (a b : list (host_event F)) (m k : M F unit) :
  follows rt a m → follows rt b k → follows rt (a ++ b) (m ;; k).
Proof.
  intros Hm Hk st st' r [(e & Hr & ->)|(st1 & [] & Hr & Hr')]%bind_inv.
  - destruct (Hm _ _ _ Hr) as (Hlog & Hthrown & _). cbn [thrown] in *.
    rewrite play_app, <- Hthrown. by split_and!.
  - destruct (Hm _ _ _ Hr) as (Hlog & Hthrown & Hcalls). cbn [thrown] in *.
    specialize (Hcalls eq_refl).
    destruct (Hk _ _ _ Hr') as (Hlog' & Hthrown' & Hcalls').
    rewrite play_app, <- Hthrown. cbn [fst snd]. rewrite <- Hcalls.
    split_and!; [by rewrite Hlog', Hlog, <- app_assoc|done|].
    intros Hnone. rewrite (Hcalls' Hnone), Hcalls, count_calls_app. lia.
Qed.

Lemma follows_reruns (a : list (host_event F)) (f : M F unit) more :
  follows rt a f →
  follows rt (more ≫= λ ls, (Stdout <$> ls) ++ a) (reruns f more).
Proof.
  intros Hf. induction more as [|ls more IH]; [apply follows_ret|].
  cbn [reruns]. rewrite bind_cons, <- app_assoc.
  apply follows_bind; [apply follows_prints|]. by apply follows_bind.
Qed.

Lemma follows_kernel_run cfg inputImage flt :
  follows rt (iteration_log cfg) (kernel_run rt cfg inputImage flt).
Proof.
  apply (follows_bind [_] [_]); [apply follows_call|].
  apply (follows_bind [] [_]); [apply follows_set_outDev|apply follows_call].
Qed.

Lemma try_block_follows inputImage flt :
  follows rt (full_log rt inputImage flt) (try_block rt inputImage flt).
Proof.
  assert (Hsc : ∃ sc, follows rt sc (try_block rt inputImage flt)
                      ∧ sc = full_log rt inputImage flt).
  { eexists. split.
    - unfold try_block, benchmark. cbv zeta.
      repeat first [ apply follows_kernel_run | apply follows_reruns, follows_kernel_run
                   | apply follows_prints | apply follows_call | apply follows_print
                   | apply follows_copy_back | apply follows_bind ].
    - unfold full_log, prefix_log. cbv zeta. cbn [app].
      fold (config_of inputImage flt). by rewrite <- !app_assoc. }
  by destruct Hsc as (sc & Hsc & <-).
Qed.

End Facts.
End ScriptFacts.

(** ** Further properties of the kernel *)

Section KernelProperties.
Context {F : Type} `{FloatOps F}.
Variable cfg : config.
Variables inDev4 filterDev4 : list (float4 F).

(** X1 (bounded execution).  Whatever the order in which the device runs
    the work-items and opens the barriers, an execution of the dispatch
    takes at most [item_steps_bound] steps per work-item: the kernel's
    loops terminate on their own. *)
Theorem schedule_length_bounded (out0 : list (float4 F)) sched d :
  run_schedule cfg inDev4 filterDev4 sched (launch cfg out0) = Some d →
  length sched
  ≤ inputImgHeight cfg / 8 * (inputImgWidth cfg / 8) * (64 * item_steps_bound cfg).
Proof.
  intros Hrun. apply run_schedule_measure in Hrun.
  pose proof (launch_measure cfg out0). lia.
Qed.

(** X2 (no partial results).  At every point of every execution, an
    output cell holds either what it held at the launch, as long as no
    work-item that stores to it has finished, or the final value of its
    pixel: a partial sum is never visible in [outDev4]. *)
Theorem output_cells_initial_or_final (out0 : list (float4 F)) sched d k :
  length out0 = range_size (outBufRange cfg) →
  run_schedule cfg inDev4 filterDev4 sched (launch cfg out0) = Some d →
  (∀ item, finished_owner cfg d k item →
     dev_out d !! k
     = Some (naive_pixel cfg inDev4 filterDev4 (globalId item).1 (globalId item).2)) ∧
  ((∀ item, ¬ finished_owner cfg d k item) → dev_out d !! k = out0 !! k).
Proof.
  intros Hlen Hrun. split.
  - intros item Hown. eapply finished_owner_value; [|done].
    by eapply run_schedule_inv.
  - apply (steps_untouched cfg inDev4 filterDev4 out0 (launch cfg out0) d).
    + by eapply run_schedule_steps.
    + apply launch_untouched.
Qed.

(** X3 (each scratch cell written once).  In every execution no cell of
    a group's scratchpad is written twice; a cell is written by the
    work-item whose local id it is congruent to modulo the group size;
    and when the dispatch has completed, the cells a group has written
    are, up to order, exactly the cells of the scratch extent. *)
Theorem scratch_cells_written_once (out0 : list (float4 F)) sched tr d :
  length out0 = range_size (outBufRange cfg) →
  run_trace cfg inDev4 filterDev4 sched (launch cfg out0) = Some (tr, d) →
  (∀ g, NoDup (writes_of g tr)) ∧
  (∀ g grp t cell, dev_groups d !! g = Some grp → (g, t, EvScratchWrite cell) ∈ tr →
     ∃ it, wg_items grp !! t = Some it ∧ loader_cell cfg (localId it.1) cell) ∧
  (dev_finished d = true → ∀ g, g < length (group_ids cfg) →
     writes_of g tr ≡ₚ ids (scratchpadRange cfg).1 (scratchpadRange cfg).2).
Proof.
  intros Hlen Hrun.
  pose proof (launch_inv cfg inDev4 filterDev4 out0 Hlen) as Hinv0.
  destruct (run_trace_writes cfg inDev4 filterDev4 sched _ [] tr d Hinv0
              (launch_writes_inv cfg out0) Hrun) as [Hown Hnodup].
  destruct (run_trace_inv cfg inDev4 filterDev4 sched _ [] tr d Hinv0
              (launch_trace_inv cfg out0) Hrun) as [(_ & _ & _ & T4 & _) Hinv].
  cbn [app] in *. split_and!; [done| |].
  - intros g grp t cell Hg Hin. destruct (Hown _ _ _ _ Hg Hin) as (it & ? & ? & _).
    by exists it.
  - intros Hfin g Hg. apply NoDup_Permutation; [done|apply NoDup_ids|].
    intros cell. rewrite elem_of_writes_of, elem_of_ids. split.
    + intros [t Hin]. pose proof (run_trace_extent _ _ _ _ _ _ _ Hrun) as Hext.
      rewrite list.Forall_forall in Hext. exact (Hext _ Hin).
    + intros [Hc1 Hc2].
      assert (Ht : 0 < length local_ids) by (unfold local_ids; rewrite length_ids; cbn; lia).
      destruct (finished_item cfg inDev4 filterDev4 d g 0 Hinv Hfin Hg Ht)
        as (grp & item & Hgrp & Hit).
      destruct Hinv as [Hgroups _].
      destruct (Forall2_lookup_r _ _ _ _ _ Hgroups Hgrp) as (gid & _ & Hginv).
      destruct Hginv as (_ & _ & _ & [Hpre|[_ Hcomplete]] & _).
      * by apply (Forall_lookup_1 _ _ _ _ Hpre) in Hit.
      * by eapply T4, Hcomplete.
Qed.

(** X4 (events of a work-item).  In every execution, under any
    schedule, a work-item that has finished has performed exactly: the
    scratch writes of the cells [(l[0] + 8a, l[1] + 8b)] below the
    scratch extent, in the order of the loader loops; one barrier; the
    scratch reads [scratch[localId + (r, c)]] for [(r, c)] over the
    filter in row-major order; and the one store to
    [outDev4[globalId[0] * outputWidth + globalId[1]]]. *)
Theorem work_item_event_sequence (out0 : list (float4 F)) sched tr d g grp t item :
  length out0 = range_size (outBufRange cfg) →
  run_trace cfg inDev4 filterDev4 sched (launch cfg out0) = Some (tr, d) →
  dev_groups d !! g = Some grp → wg_items grp !! t = Some (item, Done) →
  events_of g t tr
  = (EvScratchWrite <$> loader_cells cfg (localId item))
    ++ EvBarrier
    :: ((λ idx, EvScratchRead (range_add (localId item) idx)) <$> window (filterWidth cfg))
    ++ [EvOutWrite (out_index cfg item)].
Proof.
  intros Hlen Hrun Hg Ht.
  pose proof (launch_inv cfg inDev4 filterDev4 out0 Hlen) as Hinv0.
  pose proof (run_trace_script cfg inDev4 filterDev4 sched _ [] tr d Hinv0
                (launch_script_inv cfg out0) Hrun _ _ _ _ Hg Ht) as Hev.
  cbn [app fst snd thread_script] in Hev. rewrite Hev.
  unfold window_reads. rewrite take_ge; [done|].
  unfold window. by rewrite length_ids.
Qed.

(** X5 (locality).  The pixel the dispatch leaves at [(y, x)] depends on
    the input only through the [filterWidth x filterWidth] window of the
    padded input at [(y, x)]: two inputs that agree there give the same
    output pixel, whatever they hold elsewhere and whatever the output
    buffers held before. *)
Theorem output_pixel_locality (inDev4' out0 out0' : list (float4 F)) (y x : nat) :
  buffers_ok cfg inDev4 filterDev4 → buffers_ok cfg inDev4' filterDev4 →
  divisible cfg →
  length out0 = range_size (outBufRange cfg) →
  length out0' = range_size (outBufRange cfg) →
  x < inputImgWidth cfg →
  (∀ r c, r < filterWidth cfg → c < filterWidth cfg →
     inDev4 !! ((y + r) * (inBufRange cfg).2 + (x + c))
     = inDev4' !! ((y + r) * (inBufRange cfg).2 + (x + c))) →
  ∃ out out',
    dispatch cfg inDev4 filterDev4 out0 = Some out ∧
    dispatch cfg inDev4' filterDev4 out0' = Some out' ∧
    out !! (y * inputImgWidth cfg + x) = out' !! (y * inputImgWidth cfg + x).
Proof.
  intros Hbuf Hbuf' Hdiv Hlen Hlen' Hx Hagree.
  exists (naive_conv cfg inDev4 filterDev4), (naive_conv cfg inDev4' filterDev4).
  split_and!; [by apply dispatch_naive..|].
  unfold naive_conv. rewrite !list_lookup_fmap.
  destruct (decide (y < inputImgHeight cfg)) as [Hy|Hy].
  - rewrite (lookup_ids _ _ _ _ Hy Hx). cbn [fmap option_fmap option_map fst snd].
    f_equal. by apply naive_pixel_ext.
  - rewrite lookup_ge_None_2; [done|]. rewrite length_ids. nia.
Qed.

End KernelProperties.

(** ** Further properties of the host program *)

Section HostReturns.
Import Host HostFacts Script ScriptFacts.
Context {F : Type}.
Variable rt : runtime F.

Lemma call_returns c (st : host_state F) :
  never_throws rt →
  call rt c st
  = ({| outputImage := outputImage st; outDev := outDev st; calls := S (calls st);
        log := log st ++ [Call c] |}, inr tt).
Proof. intros Hnt. unfold call. by rewrite Hnt. Qed.

Lemma kernel_run_returns cfg inputImage flt (st : host_state F) :
  never_throws rt →
  kernel_run rt cfg inputImage flt st
  = ({| outputImage := outputImage st;
        outDev := rt_kernel rt cfg (img_data inputImage) (flt_data flt) (outDev st);
        calls := S (S (calls st));
        log := log st ++ iteration_log cfg |}, inr tt).
Proof.
  intros Hnt. unfold kernel_run. erewrite bind_returns by (by apply call_returns).
  erewrite bind_returns by reflexivity. rewrite call_returns by done.
  cbn [calls outputImage outDev log iteration_log]. by rewrite <- app_assoc.
Qed.

Lemma reruns_returns cfg inputImage flt more (st : host_state F) :
  never_throws rt →
  reruns (kernel_run rt cfg inputImage flt) more st
  = ({| outputImage := outputImage st;
        outDev := Nat.iter (length more)
                    (rt_kernel rt cfg (img_data inputImage) (flt_data flt)) (outDev st);
        calls := length more * 2 + calls st;
        log := log st ++ (more ≫= λ ls, (Stdout <$> ls) ++ iteration_log cfg) |}, inr tt).
Proof.
  intros Hnt. revert st. induction more as [|ls more IH]; intros st.
  { cbn. rewrite app_nil_r. by destruct st. }
  cbn [reruns]. erewrite bind_returns by apply prints_run.
  erewrite bind_returns by (by apply kernel_run_returns). rewrite IH.
  cbn [calls outputImage outDev log length]. rewrite Nat.iter_succ_r, bind_cons.
  f_equal. f_equal; [lia|]. by rewrite <- !app_assoc.
Qed.

Lemma try_block_returns inputImage outputImage0 flt outDev0 :
  never_throws rt →
  try_result rt inputImage outputImage0 flt outDev0
  = ({| outputImage := Nat.iter (harness_runs rt)
                         (rt_kernel rt (config_of inputImage flt)
                            (img_data inputImage) (flt_data flt)) outDev0;
        outDev := Nat.iter (harness_runs rt)
                    (rt_kernel rt (config_of inputImage flt)
                       (img_data inputImage) (flt_data flt)) outDev0;
        calls := harness_runs rt * 2 + 12;
        log := full_log rt inputImage flt |}, inr tt).
Proof.
  intros Hnt. unfold try_result. rewrite try_block_prefix by (intros; apply Hnt).
  unfold from_benchmark. cbv zeta.
  erewrite bind_returns; cycle 1.
  { erewrite bind_returns by (by apply kernel_run_returns).
    erewrite bind_returns by (by apply reruns_returns). apply prints_run. }
  cbn [calls outputImage outDev log].
  erewrite bind_returns by (by apply call_returns).
  erewrite bind_returns by reflexivity.
  cbn [calls outputImage outDev log].
  repeat (erewrite bind_returns by (by apply call_returns);
          cbn [calls outputImage outDev log]).
  rewrite call_returns by done.
  cbn [calls outputImage outDev log]. unfold full_log, harness_runs. cbv zeta.
  rewrite <- Nat.iter_succ_r. f_equal. f_equal; [lia|].
  by rewrite <- !app_assoc.
Qed.

End HostReturns.

Section KernelRuns.
Context {F : Type} `{FloatOps F}.

Lemma length_naive_conv cfg (inp flt : list (float4 F)) :
  length (naive_conv cfg inp flt) = range_size (outBufRange cfg).
Proof. unfold naive_conv. by rewrite length_fmap, length_ids. Qed.

Lemma iter_dispatch cfg (inp flt out0 : list (float4 F))
    (K : list (float4 F) → list (float4 F)) n :
  (∀ out, K out = default out (dispatch cfg inp flt out)) →
  buffers_ok cfg inp flt → divisible cfg →
  length out0 = range_size (outBufRange cfg) →
  Nat.iter (S n) K out0 = naive_conv cfg inp flt.
Proof.
  intros HK Hbuf Hdiv Hlen. induction n as [|n IH].
  - cbn [Nat.iter nat_rect]. by rewrite HK, dispatch_naive.
  - rewrite Nat.iter_succ, IH, HK, dispatch_naive; [done..|]. apply length_naive_conv.
Qed.

End KernelRuns.

Section HostProperties.
Import Host HostFacts Script ScriptFacts.
Context {F : Type}.
Variable rt : runtime F.

Lemma main_ending inputImage outputImage0 flt outDev0 (st : host_state F) r :
  try_result rt inputImage outputImage0 flt outDev0 = (st, r) →
  main rt inputImage outputImage0 flt outDev0
  = (log st ++ (ending (thrown r) (outputImage st)).1,
     (ending (thrown r) (outputImage st)).2).
Proof.
  intros Htry. rewrite main_unfold, Htry. cbn [fst snd].
  destruct r as [[what|]|[]]; cbn [thrown ending fst snd]; by rewrite ?app_nil_r.
Qed.

(** X6 (straight-line host).  However the runtime calls fail, and
    whatever the benchmark harness writes and however often (at least
    once) it runs the lambda, what [main] logs is one script played
    against the runtime:
    the script up to and including the first call that fails; then,
    after a [sycl::exception], the [Exception caught: ] line and one
    [write_image], with return value 0; after a failure the [catch]
    does not handle, nothing more, the process being terminated; and
    when no call fails, one [write_image], with return value 0. *)
Theorem main_plays_script (inputImage outputImage0 : image F) (flt : filter F)
    (outDev0 : list (float4 F)) :
  ∃ img,
    main rt inputImage outputImage0 flt outDev0
    = ((play rt 0 (full_log rt inputImage flt)).1
         ++ (ending (play rt 0 (full_log rt inputImage flt)).2 img).1,
       (ending (play rt 0 (full_log rt inputImage flt)).2 img).2).
Proof.
  destruct (try_result rt inputImage outputImage0 flt outDev0) as [st r] eqn:Htry.
  destruct (try_block_follows rt _ _ _ _ _ Htry) as (Hlog & Hthrown & _).
  cbn [log calls app] in Hlog, Hthrown. exists (outputImage st).
  rewrite (main_ending _ _ _ _ _ _ Htry). by rewrite <- Hlog, <- Hthrown.
Qed.

(** X7 (normal path).  When no runtime call fails, [main] makes the
    set-up calls; then, for every run of the lambda by the benchmark
    harness, exactly one kernel submission followed by one
    [wait_and_throw]; then the copy back and three [sycl::free]s; and
    the image it writes is the initial content of the device output
    buffer after as many runs of the kernel as the harness made. *)
Theorem main_normal_path (inputImage outputImage0 : image F) (flt : filter F)
    (outDev0 : list (float4 F)) :
  never_throws rt →
  main rt inputImage outputImage0 flt outDev0
  = (full_log rt inputImage flt
       ++ [WriteImage
             (Nat.iter (harness_runs rt)
                (rt_kernel rt (config_of inputImage flt)
                   (img_data inputImage) (flt_data flt)) outDev0)
             outputImageFile], Returns 0).
Proof.
  intros Hnt. rewrite main_unfold. by rewrite try_block_returns.
Qed.

(** X8 (no clean-up on the exception path).  When a call other than one
    of the final [sycl::free]s fails, no [sycl::free] has been called:
    the device buffers allocated by then are not released. *)
Theorem exception_skips_free (inputImage outputImage0 : image F) (flt : filter F)
    (outDev0 : list (float4 F)) (st : host_state F) (e : failure) :
  try_result rt inputImage outputImage0 flt outDev0 = (st, inl e) →
  last (log st) ≠ Some (Call Free) →
  Call Free ∉ log st.
Proof.
  intros Htry Hlast.
  destruct (try_block_follows rt _ _ _ _ _ Htry) as (Hlog & Hthrown & _).
  cbn [log calls app thrown] in Hlog, Hthrown. symmetry in Hthrown.
  destruct (play_throw rt _ _ _ Hthrown) as (k & c & Hk & Hplay & _).
  rewrite Hplay in Hlog. rewrite Hlog in Hlast |- *.
  rewrite (take_S_r _ _ _ Hk), last_snoc in Hlast.
  set (cfg := config_of inputImage flt).
  set (h := rt_harness rt 100 caption).
  set (A := prefix_log rt inputImage flt ++ iteration_log cfg
            ++ (h_more h ≫= λ ls, (Stdout <$> ls) ++ iteration_log cfg)
            ++ (Stdout <$> h_after h)
            ++ [Call (CopyFromDevice (range_size (outBufRange cfg) * img_channels inputImage))]).
  assert (Hfull : full_log rt inputImage flt = A ++ [Call Free; Call Free; Call Free]).
  { unfold full_log, A. cbv zeta. fold cfg h. by rewrite <- !app_assoc. }
  assert (HA : Forall (λ ev, ev ≠ Call Free) A).
  { assert (Hout : ∀ ls : list string, Forall (λ ev : host_event F, ev ≠ Call Free) (Stdout <$> ls)).
    { intros ls. apply Forall_fmap, Forall_true. by intros s. }
    assert (Hit : Forall (λ ev : host_event F, ev ≠ Call Free) (iteration_log cfg)).
    { repeat constructor; discriminate. }
    unfold A, prefix_log. cbv zeta.
    apply Forall_app_2; [apply Forall_app_2; [repeat constructor; discriminate|done]|].
    apply Forall_app_2; [done|]. apply Forall_app_2.
    { apply Forall_bind, Forall_true. intros ls. by apply Forall_app_2. }
    apply Forall_app_2; [done|]. repeat constructor; discriminate. }
  rewrite Hfull in Hk |- *.
  destruct (decide (k < length A)) as [Hlt|Hge].
  - rewrite take_app_le by lia. intros Hin%elem_of_take. destruct Hin as (i & Hi & _).
    by apply (Forall_lookup_1 _ _ _ _ HA) in Hi.
  - exfalso. apply Hlast. rewrite lookup_app_r in Hk by lia.
    destruct (k - length A) as [|[|[|n]]]; [by injection Hk as <-..|discriminate Hk].
Qed.

End HostProperties.

Section EndToEnd.
Import Host HostFacts Script ScriptFacts.
Context {F : Type} `{FloatOps F}.
Variable rt : runtime F.

(** X9 (end to end).  When no runtime call fails, the device runs the
    kernel of lines 83-139, the input image is padded by the halo, the
    filter is square and the image dimensions are multiples of the 8x8
    group, the image [main] writes is the naive convolution of the
    padded input with the filter. *)
Theorem main_writes_convolution (inputImage outputImage0 : image F) (flt : filter F)
    (outDev0 : list (float4 F)) :
  never_throws rt → runs_kernel rt →
  host_buffers_ok inputImage flt outDev0 →
  divisible (config_of inputImage flt) →
  main rt inputImage outputImage0 flt outDev0
  = (full_log rt inputImage flt
       ++ [WriteImage
             (naive_conv (config_of inputImage flt) (img_data inputImage) (flt_data flt))
             outputImageFile], Returns 0).
Proof.
  intros Hnt Hker (Hin & Hflt & Hout) Hdiv.
  rewrite main_unfold. rewrite try_block_returns by done. cbn [fst snd log outputImage].
  unfold harness_runs.
  rewrite (iter_dispatch (config_of inputImage flt) (img_data inputImage)
             (flt_data flt) outDev0 _ _); [done|..|done|done].
  - intros out. apply Hker.
  - by split.
Qed.

End EndToEnd.

(** ** The host image after the copy back *)

Module ImageFacts.
Import Host HostFacts Script ScriptFacts.

Section Facts.
Context {F : Type}.
Variable rt : runtime F.

Lemma not_free_call c : c ≠ Free → throws_not_free (call rt c).
Proof.
  intros Hc st st' e. unfold call. destruct (rt_throws rt _ c); [|done].
  intros [= <- _]. cbn. rewrite last_snoc. congruence.
Qed.

Lemma not_free_print s : throws_not_free (print s : M F unit).
Proof. by intros st st' e. Qed.

Lemma not_free_prints ls : throws_not_free (prints ls : M F unit).
Proof. intros st st' e. by rewrite prints_run. Qed.

Lemma not_free_set_outDev (f : list (float4 F) → list (float4 F)) :
  throws_not_free (set_outDev f).
Proof. by intros st st' e. Qed.

Lemma not_free_bind (m k : M F unit) :
  throws_not_free m → throws_not_free k → throws_not_free (m ;; k).
Proof.
  intros Hm Hk st st' e [(e' & Hr & _)|(st1 & [] & Hr & Hr')]%bind_inv.
  - by eapply Hm.
  - by eapply Hk.
Qed.

Lemma not_free_reruns (f : M F unit) more :
  throws_not_free f → throws_not_free (reruns f more).
Proof.
  intros Hf. induction more as [|ls more IH]; [by intros st st' e|].
  cbn [reruns]. apply not_free_bind; [apply not_free_prints|by apply not_free_bind].
Qed.

Lemma not_free_kernel_run cfg inputImage flt :
  throws_not_free (kernel_run rt cfg inputImage flt).
Proof.
  apply not_free_bind; [by apply not_free_call|].
  apply not_free_bind; [apply not_free_set_outDev|by apply not_free_call].
Qed.

Lemma not_free_benchmark (f : M F unit) n c :
  throws_not_free f → throws_not_free (benchmark rt f n c).
Proof.
  intros Hf. apply not_free_bind; [apply not_free_prints|].
  apply not_free_bind; [done|].
  apply not_free_bind; [by apply not_free_reruns|apply not_free_prints].
Qed.

Lemma dev_call c : returns_dev (λ out, out) (call rt c).
Proof.
  intros st st' a. unfold call. by destruct (rt_throws rt _ c); intros [= <- _].
Qed.

Lemma dev_print s : returns_dev (λ out, out) (print s : M F unit).
Proof. by intros st st' a [= <- _]. Qed.

Lemma dev_prints ls : returns_dev (λ out, out) (prints ls : M F unit).
Proof. intros st st' a. rewrite prints_run. by intros [= <- _]. Qed.

Lemma dev_set_outDev (f : list (float4 F) → list (float4 F)) : returns_dev f (set_outDev f).
Proof. by intros st st' a [= <- _]. Qed.

Lemma dev_bind (g1 g2 : list (float4 F) → list (float4 F)) (m k : M F unit) :
  returns_dev g1 m → returns_dev g2 k → returns_dev (λ out, g2 (g1 out)) (m ;; k).
Proof.
  intros Hm Hk st st' a [(e & _ & ?)|(st1 & [] & Hr & Hr')]%bind_inv; [done|].
  by rewrite (Hk _ _ _ Hr'), (Hm _ _ _ Hr).
Qed.

Lemma dev_reruns (g : list (float4 F) → list (float4 F)) (f : M F unit) more :
  returns_dev g f → returns_dev (Nat.iter (length more) g) (reruns f more).
Proof.
  intros Hf. induction more as [|ls more IH]; [by intros st st' a [= <- _]|].
  cbn [reruns]. intros st st' a [(e & _ & ?)|(st1 & [] & Hr & Hr')]%bind_inv; [done|].
  apply bind_inv in Hr' as [(e & _ & ?)|(st2 & [] & Hr2 & Hr')]; [done|].
  rewrite (IH _ _ _ Hr'), (Hf _ _ _ Hr2), (dev_prints _ _ _ _ Hr).
  cbn [length]. by rewrite Nat.iter_succ_r.
Qed.

Lemma dev_kernel_run cfg inputImage flt :
  returns_dev (rt_kernel rt cfg (img_data inputImage) (flt_data flt))
    (kernel_run rt cfg inputImage flt).
Proof.
  intros st st' a Hrun.
  apply (dev_bind _ _ _ _ (dev_call _)
           (dev_bind _ _ _ _ (dev_set_outDev _) (dev_call _)) _ _ _ Hrun).
Qed.

Lemma dev_benchmark (g : list (float4 F) → list (float4 F)) (f : M F unit) n c :
  returns_dev g f →
  returns_dev (Nat.iter (S (length (h_more (rt_harness rt n c)))) g) (benchmark rt f n c).
Proof.
  intros Hf st st' a. unfold benchmark. cbv zeta.
  intros [(e & _ & ?)|(st1 & [] & Hr1 & Hr)]%bind_inv; [done|].
  apply bind_inv in Hr as [(e & _ & ?)|(st2 & [] & Hr2 & Hr)]; [done|].
  apply bind_inv in Hr as [(e & _ & ?)|(st3 & [] & Hr3 & Hr)]; [done|].
  rewrite (dev_prints _ _ _ _ Hr), (dev_reruns _ _ _ Hf _ _ _ Hr3), (Hf _ _ _ Hr2),
    (dev_prints _ _ _ _ Hr1).
  by rewrite Nat.iter_succ_r.
Qed.

Lemma image_after_tail :
  image_after (λ out, out) (copy_back ;; call rt Free ;; call rt Free ;; call rt Free).
Proof.
  assert (Hkeep : keeps_image (call rt Free ;; call rt Free ;; call rt Free)).
  { repeat apply keeps_bind; apply keeps_call. }
  intros st st' r [(e & Hr & _)|(st1 & [] & Hr & Hr')]%bind_inv _; [done|].
  injection Hr as <-. by rewrite (Hkeep _ _ _ Hr').
Qed.

Lemma image_after_bind (f g : list (float4 F) → list (float4 F)) (m k : M F unit) :
  throws_not_free m → returns_dev g m → image_after f k →
  image_after (λ out, f (g out)) (m ;; k).
Proof.
  intros Hfree Hdev Hk st st' r [(e & Hr & ->)|(st1 & [] & Hr & Hr')]%bind_inv Hpast.
  - by apply Hfree in Hr.
  - by rewrite (Hk _ _ _ Hr' Hpast), (Hdev _ _ _ Hr).
Qed.

Lemma try_block_image_after inputImage flt :
  image_after (Nat.iter (harness_runs rt)
                 (rt_kernel rt (config_of inputImage flt)
                    (img_data inputImage) (flt_data flt)))
    (try_block rt inputImage flt).
Proof.
  assert (Hf : ∃ f, image_after f (try_block rt inputImage flt) ∧
                    ∀ out, f out = Nat.iter (harness_runs rt)
                                     (rt_kernel rt (config_of inputImage flt)
                                        (img_data inputImage) (flt_data flt)) out).
  { eexists. split.
    - unfold try_block.
      repeat (apply image_after_bind;
              [first [apply not_free_call; discriminate | apply not_free_print]
              |first [apply dev_call | apply dev_print]|]).
      cbv zeta. apply image_after_bind.
      + apply not_free_benchmark, not_free_kernel_run.
      + apply dev_benchmark, dev_kernel_run.
      + apply image_after_bind;
          [apply not_free_call; discriminate|apply dev_call|apply image_after_tail].
    - intros out. reflexivity. }
  destruct Hf as (f & Hf & Heq). intros st st' r Hrun Hpast.
  rewrite <- Heq. by eapply Hf.
Qed.

End Facts.
End ImageFacts.

Section ImageProperties.
Import Host HostFacts Script ScriptFacts ImageFacts.
Context {F : Type}.
Variable rt : runtime F.

(** X10 (image after the copy back).  When the [try] block returns, or
    fails in one of the final [sycl::free]s, the host image holds the
    initial content of the device output buffer after as many runs of
    the kernel as the benchmark harness made.  That is the image [main]
    writes when the [try] block returned or the failure was a
    [sycl::exception]; after a failure the [catch] does not handle, the
    process is terminated and nothing is written. *)
Theorem image_after_copy_back (inputImage outputImage0 : image F) (flt : filter F)
    (outDev0 : list (float4 F)) (st : host_state F) (r : failure + unit) :
  try_result rt inputImage outputImage0 flt outDev0 = (st, r) →
  past_copy_back st r →
  let img := Nat.iter (harness_runs rt)
               (rt_kernel rt (config_of inputImage flt)
                  (img_data inputImage) (flt_data flt)) outDev0 in
  outputImage st = img ∧
  main rt inputImage outputImage0 flt outDev0
  = (log st ++ (ending (thrown r) img).1, (ending (thrown r) img).2).
Proof.
  intros Htry Hpast img.
  pose proof (try_block_image_after rt _ _ _ _ _ Htry Hpast) as Himg.
  cbn [outDev] in Himg. split; [done|].
  rewrite (main_ending _ _ _ _ _ _ _ Htry). by rewrite Himg.
Qed.

End ImageProperties.

(** ** The further properties on concrete inputs *)

Lemma schedule_length_bounded_witness :
  length Demo3.forward ≤ 8 / 8 * (8 / 8) * (64 * item_steps_bound Demo.cfg3).
Proof.
  apply (schedule_length_bounded Demo.cfg3 Demo.input3 Demo.flt3 Demo.out0 Demo3.forward
           Demo3.forward_run.2).
  vm_compute. reflexivity.
Defined.

Lemma output_cells_initial_or_final_witness :
  (∀ item, finished_owner Demo.cfg3 Demo3.midway 63 item →
     dev_out Demo3.midway !! 63
     = Some (naive_pixel Demo.cfg3 Demo.input3 Demo.flt3 (globalId item).1 (globalId item).2)) ∧
  ((∀ item, ¬ finished_owner Demo.cfg3 Demo3.midway 63 item) →
     dev_out Demo3.midway !! 63 = Demo.out0 !! 63).
Proof.
  apply (output_cells_initial_or_final Demo.cfg3 Demo.input3 Demo.flt3 Demo.out0
           (take 600 Demo3.forward) Demo3.midway 63).
  - reflexivity.
  - vm_compute. reflexivity.
Defined.

Lemma scratch_cells_written_once_witness :
  dev_finished Demo3.forward_run.2 = true ∧
  writes_of 0 Demo3.forward_run.1 ≡ₚ ids 10 10.
Proof.
  assert (Hfin : dev_finished Demo3.forward_run.2 = true) by (vm_compute; reflexivity).
  split; [exact Hfin|].
  apply (scratch_cells_written_once Demo.cfg3 Demo.input3 Demo.flt3 Demo.out0 Demo3.forward
           Demo3.forward_run.1 Demo3.forward_run.2).
  - reflexivity.
  - vm_compute. reflexivity.
  - exact Hfin.
  - vm_compute. lia.
Defined.

Lemma work_item_event_sequence_witness :
  events_of 0 9 Demo3.forward_run.1
  = (EvScratchWrite <$> loader_cells Demo.cfg3 (1, 1))
    ++ EvBarrier
    :: ((λ idx, EvScratchRead (range_add (1, 1) idx)) <$> window 3)
    ++ [EvOutWrite 9].
Proof.
  apply (work_item_event_sequence Demo.cfg3 Demo.input3 Demo.flt3 Demo.out0 Demo3.forward
           Demo3.forward_run.1 Demo3.forward_run.2 0
           (default (init_group (0, 0)) (dev_groups Demo3.forward_run.2 !! 0)) 9
           (nd_item_of (0, 0) (1, 1))).
  - reflexivity.
  - vm_compute. reflexivity.
  - vm_compute. reflexivity.
  - vm_compute. reflexivity.
Defined.

Lemma output_pixel_locality_witness :
  ∃ out out',
    dispatch Demo.cfg3 Demo.input3 Demo.flt3 Demo.out0 = Some out ∧
    dispatch Demo.cfg3 (<[0 := Demo.z4 99]> Demo.input3) Demo.flt3 Demo.out0' = Some out' ∧
    out !! (4 * 8 + 4) = out' !! (4 * 8 + 4).
Proof.
  apply (output_pixel_locality Demo.cfg3 Demo.input3 Demo.flt3
           (<[0 := Demo.z4 99]> Demo.input3) Demo.out0 Demo.out0' 4 4).
  - split; reflexivity.
  - split; reflexivity.
  - split; reflexivity.
  - reflexivity.
  - reflexivity.
  - vm_compute. lia.
  - intros r c _ _. symmetry. apply list_lookup_insert_ne.
    change ((inBufRange Demo.cfg3).2) with 10. lia.
Defined.

Lemma main_normal_path_witness :
  Host.main Host.lenient Demo.image10 Demo.output10 Demo.filter11 (replicate 100 (Demo.z4 3))
  = (Script.full_log Host.lenient Demo.image10 Demo.filter11
       ++ [Host.WriteImage
             (Nat.iter (Script.harness_runs (Host.lenient (F:=Z)))
                (Host.rt_kernel Host.lenient (Host.config_of Demo.image10 Demo.filter11)
                   (Host.img_data Demo.image10) (Host.flt_data Demo.filter11))
                (replicate 100 (Demo.z4 3)))
             Host.outputImageFile], Host.Returns 0).
Proof.
  apply (main_normal_path Host.lenient Demo.image10 Demo.output10 Demo.filter11
           (replicate 100 (Demo.z4 3))).
  intros n c. reflexivity.
Defined.

Lemma main_writes_convolution_witness :
  Host.main Script.device_runtime Script.image8 Script.output8 Script.filter1 Demo.out0
  = (Script.full_log Script.device_runtime Script.image8 Script.filter1
       ++ [Host.WriteImage (naive_conv Demo.cfg Demo.input Demo.flt) Host.outputImageFile],
     Host.Returns 0).
Proof.
  apply (main_writes_convolution Script.device_runtime Script.image8 Script.output8
           Script.filter1 Demo.out0).
  - intros n c. reflexivity.
  - intros cfg inp flt out. reflexivity.
  - split_and!; reflexivity.
  - split; reflexivity.
Defined.

Lemma exception_skips_free_witness :
  Host.Call Host.Free
  ∉ Host.prefix_log (Script.crashing_at 8) Demo.image10 Demo.filter11
    ++ [Host.Call (Host.Submit (10, 10) (8, 8))].
Proof.
  apply (exception_skips_free (Script.crashing_at 8) Demo.image10 Demo.output10
           Demo.filter11 (replicate 100 (Demo.z4 0))
           {| Host.outputImage := replicate 100 (Demo.z4 0);
              Host.outDev := replicate 100 (Demo.z4 0);
              Host.calls := 9;
              Host.log := Host.prefix_log (Script.crashing_at 8) Demo.image10
                            Demo.filter11
                          ++ [Host.Call (Host.Submit (10, 10) (8, 8))] |}
           Host.Fatal).
  - reflexivity.
  - vm_compute. discriminate.
Defined.

Lemma image_after_copy_back_witness :
  Host.outputImage
    (Host.try_result (Host.failing_at 210 "free") Demo.image10 Demo.output10 Demo.filter11
       (replicate 100 (Demo.z4 3))).1
  = Nat.iter (Script.harness_runs (Host.failing_at (F:=Z) 210 "free"))
      (Host.rt_kernel (Host.failing_at 210 "free")
         (Host.config_of Demo.image10 Demo.filter11)
         (Host.img_data Demo.image10) (Host.flt_data Demo.filter11))
      (replicate 100 (Demo.z4 3)).
Proof.
  apply (image_after_copy_back (Host.failing_at 210 "free") Demo.image10 Demo.output10
           Demo.filter11 (replicate 100 (Demo.z4 3))
           (Host.try_result (Host.failing_at 210 "free") Demo.image10 Demo.output10
              Demo.filter11 (replicate 100 (Demo.z4 3))).1
           (Host.try_result (Host.failing_at 210 "free") Demo.image10 Demo.output10
              Demo.filter11 (replicate 100 (Demo.z4 3))).2).
  - vm_compute. reflexivity.
  - vm_compute. reflexivity.
Defined.
